(** * panel/interactive.py: the lazy reactive expression engine

    A shallow embedding of [interactive_base] / [interactive] and of the
    helpers [_flatten] and [_find_widgets].  Python objects live in an
    explicit store: expression nodes, the shared one-slot lists bound to
    [_shared_obj], the parameterized owners ([Wrapper] instances, widgets)
    with their watchers, and a log of every call made into the wrapped
    value.  Exceptions are results; they keep the store as it was when
    they were raised. *)

From Stdlib Require Import ZArith Lia.
From stdpp Require Import base option list strings.

Set Warnings "-register-all".

(** ** Exceptions and results *)

Inductive exn :=
  | AttributeError
  | TypeError
  | ValueError
  | KeyError
  | IndexError
  | NotEmbedded   (* a call the embedding does not cover *)
  | BadRef        (* a reference outside the store; no Python object dangles *)
  | OutOfFuel.    (* the recursion bound of the embedding was reached *)

Inductive result (A : Type) :=
  | Ok (a : A)
  | Raise (e : exn).
Arguments Ok {A} a.
Arguments Raise {A} e.

#[global] Instance exn_eq_dec : EqDecision exn.
Proof. solve_decision. Defined.

(** ** Operands

    What may sit in [operation['args']] and [operation['kwargs']]: a plain
    value, another expression node, a [param.Parameter] (owner, name), a
    widget, a [slice], or a nested list / tuple / dict. *)

Inductive operand (V : Type) :=
  | OVal (v : V)
  | ONode (r : nat)
  | OParam (owner : nat) (name : string)
  | OWidget (owner : nat)
  | OSlice (start stop step : operand V)
  | OList (l : list (operand V))
  | OTuple (l : list (operand V))
  | ODict (l : list (operand V * operand V)).
Arguments OVal {V} v.
Arguments ONode {V} r.
Arguments OParam {V} owner name.
Arguments OWidget {V} owner.
Arguments OSlice {V} start stop step.
Arguments OList {V} l.
Arguments OTuple {V} l.
Arguments ODict {V} l.

(** ** The wrapped values

    The engine never looks inside the value it wraps: it reads attributes,
    calls methods and applies callables.  [Host] is that interface. *)

Class Host (V F : Type) := {
  vnone : V;                               (* None *)
  is_none : V -> bool;                     (* v is None *)
  same_value : V -> V -> bool;             (* the parameter system finds no change *)
  vstr : string -> V;                      (* a str *)
  pub_dir : V -> list string;              (* [d for d in dir(v) if not d.startswith('_')] *)
  py_getattr : V -> string -> result V;    (* getattr(v, name) *)
  is_callable : V -> bool;                 (* hasattr(v, '__call__') *)
  call_method : V -> string -> list V -> list (string * V) -> result V;
                                           (* the method v.name applied to args and kwargs *)
  call_fn : F -> list V -> list (string * V) -> result V;
                                           (* fn applied to args and kwargs *)
  op_getitem : F;                          (* operator.getitem *)
  reify : operand V -> V;                  (* a container operand, passed as it is *)
  truthy : V -> bool;                      (* bool(v) *)
  as_str : V -> option string;             (* v, when isinstance(v, str) *)
  as_fn : V -> option F                    (* v, when it is a function *)
}.

(** ** The store *)

(** [_fn]: what (re)computes the root value.  [PBind o x] is
    [bind(lambda obj: obj, p)] for the parameter [x] of owner [o];
    [PFunc f deps] is a function or method given as root, with the
    parameters it declares; [PNode q deps] is what
    [_interactive_transform] makes of a node [q] given as root,
    [bind(lambda *_: q.eval(), *q._params)], with [deps] the
    parameters [q._params] gave when it was made. *)
Inductive producer (F : Type) :=
  | PBind (owner : nat) (name : string)
  | PFunc (f : F) (deps : list (nat * string))
  | PNode (q : nat) (deps : list (nat * string)).
Arguments PBind {F} owner name.
Arguments PFunc {F} f deps.
Arguments PNode {F} q deps.

(** [operation['fn']]: a method name or a callable. *)
Inductive fnref (F : Type) :=
  | FnMethod (name : string)
  | FnCall (f : F).
Arguments FnMethod {F} name.
Arguments FnCall {F} f.

(** [operation['args']]: a sequence of operands, or, as
    [_resolve_accessor] builds it, a bare str. *)
Inductive arguments (V : Type) :=
  | ArgSeq (l : list (operand V))
  | ArgStr (s : string).
Arguments ArgSeq {V} l.
Arguments ArgStr {V} s.

Record operation (V F : Type) := Operation {
  op_fn : fnref F;
  op_args : arguments V;
  op_kwargs : list (string * operand V);
  op_reverse : bool
}.
Arguments Operation {V F} op_fn op_args op_kwargs op_reverse.
Arguments op_fn {V F} o.
Arguments op_args {V F} o.
Arguments op_kwargs {V F} o.
Arguments op_reverse {V F} o.

(** An entry of [_kwargs]: the [wrapper] a copy leaves there, or a
    keyword argument given by the caller. *)
Inductive kwval (V : Type) :=
  | KWrapper (w : option nat)
  | KArg (a : operand V).
Arguments KWrapper {V} w.
Arguments KArg {V} a.

Record node (V F : Type) := Node {
  n_fn : producer F;                 (* _fn *)
  n_shared : option nat;             (* _shared_obj: None or a one-slot list *)
  n_wrapper : option nat;            (* _wrapper *)
  n_method : option string;          (* _method *)
  n_operation : option (operation V F);  (* _operation *)
  n_depth : nat;                     (* _depth *)
  n_prev : option nat;               (* _prev *)
  n_kwargs : list (string * kwval V);    (* _kwargs *)
  n_dirty : bool;                    (* _dirty *)
  n_current : V                      (* _current_ *)
}.
Arguments Node {V F} _ _ _ _ _ _ _ _ _ _.
Arguments n_fn {V F} n.
Arguments n_shared {V F} n.
Arguments n_wrapper {V F} n.
Arguments n_method {V F} n.
Arguments n_operation {V F} n.
Arguments n_depth {V F} n.
Arguments n_prev {V F} n.
Arguments n_kwargs {V F} n.
Arguments n_dirty {V F} n.
Arguments n_current {V F} n.

(** A parameterized object: a [Wrapper], a widget, or any other owner
    of parameters. *)
Record owner (V : Type) := Owner {
  o_widget : bool;                   (* isinstance(o, Widget) *)
  o_vals : list (string * V)         (* its parameters' current values *)
}.
Arguments Owner {V} o_widget o_vals.
Arguments o_widget {V} o.
Arguments o_vals {V} o.

Inductive callback :=
  | CbUpdateObj (r : nat)            (* r._update_obj *)
  | CbInvalidate (r : nat).          (* r._invalidate_current *)

Record watcher := Watcher {
  w_owner : nat;
  w_names : list string;
  w_cb : callback
}.

(** A call into the wrapped value or into a root function. *)
Inductive event (V F : Type) :=
  | EvMethod (self : V) (name : string) (args : list V) (kwargs : list (string * V))
  | EvFn (f : F) (args : list V) (kwargs : list (string * V)).
Arguments EvMethod {V F} self name args kwargs.
Arguments EvFn {V F} f args kwargs.

Record store (V F : Type) := Store {
  nodes : list (node V F);
  cells : list V;
  owners : list (owner V);
  watchers : list watcher;
  log : list (event V F)
}.
Arguments Store {V F} nodes cells owners watchers log.
Arguments nodes {V F} s.
Arguments cells {V F} s.
Arguments owners {V F} s.
Arguments watchers {V F} s.
Arguments log {V F} s.

(** ** Computations over the store *)

Definition M (V F A : Type) : Type := store V F -> result A * store V F.

Definition ret {V F A} (a : A) : M V F A := fun s => (Ok a, s).
Definition throw {V F A} (e : exn) : M V F A := fun s => (Raise e, s).
Definition lift {V F A} (r : result A) : M V F A := fun s => (r, s).
Definition bind {V F A B} (c : M V F A) (k : A -> M V F B) : M V F B :=
  fun s => match c s with
           | (Ok a, s') => k a s'
           | (Raise e, s') => (Raise e, s')
           end.

Notation "'do' x <~ c ;> k" := (bind c (fun x => k))
  (at level 10, x name, c at level 99, k at level 200, only parsing).

Fixpoint assoc {A : Type} (k : string) (l : list (string * A)) : option A :=
  match l with
  | [] => None
  | (k', a) :: l' => if decide (k = k') then Some a else assoc k l'
  end.

(** dict update: the key keeps its place when it is already there. *)
Fixpoint assoc_set {A : Type} (k : string) (a : A) (l : list (string * A))
  : list (string * A) :=
  match l with
  | [] => [(k, a)]
  | (k', a') :: l' =>
      if decide (k = k') then (k', a) :: l' else (k', a') :: assoc_set k a l'
  end.

(** [d.pop(k)] on a dict that has the key: the entry is removed. *)
Fixpoint assoc_del {A : Type} (k : string) (l : list (string * A))
  : list (string * A) :=
  match l with
  | [] => []
  | (k', a) :: l' =>
      if decide (k = k') then assoc_del k l' else (k', a) :: assoc_del k l'
  end.

(** [self._display_opts], as [layout] reads it with [get]. *)
Record display_opts := DisplayOpts {
  d_loc : option string;
  d_center : option bool
}.

(** [interactive.__init__] up to the call of the base [__init__]:
    [display_opts = {}]; for each name of [_display_opts] that is among
    [kwargs], [kwargs[dopt] = kwargs.pop(dopt)]; the keywords go on to
    the base [__init__] and [display_opts] becomes
    [self._display_opts]. *)
Definition interactive_init {K : Type} (kwargs : list (string * K))
  : list (string * K) * display_opts :=
  let display_opts := DisplayOpts None None in
  let kwargs :=
    foldl (fun kw dopt =>
             match assoc dopt kw with
             | Some v => assoc_set dopt v (assoc_del dopt kw)
             | None => kw
             end)
          kwargs ["loc"; "center"] in
  (kwargs, display_opts).

(** Whether one of [names] is among the keys of [l]. *)
Definition has_key {A : Type} (names : list string) (l : list (string * A))
  : bool :=
  existsb (fun kv => bool_decide (kv.1 ∈ names)) l.

(** The parameters the base [__init__] binds by name; the other
    keywords are its [**kwargs], which become [_kwargs]. *)
Definition init_params : list string :=
  ["operation"; "fn"; "depth"; "method"; "prev"; "_shared_obj"; "_current"].

Definition other_keywords {A : Type} (l : list (string * A))
  : list (string * A) :=
  filter (fun kv => kv.1 ∉ init_params) l.

Section Engine.
Context {V F : Type} {H : Host V F}.

#[local] Abbreviation M := (M V F).
#[local] Abbreviation node := (node V F).
#[local] Abbreviation store := (store V F).
#[local] Abbreviation operation := (operation V F).

Definition get_node (r : nat) : M node :=
  fun s => match nodes s !! r with
           | Some nd => (Ok nd, s)
           | None => (Raise BadRef, s)
           end.

Definition upd_node (r : nat) (f : node -> node) : M unit :=
  fun s => (Ok tt, Store (alter f r (nodes s)) (cells s) (owners s)
                         (watchers s) (log s)).

Definition set_dirty (b : bool) (nd : node) : node :=
  Node (n_fn nd) (n_shared nd) (n_wrapper nd) (n_method nd) (n_operation nd)
       (n_depth nd) (n_prev nd) (n_kwargs nd) b (n_current nd).

Definition set_current (v : V) (nd : node) : node :=
  Node (n_fn nd) (n_shared nd) (n_wrapper nd) (n_method nd) (n_operation nd)
       (n_depth nd) (n_prev nd) (n_kwargs nd) (n_dirty nd) v.

Definition set_method (m : option string) (nd : node) : node :=
  Node (n_fn nd) (n_shared nd) (n_wrapper nd) m (n_operation nd)
       (n_depth nd) (n_prev nd) (n_kwargs nd) (n_dirty nd) (n_current nd).

Definition set_shared (c : option nat) (nd : node) : node :=
  Node (n_fn nd) c (n_wrapper nd) (n_method nd) (n_operation nd)
       (n_depth nd) (n_prev nd) (n_kwargs nd) (n_dirty nd) (n_current nd).

Definition emit (e : event V F) : M unit :=
  fun s => (Ok tt, Store (nodes s) (cells s) (owners s) (watchers s)
                         (log s ++ [e])).

(** [getattr(owner, name)] for a parameter. *)
Definition param_value (o : nat) (x : string) : M V :=
  fun s => match owners s !! o with
           | Some ow => match assoc x (o_vals ow) with
                        | Some v => (Ok v, s)
                        | None => (Raise AttributeError, s)
                        end
           | None => (Raise BadRef, s)
           end.

Fixpoint param_values (ps : list (nat * string)) : M (list V) :=
  match ps with
  | [] => ret []
  | (o, x) :: ps' =>
      do v <~ param_value o x ;> do vs <~ param_values ps' ;> ret (v :: vs)
  end.

(** Modelled from the spec: [eval_function] of [panel.util], which is
    not among the sources; it reads the current values of the
    dependencies of a bound function and calls it.  The function made
    of a node drops these values and evaluates the node; [ev]
    evaluates a node. *)
Definition eval_function (ev : nat -> M V) (fn : producer F) : M V :=
  match fn with
  | PBind o x => param_value o x
  | PFunc f deps =>
      do vs <~ param_values deps ;>
      do _ <~ emit (EvFn f vs []) ;>
      lift (call_fn f vs [])
  | PNode q deps =>
      do _ <~ param_values deps ;>
      ev q
  end.

(** The setter of the [_obj] property. *)
Definition set_obj (r : nat) (v : V) : M unit :=
  do nd <~ get_node r ;>
  match n_shared nd with
  | None =>
      fun s => upd_node r (set_shared (Some (length (cells s))))
                 (Store (nodes s) (cells s ++ [v]) (owners s)
                        (watchers s) (log s))
  | Some c =>
      fun s => (Ok tt, Store (nodes s) (<[c := v]> (cells s)) (owners s)
                             (watchers s) (log s))
  end.

(** The getter of the [_obj] property. *)
Definition get_obj (ev : nat -> M V) (r : nat) : M V :=
  do nd <~ get_node r ;>
  do _ <~ match n_shared nd with
       | None => (do v <~ eval_function ev (n_fn nd) ;> set_obj r v)
       | Some _ => ret tt
       end ;>
  do nd' <~ get_node r ;>
  match n_shared nd' with
  | Some c => fun s => match cells s !! c with
                       | Some v => (Ok v, s)
                       | None => (Raise BadRef, s)
                       end
  | None => throw BadRef
  end.

(** ** Evaluation *)

(** Iterating over [operation['args']]: over a str, its characters. *)
Definition chars (s : string) : list (operand V) :=
  map (fun c => OVal (vstr (String c EmptyString))) (String.list_ascii_of_string s).

Definition args_items (a : arguments V) : list (operand V) :=
  match a with
  | ArgSeq l => l
  | ArgStr s => chars s
  end.

(** [if self._method:] *)
Definition method_set (m : option string) : option string :=
  match m with
  | Some EmptyString => None
  | other => other
  end.

(** [getattr(v, m, d)] *)
Definition getattr_default (v : V) (m : string) (d : V) : result V :=
  match py_getattr v m with
  | Raise AttributeError => Ok d
  | other => other
  end.

(** What [__getattribute__] does for a name that is not in [no_lookup],
    once the node is not dirty, when the name is not a public member of
    the wrapped value: it reads the pending accessor off [_current_]. *)
Definition touch_tail (r : nat) : M unit :=
  do nd <~ get_node r ;>
  match method_set (n_method nd) with
  | Some m => do _ <~ lift (py_getattr (n_current nd) m) ;> ret tt
  | None => ret tt
  end.

(** One operand of [_eval_operation].  [ev] evaluates a node. *)
Definition resolve_arg (ev : nat -> M V) (a : operand V) : M V :=
  match a with
  | OVal v => ret v
  | ONode r => ev r
  | OParam o x => param_value o x
  | OWidget o => param_value o "value"
  | other => ret (reify other)
  end.

Fixpoint resolve_args (ev : nat -> M V) (l : list (operand V)) : M (list V) :=
  match l with
  | [] => ret []
  | a :: l' =>
      do v <~ resolve_arg ev a ;>
      do vs <~ resolve_args ev l' ;>
      ret (v :: vs)
  end.

Fixpoint resolve_kwargs (ev : nat -> M V) (l : list (string * operand V))
  : M (list (string * V)) :=
  match l with
  | [] => ret []
  | (k, a) :: l' =>
      do v <~ resolve_arg ev a ;>
      do kvs <~ resolve_kwargs ev l' ;>
      ret ((k, v) :: kvs)
  end.

Definition apply_fn (fn : fnref F) (reverse : bool) (obj : V)
    (args : list V) (kwargs : list (string * V)) : M V :=
  match fn with
  | FnMethod name =>
      do _ <~ emit (EvMethod obj name args kwargs) ;>
      lift (call_method obj name args kwargs)
  | FnCall f =>
      if reverse then
        match args with
        | [] => throw IndexError
        | a :: rest =>
            do _ <~ emit (EvFn f (a :: obj :: rest) kwargs) ;>
            lift (call_fn f (a :: obj :: rest) kwargs)
        end
      else
        do _ <~ emit (EvFn f (obj :: args) kwargs) ;>
        lift (call_fn f (obj :: args) kwargs)
  end.

Definition eval_operation_with (ev : nat -> M V) (obj : V) (op : operation)
  : M V :=
  do resolved_args <~ resolve_args ev (args_items (op_args op)) ;>
  do resolved_kwargs <~ resolve_kwargs ev (op_kwargs op) ;>
  apply_fn (op_fn op) (op_reverse op) obj resolved_args resolved_kwargs.

Fixpoint eval (n : nat) (r : nat) {struct n} : M V :=
  match n with
  | 0 => throw OutOfFuel
  | S n' =>
      do nd <~ get_node r ;>
      if negb (n_dirty nd) then
        do _ <~ touch_tail r ;>                  (* return self._current_ *)
        ret (n_current nd)
      else
        do obj <~ match n_prev nd with
                  | None => get_obj (eval n') r
                  | Some p => eval n' p
                  end ;>
        do nd1 <~ get_node r ;>
        do obj <~ match n_operation nd1 with
                  | Some op => eval_operation_with (eval n') obj op
                  | None => ret obj
                  end ;>
        do _ <~ upd_node r (set_current obj) ;>
        do _ <~ upd_node r (set_dirty false) ;>
        do nd2 <~ get_node r ;>
        do obj <~ match method_set (n_method nd2) with
                  | Some m => lift (getattr_default obj m obj)
                  | None => ret obj
                  end ;>
        do _ <~ (if is_callable obj then touch_tail r else ret tt) ;>
        ret obj
  end.

Definition _eval_operation (n : nat) (obj : V) (op : operation) : M V :=
  eval_operation_with (eval n) obj op.

(** [__getattribute__] for a name outside [no_lookup] that belongs to
    the node itself ([_clone], [_depth], [_wrapper], ...): evaluate when
    dirty, read the pending accessor, then look the name up as usual. *)
Definition touch (n : nat) (r : nat) : M unit :=
  do nd <~ get_node r ;>
  do _ <~ (if n_dirty nd then do _ <~ eval n r ;> ret tt else ret tt) ;>
  touch_tail r.

(** The [_current] property. *)
Definition _current (n : nat) (r : nat) : M V :=
  do _ <~ touch n r ;>
  do nd <~ get_node r ;>
  do _ <~ (if n_dirty nd then do _ <~ eval n r ;> ret tt else ret tt) ;>
  do _ <~ touch n r ;>
  do nd' <~ get_node r ;>
  ret (n_current nd').

(** ** Dependencies *)

(** The [_fn_params] property: the parameters [_fn] declares. *)
Definition fn_params (fn : producer F) : list (nat * string) :=
  match fn with
  | PBind o x => [(o, x)]
  | PFunc _ deps => deps
  | PNode _ deps => deps
  end.

(** [for p in qs: if p not in ps: ps.append(p)] *)
Fixpoint merge_params (ps qs : list (nat * string)) : list (nat * string) :=
  match qs with
  | [] => ps
  | q :: qs' =>
      merge_params (if decide (q ∈ ps) then ps else ps ++ [q]) qs'
  end.

(** Modelled from the spec: [transform_dependency] of [panel.depends],
    which is not among the sources; a widget stands for its [value]
    parameter, a parameter for itself. *)
Definition operand_param (a : operand V) : option (nat * string) :=
  match a with
  | OParam o x => Some (o, x)
  | OWidget o => Some (o, "value")
  | _ => None
  end.

(** The walk over the previous nodes in [_params]; [rec] is the
    [_params] of a node. *)
Fixpoint params_walk (rec : nat -> M (list (nat * string))) (k : nat)
    (prev : option nat) (ps : list (nat * string))
  : M (list (nat * string)) :=
  match prev with
  | None => ret ps
  | Some p =>
      match k with
      | 0 => throw OutOfFuel
      | S k' =>
          do qs <~ rec p ;>
          do nd <~ get_node p ;>
          params_walk rec k' (n_prev nd) (merge_params ps qs)
      end
  end.

Fixpoint params_args (rec : nat -> M (list (nat * string)))
    (args : list (operand V)) (ps : list (nat * string))
  : M (list (nat * string)) :=
  match args with
  | [] => ret ps
  | ONode a :: args' =>
      do qs <~ rec a ;> params_args rec args' (merge_params ps qs)
  | arg :: args' =>
      match operand_param arg with
      | Some q => params_args rec args' (merge_params ps [q])
      | None => params_args rec args' ps
      end
  end.

Fixpoint params_kwargs (rec : nat -> M (list (nat * string)))
    (kwargs : list (string * operand V)) (ps : list (nat * string))
  : M (list (nat * string)) :=
  match kwargs with
  | [] => ret ps
  | (_, ONode a) :: kwargs' =>
      do qs <~ rec a ;> params_kwargs rec kwargs' (merge_params ps qs)
  | (k, arg) :: kwargs' =>
      match operand_param arg with
      | Some q =>
          if decide (k = "ax") then params_kwargs rec kwargs' ps
          else params_kwargs rec kwargs' (merge_params ps [q])
      | None => params_kwargs rec kwargs' ps
      end
  end.

(** The [_params] property, read as [r._params]. *)
Fixpoint _params (n : nat) (r : nat) {struct n} : M (list (nat * string)) :=
  match n with
  | 0 => throw OutOfFuel
  | S n' =>
      do _ <~ touch n r ;>                       (* r._params *)
      do _ <~ touch n r ;>                       (* self._fn_params *)
      do nd <~ get_node r ;>
      do ps <~ params_walk (_params n') n' (n_prev nd) (fn_params (n_fn nd)) ;>
      do nd' <~ get_node r ;>
      match n_operation nd' with
      | None => ret ps
      | Some op =>
          do ps <~ params_args (_params n') (args_items (op_args op)) ps ;>
          params_kwargs (_params n') (op_kwargs op) ps
      end
  end.

(** ** Watchers *)

(** Modelled from the spec: [full_groupby] of [panel.util], which is
    not among the sources, keyed by the owner: one group per owner, in
    the order the owners are first seen. *)
Fixpoint group_add (o : nat) (x : string) (gs : list (nat * list string))
  : list (nat * list string) :=
  match gs with
  | [] => [(o, [x])]
  | (o', xs) :: gs' =>
      if decide (o = o') then (o', xs ++ [x]) :: gs'
      else (o', xs) :: group_add o x gs'
  end.

Definition group_by_owner (ps : list (nat * string))
  : list (nat * list string) :=
  foldl (fun gs p => group_add p.1 p.2 gs) [] ps.

Definition add_watcher (w : watcher) : M unit :=
  fun s => (Ok tt, Store (nodes s) (cells s) (owners s) (watchers s ++ [w])
                         (log s)).

(** [for _, params in groups: owner.param.watch(self.cb, names)] *)
Fixpoint watch_all (n : nat) (r : nat) (cb : callback)
    (gs : list (nat * list string)) : M unit :=
  match gs with
  | [] => ret tt
  | (o, xs) :: gs' =>
      do _ <~ touch n r ;>                       (* self._update_obj, ... *)
      do _ <~ add_watcher (Watcher o xs cb) ;>
      watch_all n r cb gs'
  end.

Definition _setup_invalidations (n : nat) (r : nat) (depth : nat) : M unit :=
  do nd <~ get_node r ;>
  do _ <~ (if decide (depth = 0) then
             do _ <~ touch n r ;>                (* self._fn_params *)
             watch_all n r (CbUpdateObj r) (group_by_owner (fn_params (n_fn nd)))
           else ret tt) ;>
  do ps <~ _params n r ;>
  watch_all n r (CbInvalidate r) (group_by_owner ps).

(** ** Construction *)

Definition alloc_node (nd : node) : M nat :=
  fun s => (Ok (length (nodes s)),
            Store (nodes s ++ [nd]) (cells s) (owners s) (watchers s) (log s)).

Definition alloc_owner (o : owner V) : M nat :=
  fun s => (Ok (length (owners s)),
            Store (nodes s) (cells s) (owners s ++ [o]) (watchers s) (log s)).

Definition alloc_cell (v : V) : M nat :=
  fun s => (Ok (length (cells s)),
            Store (nodes s) (cells s ++ [v]) (owners s) (watchers s) (log s)).

(** [__init__], once [__new__] has set [_fn], [_shared_obj] and
    [_wrapper]: the node starts dirty with [_current_ = None]; reading
    [self._setup_invalidations] already goes through
    [__getattribute__]. *)
Definition __init__ (n : nat) (nd : node) : M nat :=
  do r <~ alloc_node (set_current vnone (set_dirty true nd)) ;>
  do _ <~ touch n r ;>                           (* self._setup_invalidations *)
  do _ <~ _setup_invalidations n r (n_depth nd) ;>
  ret r.

(** [dict(d, **kwargs)] *)
Definition dict_update {A : Type} (d kwargs : list (string * A))
  : list (string * A) :=
  foldl (fun acc kv => assoc_set kv.1 kv.2 acc) d kwargs.

(** [try: c finally: f] *)
Definition try_finally {A : Type} (c : M A) (f : M unit) : M A :=
  fun s => match c s with
           | (res, s') => match f s' with
                          | (Ok _, s'') => (res, s'')
                          | (Raise e, s'') => (Raise e, s'')
                          end
           end.

(** [bool(a)] for an argument: a node, a parameter, a widget and a
    slice are true, a container is true when it is not empty. *)
Definition operand_truthy (a : operand V) : bool :=
  match a with
  | OVal v => truthy v
  | ONode _ | OParam _ _ | OWidget _ | OSlice _ _ _ => true
  | OList l | OTuple l => negb (bool_decide (l = []))
  | ODict l => negb (bool_decide (l = []))
  end.

Definition kw_truthy (k : kwval V) : bool :=
  match k with
  | KWrapper w => bool_decide (is_Some w)
  | KArg a => operand_truthy a
  end.

(** The [method] keyword of a clone that is no copy, as [__init__]
    stores it in [_method]: [None] or a string.  A value of another
    type has no counterpart in [n_method]. *)
Definition method_of_keyword (kwargs : list (string * kwval V))
  : result (option string) :=
  match assoc "method" kwargs with
  | None => Ok None
  | Some (KArg (OVal v)) =>
      if is_none v then Ok None
      else match as_str v with
           | Some s => Ok (Some s)
           | None => Raise NotEmbedded
           end
  | Some _ => Raise NotEmbedded
  end.

(** [kwargs.get('fn')] in [__new__], for a clone that is no copy. *)
Definition fn_given (kwargs : list (string * kwval V)) : bool :=
  match assoc "fn" kwargs with
  | Some k => kw_truthy k
  | None => false
  end.

(** [_method] of a clone that is no copy. *)
Definition clone_method (kwargs : list (string * kwval V)) : option string :=
  match method_of_keyword kwargs with
  | Ok m => m
  | Raise _ => None
  end.

(** [_kwargs] of the node [_clone] builds from node [nd]: the keywords
    of [nd], updated with the [wrapper] of a copy and with the keywords
    of the caller, less those [__init__] binds to a parameter of its
    own, in the order [interactive.__init__] leaves them in. *)
Definition clone_kwargs (copy : bool) (nd : node)
    (kwargs : list (string * kwval V)) : list (string * kwval V) :=
  (interactive_init
     (other_keywords
        (dict_update (n_kwargs nd)
           (if copy then ("wrapper", KWrapper (n_wrapper nd)) :: kwargs
            else kwargs)))).1.

(** [_clone(operation, copy, **kwargs)], through [interactive._clone]
    to the base [_clone], the class call, [__new__] and the two
    [__init__].  With [copy] the new node takes over the state of [r]
    (accessor, previous node, producer, wrapper); without, it chains
    from [r], and [__new__], given no [fn], wraps the current root value
    in a [Wrapper] of its own.  A keyword given twice is a [TypeError],
    raised where Python binds it: the parameters of [_clone] at the
    call, the keywords [dict(...)] is given when the dict is built, the
    parameters the class call names ([depth], [_shared_obj]) and the
    first parameters of [__new__] and [__init__] at the class call.
    [_kwargs] never holds a parameter of [__init__], which binds them,
    so these are keywords of the caller.  A true [fn] keyword on a
    clone that is no copy would be the producer of the new node: no
    [producer] stands for it. *)
Definition _clone (n : nat) (r : nat) (operation : option operation)
    (copy : bool) (kwargs : list (string * kwval V)) : M nat :=
  if has_key ["self"; "operation"; "copy"] kwargs then throw TypeError else
  do nd0 <~ get_node r ;>
  let operation := match operation with
                   | Some op => Some op
                   | None => n_operation nd0
                   end in
  do _ <~ touch n r ;>                           (* self._depth *)
  do nd1 <~ get_node r ;>
  let depth := n_depth nd1 + 1 in
  do _ <~ touch n r ;>                           (* self._kwargs *)
  do _ <~ (if copy then
             do _ <~ _current n r ;>             (* _current=self._current *)
             touch n r                           (* wrapper=self._wrapper *)
           else ret tt) ;>
  do nd <~ get_node r ;>
  if has_key (if copy then ["_current"; "method"; "fn"; "prev"; "wrapper"]
              else ["prev"]) kwargs
  then throw TypeError else
  let prev := if copy then n_prev nd else Some r in
  let kw := clone_kwargs copy nd kwargs in
  do _ <~ match prev with
          | Some p => touch n p                  (* print(..., prev._wrapper) *)
          | None => ret tt
          end ;>
  do obj <~ get_obj (eval n) r ;>
  do nd2 <~ get_node r ;>
  if has_key ["depth"; "_shared_obj"; "obj"; "cls"] kwargs
  then throw TypeError else
  do method <~ (if copy then ret (n_method nd)
                else lift (method_of_keyword kwargs)) ;>
  do fw <~ (if copy then ret (n_fn nd, n_wrapper nd)
            else if fn_given kwargs then throw NotEmbedded
            else
              do w <~ alloc_owner (Owner false [("object", obj)]) ;>
              ret (PBind w "object", Some w)) ;>
  __init__ n (Node fw.1 (n_shared nd2) fw.2 method
                   operation depth prev kw true vnone).

Definition _resolve_accessor (n : nat) (r : nat) : M nat :=
  do nd <~ get_node r ;>
  match method_set (n_method nd) with
  | None =>
      do _ <~ touch n r ;>                       (* self._clone *)
      _clone n r None true []
  | Some _ =>
      match n_method nd with
      | Some m =>
          let operation := Operation (FnCall op_getitem) (ArgStr m) [] false in
          try_finally
            (do _ <~ touch n r ;>                (* self._clone *)
             _clone n r (Some operation) false [])
            (upd_node r (set_method None))
      | None => throw BadRef
      end
  end.

(** [no_lookup] in [__getattribute__]. *)
Definition no_lookup : list string :=
  ["eval"; "_dirty"; "_prev"; "_operation"; "_obj"; "_shared_obj";
   "_method"; "_eval_operation"; "_display_opts"; "_fn"].

(** The public names [super().__dir__()] lists for an [interactive]. *)
Definition own_public : list string :=
  ["eval"; "set"; "layout"; "output"; "panel"; "widgets"].

Inductive attr :=
  | Intercepted (new : nat)     (* a new node with the name pending *)
  | Ordinary.                   (* super().__getattribute__(name) *)

Definition __getattribute__ (n : nat) (r : nat) (name : string) : M attr :=
  if decide (name ∈ no_lookup) then ret Ordinary
  else
    do nd <~ get_node r ;>
    do _ <~ (if n_dirty nd then do _ <~ eval n r ;> ret tt else ret tt) ;>
    do nd1 <~ get_node r ;>
    do current <~ match method_set (n_method nd1) with
                  | Some m => lift (py_getattr (n_current nd1) m)
                  | None => ret (n_current nd1)
                  end ;>
    if decide (name ∈ pub_dir current ∧ name ∉ own_public) then
      do _ <~ touch n r ;>                       (* self._resolve_accessor *)
      do new <~ _resolve_accessor n r ;>
      do _ <~ upd_node new (set_method (Some name)) ;>
      ret (Intercepted new)
    else ret Ordinary.

(** [d[k]] for a dict argument with string keys. *)
Fixpoint dict_get (k : string) (l : list (operand V * operand V))
  : option (operand V) :=
  match l with
  | [] => None
  | (OVal v, a) :: l' =>
      if decide (as_str v = Some k) then Some a else dict_get k l'
  | _ :: l' => dict_get k l'
  end.

Fixpoint string_keys (l : list (operand V * operand V))
  : option (list (string * operand V)) :=
  match l with
  | [] => Some []
  | (OVal v, a) :: l' =>
      match as_str v, string_keys l' with
      | Some k, Some kw => Some ((k, a) :: kw)
      | _, _ => None
      end
  | _ => None
  end.

(** A true [operation] argument, as [_eval_operation] will read it: a
    dict with [fn] (a method name or a function), [args] (a sequence,
    or a string), [kwargs] (a dict with string keys) and [reverse]. *)
Definition as_operation (a : operand V) : option operation :=
  match a with
  | ODict l =>
      match dict_get "fn" l, dict_get "args" l,
            dict_get "kwargs" l, dict_get "reverse" l with
      | Some (OVal f), Some args, Some (ODict kw), Some (OVal rev) =>
          match (match as_str f with
                 | Some m => Some (FnMethod m)
                 | None => FnCall <$> as_fn f
                 end),
                (match args with
                 | OTuple l | OList l => Some (ArgSeq l)
                 | OVal v => ArgStr <$> as_str v
                 | _ => None
                 end),
                string_keys kw with
          | Some fn, Some args, Some kw =>
              Some (Operation fn args kw (truthy rev))
          | _, _, _ => None
          end
      | _, _, _, _ => None
      end
  | _ => None
  end.

(** The arguments [*args, **kwargs] of [self._clone], bound to the
    parameters [operation=None, copy=False, **kwargs]: more than two
    positional arguments, or a parameter given both by position and by
    keyword, is a [TypeError].  [operation or self._operation] and
    [if copy:] take the truth value of what was given.  A true
    [operation] that is no dict of the shape above has no counterpart
    in [n_operation]. *)
Definition clone_arguments (args : list (operand V))
    (kwargs : list (string * operand V))
  : result (option operation * bool * list (string * kwval V)) :=
  match args with
  | _ :: _ :: _ :: _ => Raise TypeError
  | _ =>
      if bool_decide (is_Some (args !! 0)) && has_key ["operation"] kwargs
         || bool_decide (is_Some (args !! 1)) && has_key ["copy"] kwargs
      then Raise TypeError
      else
        let operation := match args !! 0 with
                         | Some a => Some a
                         | None => assoc "operation" kwargs
                         end in
        let copy := match args !! 1 with
                    | Some a => Some a
                    | None => assoc "copy" kwargs
                    end in
        let rest := filter (fun kv => kv.1 ∉ ["operation"; "copy"]) kwargs in
        match (match operation with
               | Some a =>
                   if operand_truthy a then
                     match as_operation a with
                     | Some o => Ok (Some o)
                     | None => Raise NotEmbedded
                     end
                   else Ok None
               | None => Ok None
               end) with
        | Ok operation =>
            Ok (operation,
                match copy with Some a => operand_truthy a | None => false end,
                map (fun kv => (kv.1, KArg kv.2)) rest)
        | Raise e => Raise e
        end
  end.

(** [__call__] has the parameters [self, *args, **kwargs]: a keyword [self] is a
    [TypeError] at the call.  Without a pending accessor, on a node of
    depth 0, the arguments go to [_clone] as they are. *)
Definition __call__ (n : nat) (r : nat) (args : list (operand V))
    (kwargs : list (string * operand V)) : M nat :=
  if has_key ["self"] kwargs then throw TypeError else
  do nd <~ get_node r ;>
  match n_method nd with
  | None =>
      do _ <~ touch n r ;>                       (* self._depth *)
      do nd1 <~ get_node r ;>
      if decide (n_depth nd1 = 0) then
        do _ <~ touch n r ;>                     (* self._clone *)
        do a <~ lift (clone_arguments args kwargs) ;>
        _clone n r a.1.1 a.1.2 a.2
      else throw AttributeError
  | Some _ =>
      do _ <~ touch n r ;>                       (* self._clone *)
      do new <~ _clone n r None true [] ;>
      try_finally
        (do nd' <~ get_node new ;>
         match n_method nd' with
         | Some m =>
             let operation := Operation (FnMethod m) (ArgSeq args) kwargs false in
             do _ <~ touch n new ;>              (* new._clone *)
             _clone n new (Some operation) false []
         | None => throw BadRef
         end)
        (upd_node new (set_method None))
  end.

Definition _apply_operator (n : nat) (r : nat) (f : F)
    (args : list (operand V)) (reverse : bool)
    (kwargs : list (string * operand V)) : M nat :=
  do _ <~ touch n r ;>                           (* self._apply_operator *)
  do _ <~ touch n r ;>                           (* self._resolve_accessor *)
  do new <~ _resolve_accessor n r ;>
  let operation := Operation (FnCall f) (ArgSeq args) kwargs reverse in
  do _ <~ touch n new ;>                         (* new._clone *)
  _clone n new (Some operation) false [].

(** [__getitem__] *)
Definition __getitem__ (n : nat) (r : nat) (other : operand V) : M nat :=
  _apply_operator n r op_getitem [other] false [].

(** ** Parameters changing *)

(** [_invalidate_current] and [_update_obj]. *)
Definition run_callback (n : nat) (cb : callback) : M unit :=
  match cb with
  | CbInvalidate r => upd_node r (set_dirty true)
  | CbUpdateObj r =>
      do nd <~ get_node r ;>
      do v <~ eval_function (eval n) (n_fn nd) ;>
      set_obj r v
  end.

Fixpoint run_watchers (n : nat) (o : nat) (x : string) (ws : list watcher)
  : M unit :=
  match ws with
  | [] => ret tt
  | w :: ws' =>
      do _ <~ (if decide (w_owner w = o ∧ x ∈ w_names w)
               then run_callback n (w_cb w) else ret tt) ;>
      run_watchers n o x ws'
  end.

Definition write_param (o : nat) (x : string) (v : V) : M unit :=
  fun s => match owners s !! o with
           | Some ow =>
               (Ok tt, Store (nodes s) (cells s)
                             (<[o := Owner (o_widget ow) (assoc_set x v (o_vals ow))]>
                                (owners s))
                             (watchers s) (log s))
           | None => (Raise BadRef, s)
           end.

(** Modelled from the spec: setting a parameter of the reactive
    parameter system ([param], not among the sources): the value is
    stored, and when it changed, the watchers of that owner and name
    run at once, in the order they were registered. *)
Definition set_param (n : nat) (o : nat) (x : string) (v : V) : M unit :=
  do old <~ param_value o x ;>
  do _ <~ write_param o x v ;>
  if same_value old v then ret tt
  else fun s => run_watchers n o x (watchers s) s.

(** ** [set] *)

(** The body of [if prev._prev is None:] in [set]: the wrapper is read,
    and read again to assign its [object]. *)
Definition at_root (n : nat) (root : nat) (new : V) : M unit :=
  do _ <~ touch n root ;>                        (* prev._wrapper is None *)
  do nd <~ get_node root ;>
  match n_wrapper nd with
  | None => throw ValueError
  | Some _ =>
      do _ <~ touch n root ;>                    (* prev._wrapper.object = new *)
      do nd' <~ get_node root ;>
      match n_wrapper nd' with
      | Some w => set_param n w "object" new
      | None => throw BadRef
      end
  end.

Fixpoint set_walk (n : nat) (k : nat) (prev : option nat) (new : V) : M unit :=
  match prev with
  | None => ret tt
  | Some p =>
      match k with
      | 0 => throw OutOfFuel
      | S k' =>
          do _ <~ upd_node p (set_dirty true) ;>
          do nd <~ get_node p ;>
          do _ <~ match n_prev nd with
                  | None => at_root n p new
                  | Some _ => ret tt
                  end ;>
          do nd1 <~ get_node p ;>
          set_walk n k' (n_prev nd1) new
      end
  end.

(** [r.set(new)]: reading [r.set] goes through [__getattribute__]. *)
Definition set (n : nat) (r : nat) (new : V) : M nat :=
  do _ <~ touch n r ;>
  do _ <~ set_walk n n (Some r) new ;>
  ret r.

(** ** Widgets *)

Fixpoint flatten_element (a : operand V) : list (operand V) :=
  match a with
  | OList l | OTuple l =>
      (fix go (l : list (operand V)) : list (operand V) :=
         match l with
         | [] => []
         | x :: l' => flatten_element x ++ go l'
         end) l
  | ODict kvs =>
      (fix go (l : list (operand V * operand V)) : list (operand V) :=
         match l with
         | [] => []
         | (k, _) :: l' => flatten_element k ++ go l'
         end) kvs
  | _ => [a]
  end.

(** [_flatten]: iterating over a dict gives its keys. *)
Definition _flatten (line : list (operand V)) : list (operand V) :=
  flat_map flatten_element line.

Definition is_widget (ows : list (owner V)) (o : nat) : bool :=
  match ows !! o with
  | Some ow => o_widget ow
  | None => false
  end.

Definition add_new (ws : list nat) (w : nat) : list nat :=
  if decide (w ∈ ws) then ws else ws ++ [w].

(** [_find_widgets] on [op_args]; [k] bounds the nesting of slices. *)
Fixpoint find_widgets_in (k : nat) (ows : list (owner V))
    (op_args : list (operand V)) : list nat :=
  match k with
  | 0 => []
  | S k' =>
      foldl (fun widgets op_arg =>
               match op_arg with
               | OWidget o =>
                   if is_widget ows o then add_new widgets o else widgets
               | OParam o _ =>
                   if is_widget ows o then add_new widgets o else widgets
               | OSlice start stop step =>
                   foldl add_new widgets
                         (find_widgets_in k' ows [start; stop; step])
               | _ => widgets
               end)
            [] (_flatten op_args)
  end.

Fixpoint operand_size (a : operand V) : nat :=
  match a with
  | OSlice a b c => S (operand_size a + operand_size b + operand_size c)
  | OList l | OTuple l =>
      S ((fix go (l : list (operand V)) : nat :=
            match l with
            | [] => 0
            | x :: l' => operand_size x + go l'
            end) l)
  | ODict kvs =>
      S ((fix go (l : list (operand V * operand V)) : nat :=
            match l with
            | [] => 0
            | (k, v) :: l' => operand_size k + operand_size v + go l'
            end) kvs)
  | _ => 1
  end.

Definition _find_widgets (ows : list (owner V)) (op : operation) : list nat :=
  let op_args := args_items (op_args op) ++ map snd (op_kwargs op) in
  find_widgets_in (S (list_sum (map operand_size op_args))) ows op_args.

Fixpoint widgets_walk (k : nat) (prev : option nat) (widgets : list nat)
  : M (list nat) :=
  match prev with
  | None => ret widgets
  | Some p =>
      match k with
      | 0 => throw OutOfFuel
      | S k' =>
          do nd <~ get_node p ;>
          do widgets <~ match n_operation nd with
                        | Some op =>
                            fun s => (Ok (foldl add_new widgets
                                            (_find_widgets (owners s) op)), s)
                        | None => ret widgets
                        end ;>
          widgets_walk k' (n_prev nd) widgets
      end
  end.

(** [r.widgets()]: the widgets put in the [Column]. *)
Definition widgets (n : nat) (r : nat) : M (list nat) :=
  do _ <~ touch n r ;>                           (* r.widgets *)
  do _ <~ touch n r ;>                           (* self._fn_params *)
  do nd <~ get_node r ;>
  do ws <~ (fun s => (Ok (foldl (fun ws p =>
                                   if is_widget (owners s) p.1
                                   then add_new ws p.1 else ws)
                                [] (fn_params (n_fn nd))), s)) ;>
  widgets_walk n (Some r) ws.

(** ** Roots *)

(** What [interactive(obj)] is given: a plain value, a parameter, a
    widget, a function or method, or a node. *)
Inductive root_obj :=
  | RConst (v : V)
  | RParam (o : nat) (x : string)
  | RWidget (o : nat)
  | RFunc (f : F) (deps : list (nat * string))
  | RNode (q : nat).

(** [__new__] and [__init__] for [interactive(obj)].  A node given as
    [obj] is first turned into a function by [transform_dependency],
    which reads its [_params]; [__init__], given the node itself and no
    [prev], makes it the previous node. *)
Definition interactive (n : nat) (obj : root_obj) : M nat :=
  do fow <~ match obj with
            | RNode q =>
                do ps <~ _params n q ;>
                ret (PNode q ps, None, None)
            | RConst v =>
                do w <~ alloc_owner (Owner false [("object", v)]) ;>
                ret (PBind w "object", Some v, Some w)
            | RParam o x =>
                do v <~ param_value o x ;>
                ret (PBind o x, Some v, None)
            | RWidget o =>
                do v <~ param_value o "value" ;>
                ret (PBind o "value", Some v, None)
            | RFunc f deps => ret (PFunc f deps, None, None)
            end ;>
  do shared <~ match fow.1.2 with
               | Some v =>
                   if is_none v then ret None
                   else do c <~ alloc_cell v ;> ret (Some c)
               | None => ret None
               end ;>
  let prev := match obj with
              | RNode q => Some q
              | _ => None
              end in
  __init__ n (Node fow.1.1 shared fow.2 None None 0 prev [] true vnone).

End Engine.

(** ** A host: the Python values of the examples

    [None], integers, booleans, strings, and [PRecord], an instance of a
    class that keeps named entries and gives them both as attributes and
    as items:
<<
    class Record:
        def __init__(self, entries): self.__dict__.update(entries)
        def __getitem__(self, key): return self.__dict__[key]
        def head(self, n=5):
            return Record(dict(list(self.__dict__.items())[:n]))
>>
    The callables are those of the [operator] module, on the operands
    the examples give them; integers have the members [real], [imag],
    [numerator] and [denominator].  A missing member raises
    [AttributeError], a wrong arity or an unsupported operand
    [TypeError], a missing key [KeyError]. *)

Inductive pyval :=
  | PNone
  | PInt (z : Z)
  | PBool (b : bool)
  | PStr (s : string)
  | PRecord (entries : list (string * pyval))
  | PMethod (self : pyval) (name : string)   (* a bound method *)
  | PRaw.                                     (* a container operand *)

Inductive pyfn :=
  | op_add | op_sub | op_mul | op_gt | op_lshift | getitem.

Definition as_int (v : pyval) : option Z :=
  match v with
  | PInt z => Some z
  | PBool b => Some (if b then 1 else 0)%Z
  | _ => None
  end.

(** [Comparator.is_equal] of the parameter system: numbers, strings
    and [None] are compared; objects it knows no comparison for always
    count as changed. *)
Definition py_same_value (a b : pyval) : bool :=
  match a, b with
  | PNone, PNone => true
  | PStr x, PStr y => String.eqb x y
  | _, _ => match as_int a, as_int b with
            | Some x, Some y => Z.eqb x y
            | _, _ => false
            end
  end.

Definition arith (f : Z -> Z -> pyval) (args : list pyval)
    (kwargs : list (string * pyval)) : result pyval :=
  match args, kwargs with
  | [a; b], [] =>
      match as_int a, as_int b with
      | Some x, Some y => Ok (f x y)
      | _, _ => Raise TypeError
      end
  | _, _ => Raise TypeError
  end.

Definition py_call_fn (f : pyfn) (args : list pyval)
    (kwargs : list (string * pyval)) : result pyval :=
  match f with
  | op_add => arith (fun x y => PInt (x + y)) args kwargs
  | op_sub => arith (fun x y => PInt (x - y)) args kwargs
  | op_mul => arith (fun x y => PInt (x * y)) args kwargs
  | op_gt => arith (fun x y => PBool (Z.ltb y x)) args kwargs
  | op_lshift =>
      match args, kwargs with
      | [a; b], [] =>
          match as_int a, as_int b with
          | Some x, Some y =>
              if Z.ltb y 0 then Raise ValueError else Ok (PInt (Z.shiftl x y))
          | _, _ => Raise TypeError
          end
      | _, _ => Raise TypeError
      end
  | getitem =>
      match args, kwargs with
      | [PRecord es; PStr k], [] =>
          match assoc k es with
          | Some v => Ok v
          | None => Raise KeyError
          end
      | [PRecord _; _], [] => Raise KeyError
      | _, _ => Raise TypeError
      end
  end.

Definition py_pub_dir (v : pyval) : list string :=
  match v with
  | PRecord es => map fst es ++ ["head"]
  | PInt _ | PBool _ => ["real"; "imag"; "numerator"; "denominator"]
  | _ => []
  end.

Definition pyval_getattr (v : pyval) (name : string) : result pyval :=
  match v with
  | PRecord es =>
      match assoc name es with
      | Some x => Ok x
      | None => if decide (name = "head") then Ok (PMethod v "head")
                else Raise AttributeError
      end
  | PInt z =>
      if decide (name = "real") then Ok (PInt z)
      else if decide (name = "numerator") then Ok (PInt z)
      else if decide (name = "imag") then Ok (PInt 0)
      else if decide (name = "denominator") then Ok (PInt 1)
      else Raise AttributeError
  | PBool b =>
      if decide (name = "real") then Ok (PInt (if b then 1 else 0))
      else if decide (name = "numerator") then Ok (PInt (if b then 1 else 0))
      else if decide (name = "imag") then Ok (PInt 0)
      else if decide (name = "denominator") then Ok (PInt 1)
      else Raise AttributeError
  | _ => Raise AttributeError
  end.

Definition py_is_callable (v : pyval) : bool :=
  match v with
  | PMethod _ _ => true
  | _ => false
  end.

(** [list(d.items())[:k]]: the first [k] entries; all but the last
    [-k] for a negative [k]. *)
Definition record_head (es : list (string * pyval)) (k : Z)
  : list (string * pyval) :=
  if Z.leb 0 k then take (Z.to_nat k) es
  else take (length es - Z.to_nat (- k)) es.

Definition py_call_method (v : pyval) (name : string) (args : list pyval)
    (kwargs : list (string * pyval)) : result pyval :=
  match pyval_getattr v name with
  | Ok (PMethod (PRecord es) "head") =>
      match args, kwargs with
      | [], [] => Ok (PRecord (record_head es 5))
      | [PInt k], [] => Ok (PRecord (record_head es k))
      | _, _ => Raise TypeError
      end
  | Ok _ => Raise TypeError
  | Raise e => Raise e
  end.

#[global] Instance py_host : Host pyval pyfn := {
  vnone := PNone;
  is_none := fun v => match v with PNone => true | _ => false end;
  same_value := py_same_value;
  vstr := PStr;
  pub_dir := py_pub_dir;
  py_getattr := pyval_getattr;
  is_callable := py_is_callable;
  call_method := py_call_method;
  call_fn := py_call_fn;
  op_getitem := getitem;
  reify := fun _ => PRaw;
  truthy := fun v => match v with
                     | PNone => false
                     | PInt z => negb (z =? 0)%Z
                     | PBool b => b
                     | PStr s => negb (bool_decide (s = EmptyString))
                     | _ => true
                     end;
  as_str := fun v => match v with PStr s => Some s | _ => None end;
  as_fn := fun _ => None
}.

(** The empty store, and the recursion bound the examples run with. *)
Definition empty : store pyval pyfn := Store [] [] [] [] [].
Definition fuel : nat := 40.

(** ** The operators of [interactive_base] the examples use *)

Abbreviation node_op := (nat -> nat -> operand pyval -> M pyval pyfn nat).

Definition __add__ : node_op :=
  fun n r other => _apply_operator n r op_add [other] false [].
Definition __sub__ : node_op :=
  fun n r other => _apply_operator n r op_sub [other] false [].
Definition __mul__ : node_op :=
  fun n r other => _apply_operator n r op_mul [other] false [].
Definition __gt__ : node_op :=
  fun n r other => _apply_operator n r op_gt [other] false [].
Definition __lshift__ : node_op :=
  fun n r other => _apply_operator n r op_lshift [other] false [].
Definition __radd__ : node_op :=
  fun n r other => _apply_operator n r op_add [other] true [].
Definition __rsub__ : node_op :=
  fun n r other => _apply_operator n r op_sub [other] true [].
Definition __rmul__ : node_op :=
  fun n r other => _apply_operator n r op_mul [other] true [].

(** [__rlshift__] asks the [operator] module for [rlshift], which it
    does not have: once [self._apply_operator] is read, the argument
    raises. *)
Definition __rlshift__ : node_op :=
  fun n r other => do _ <~ touch n r ;> throw AttributeError.


(** ** Scenarios

    Programs over the engine, run from a given store. *)

Abbreviation prog := (M pyval pyfn).

(** [r.name], where the name is expected to be intercepted. *)
Definition attribute (n : nat) (r : nat) (name : string) : prog nat :=
  do a <~ __getattribute__ n r name ;>
  match a with
  | Intercepted new => ret new
  | Ordinary => throw NotEmbedded
  end.

Definition record1 : pyval := PRecord [("col", PInt 5); ("A", PInt 7)].
Definition record2 : pyval := PRecord [("col", PInt 9); ("A", PInt 11)].

(** [root = interactive(record1); (root.name > 1).eval()] *)
Definition accessor_then_operator (name : string) : prog pyval :=
  do root <~ interactive fuel (RConst record1) ;>
  do p <~ attribute fuel root name ;>
  do q <~ __gt__ fuel p (OVal (PInt 1)) ;>
  eval fuel q.

(** [root = interactive(record1); p = root.col; root.set(record2);
    (p.eval(), p.eval())] *)
Definition eval_twice_with_accessor : prog (pyval * pyval) :=
  do root <~ interactive fuel (RConst record1) ;>
  do p <~ attribute fuel root "col" ;>
  do _ <~ set fuel root record2 ;>
  do a <~ eval fuel p ;>
  do b <~ eval fuel p ;>
  ret (a, b).

(** [root = interactive(a); chain = root * b; x = chain.eval();
    root.set(c); (x, chain.eval())] *)
Definition set_then_eval (a b c : Z) : prog (pyval * pyval) :=
  do root <~ interactive fuel (RConst (PInt a)) ;>
  do chain <~ __mul__ fuel root (OVal (PInt b)) ;>
  do x <~ eval fuel chain ;>
  do _ <~ set fuel root (PInt c) ;>
  do y <~ eval fuel chain ;>
  ret (x, y).

(** Two chains from one root, built before the [set]:
    [root = interactive(a); c1 = root * b; c2 = root + d; root.set(c);
    (c1.eval(), c2.eval())] *)
Definition siblings_after_set (a b d c : Z) : prog (pyval * pyval) :=
  do root <~ interactive fuel (RConst (PInt a)) ;>
  do c1 <~ __mul__ fuel root (OVal (PInt b)) ;>
  do c2 <~ __add__ fuel root (OVal (PInt d)) ;>
  do _ <~ set fuel root (PInt c) ;>
  do x <~ eval fuel c1 ;>
  do y <~ eval fuel c2 ;>
  ret (x, y).

(** [expr = interactive(3); op(expr, 5).eval()] for an operator method
    [op] of the node. *)
Definition operator_with_5 (op : node_op) : prog pyval :=
  do expr <~ interactive fuel (RConst (PInt 3)) ;>
  do e <~ op fuel expr (OVal (PInt 5)) ;>
  eval fuel e.

(** [root = interactive(record1); root.head(1)], building only. *)
Definition build_head : prog nat :=
  do root <~ interactive fuel (RConst record1) ;>
  do p <~ attribute fuel root "head" ;>
  __call__ fuel p [OVal (PInt 1)] [].

(** [root.head(1)['col']], building only. *)
Definition build_head_getitem : prog nat :=
  do h <~ build_head ;>
  __getitem__ fuel h (OVal (PStr "col")).

(** A store with two widgets, owners 0 and 1, with values [3] and
    [record1]. *)
Definition two_widgets : store pyval pyfn :=
  Store [] [] [Owner true [("value", PInt 3)]; Owner true [("value", record1)]]
        [] [].

(** [a = interactive(widgetA); b = interactive(widgetB)['col'];
    e = a + b; (e.widgets(), a.widgets(), b.widgets())] *)
Definition widgets_of_sum : prog (list nat * list nat * list nat) :=
  do a <~ interactive fuel (RWidget 0) ;>
  do b0 <~ interactive fuel (RWidget 1) ;>
  do b <~ __getitem__ fuel b0 (OVal (PStr "col")) ;>
  do e <~ __add__ fuel a (ONode b) ;>
  do ws <~ widgets fuel e ;>
  do wa <~ widgets fuel a ;>
  do wb <~ widgets fuel b ;>
  ret (ws, wa, wb).

(** [root = interactive(3); chain = root * 2], building only. *)
Definition build_product : prog nat :=
  do root <~ interactive fuel (RConst (PInt 3)) ;>
  __mul__ fuel root (OVal (PInt 2)).

(** [root = interactive(record1); item = root['col']; root.set(3)]: the
    store in which [item], node 2, is dirty and its operator will
    raise. *)
Definition build_stale_item : prog nat :=
  do root <~ interactive fuel (RConst record1) ;>
  do item <~ __getitem__ fuel root (OVal (PStr "col")) ;>
  do _ <~ set fuel root (PInt 3) ;>
  ret item.

Definition stale_store : store pyval pyfn :=
  Eval vm_compute in (build_stale_item empty).2.

(** A store with one parameter [x] of an owner that is no widget, with
    value [record1]. *)
Definition one_parameter : store pyval pyfn :=
  Store [] [] [Owner false [("x", record1)]] [] [].

(** [root = interactive(owner.param.x); item = root['col'];
    owner.x = 3; item.set(record2)] *)
Definition set_on_stale_item : prog nat :=
  do root <~ interactive fuel (RParam 0 "x") ;>
  do item <~ __getitem__ fuel root (OVal (PStr "col")) ;>
  do _ <~ set_param fuel 0 "x" (PInt 3) ;>
  set fuel item record2.

Definition product_store : store pyval pyfn :=
  Eval vm_compute in (build_product empty).2.

(** [root = interactive(record1); item = root['col']; root.set(3);
    item()] *)
Definition call_stale_item : prog nat :=
  do item <~ build_stale_item ;>
  __call__ fuel item [] [].

Definition root_store : store pyval pyfn :=
  Eval vm_compute in (interactive fuel (RConst (PInt 3)) empty).2.

(** * Properties *)

(** ** What the operations leave alone *)

Section Relations.
Context {V F : Type}.

#[local] Abbreviation node := (node V F).
#[local] Abbreviation store := (store V F).

(** A node keeps its producer, wrapper, operation, depth, previous
    node and keywords, and its shared cell once it has one. *)
Record same_frame (nd nd' : node) : Prop := SameFrame {
  sf_fn : n_fn nd' = n_fn nd;
  sf_wrapper : n_wrapper nd' = n_wrapper nd;
  sf_operation : n_operation nd' = n_operation nd;
  sf_depth : n_depth nd' = n_depth nd;
  sf_prev : n_prev nd' = n_prev nd;
  sf_kwargs : n_kwargs nd' = n_kwargs nd;
  sf_shared : forall c, n_shared nd = Some c -> n_shared nd' = Some c
}.

(** The same, and the pending accessor is kept too: only the cache, the
    dirty flag and a first shared cell may differ. *)
Definition same_but_memo (nd nd' : node) : Prop :=
  same_frame nd nd' /\ n_method nd' = n_method nd.

(** [lifted Rl Rn s s']: the number of nodes is related by [Rl], and
    every node of [s] is still there in [s'], related by [Rn]. *)
Definition lifted (Rl : nat -> nat -> Prop) (Rn : node -> node -> Prop)
    (s s' : store) : Prop :=
  Rl (length (nodes s)) (length (nodes s')) /\
  forall r nd, nodes s !! r = Some nd ->
    exists nd', nodes s' !! r = Some nd' /\ Rn nd nd'.

(** [steps Rl Rn c]: whatever [c] returns or raises, it takes a store
    to a related one. *)
Definition steps (Rl : nat -> nat -> Prop) (Rn : node -> node -> Prop)
    {A : Type} (c : M V F A) : Prop :=
  forall s, lifted Rl Rn s (c s).2.

(** The relations the lemmas are proved for. *)
Class Stable (Rl : nat -> nat -> Prop) (Rn : node -> node -> Prop) : Prop := {
  st_len_refl : forall n, Rl n n;
  st_len_trans : forall a b c, Rl a b -> Rl b c -> Rl a c;
  st_refl : forall nd, Rn nd nd;
  st_trans : forall a b c, Rn a b -> Rn b c -> Rn a c;
  st_dirty : forall b nd, Rn nd (set_dirty b nd);
  st_current : forall v nd, Rn nd (set_current v nd);
  st_shared : forall c nd, n_shared nd = None -> Rn nd (set_shared (Some c) nd)
}.

(** Relations that allow a node to be added, and the accessor to
    change. *)
Class Growing (Rl : nat -> nat -> Prop) : Prop :=
  st_grow : forall n, Rl n (S n).

Class Renaming (Rn : node -> node -> Prop) : Prop :=
  st_method : forall m nd, Rn nd (set_method m nd).

(** No node is made, and no node changes but for its cache. *)
Definition quiet : store -> store -> Prop := lifted eq same_but_memo.

(** No node is made; accessors may change. *)
Definition settled : store -> store -> Prop := lifted eq same_frame.

(** Nodes may be made. *)
Definition ext : store -> store -> Prop := lifted le same_frame.

(** ** Depth and previous node *)

(** A node's previous node, when it has one, is there and is less deep,
    unless the node is a root made from that node, or a copy of such a
    root: these have the function made of that node as producer. *)
Definition prev_ok (s : store) (nd : node) : Prop :=
  match n_prev nd with
  | Some p => exists pd, nodes s !! p = Some pd /\
                (n_depth pd < n_depth nd \/ exists deps, n_fn nd = PNode p deps)
  | None => True
  end.

Definition depth_inv (s : store) : Prop :=
  forall r nd, nodes s !! r = Some nd -> prev_ok s nd.

(** [keeps P c]: [c] keeps [P], whether it returns or raises. *)
Definition keeps (P : store -> Prop) {A : Type} (c : M V F A) : Prop :=
  forall s, P s -> P (c s).2.

End Relations.

(** ** The node a root is made from *)

(** The previous node [__init__] gives a root: the node it is made
    from, when it is made from a node. *)
Definition root_prev {V F : Type} (obj : root_obj (V := V) (F := F))
  : option nat :=
  match obj with
  | RNode q => Some q
  | _ => None
  end.

(** ** The node a clone makes *)

(** The node [_clone] hands to [__init__], from the node [nd] it is
    called on, its arguments, and the producer and wrapper [__new__]
    settles on. *)
Definition cloned {V F : Type} {H : Host V F} (r : nat) (nd : node V F)
    (operation : option (operation V F)) (copy : bool)
    (kwargs : list (string * kwval V)) (fn : producer F) (w : option nat)
  : node V F :=
  Node fn (n_shared nd) w
       (if copy then n_method nd else clone_method kwargs)
       (match operation with
        | Some op => Some op
        | None => n_operation nd
        end)
       (n_depth nd + 1)
       (if copy then n_prev nd else Some r)
       (clone_kwargs copy nd kwargs)
       true vnone.

(** ** The operations that make nodes *)

Inductive making (V F : Type) :=
  | MakeRoot (obj : root_obj (V := V) (F := F))
  | MakeClone (r : nat) (operation : option (operation V F)) (copy : bool)
              (kwargs : list (string * kwval V))
  | MakeAttribute (r : nat) (name : string)
  | MakeCall (r : nat) (args : list (operand V))
             (kwargs : list (string * operand V))
  | MakeOperator (r : nat) (f : F) (args : list (operand V)) (reverse : bool)
                 (kwargs : list (string * operand V))
  | MakeIndex (r : nat) (other : operand V).
Arguments MakeRoot {V F} obj.
Arguments MakeClone {V F} r operation copy kwargs.
Arguments MakeAttribute {V F} r name.
Arguments MakeCall {V F} r args kwargs.
Arguments MakeOperator {V F} r f args reverse kwargs.
Arguments MakeIndex {V F} r other.

(** The store an operation leaves, whether it returns or raises. *)
Definition make {V F : Type} {H : Host V F} (n : nat) (m : making V F)
    (s : store V F) : store V F :=
  match m with
  | MakeRoot obj => (interactive n obj s).2
  | MakeClone r operation copy kwargs => (_clone n r operation copy kwargs s).2
  | MakeAttribute r name => (__getattribute__ n r name s).2
  | MakeCall r args kwargs => (__call__ n r args kwargs s).2
  | MakeOperator r f args reverse kwargs =>
      (_apply_operator n r f args reverse kwargs s).2
  | MakeIndex r other => (__getitem__ n r other s).2
  end.

(** The claim as it is written: a node without a previous node has
    depth 0. *)
Definition roots_at_depth_0 {V F : Type} (s : store V F) : Prop :=
  forall r nd, nodes s !! r = Some nd -> n_prev nd = None -> n_depth nd = 0.

(** The node an operation is applied to, and the node it returns. *)
Definition source {V F : Type} (m : making V F) : option nat :=
  match m with
  | MakeRoot _ => None
  | MakeClone r _ _ _ => Some r
  | MakeAttribute r _ => Some r
  | MakeCall r _ _ => Some r
  | MakeOperator r _ _ _ _ => Some r
  | MakeIndex r _ => Some r
  end.

Definition returned {A : Type} (x : result A) : option A :=
  match x with
  | Ok a => Some a
  | Raise _ => None
  end.

Definition made {V F : Type} {H : Host V F} (n : nat) (m : making V F)
    (s : store V F) : option nat :=
  match m with
  | MakeRoot obj => returned (interactive n obj s).1
  | MakeClone r operation copy kwargs =>
      returned (_clone n r operation copy kwargs s).1
  | MakeAttribute r name =>
      match (__getattribute__ n r name s).1 with
      | Ok (Intercepted new) => Some new
      | _ => None
      end
  | MakeCall r args kwargs => returned (__call__ n r args kwargs s).1
  | MakeOperator r f args reverse kwargs =>
      returned (_apply_operator n r f args reverse kwargs s).1
  | MakeIndex r other => returned (__getitem__ n r other s).1
  end.

(** ** The shared root *)

(** Two nodes hold the same one-slot list. *)
Definition same_cell {V F : Type} (s : store V F) (r r' : nat) : Prop :=
  exists nd nd' c,
    nodes s !! r = Some nd /\ nodes s !! r' = Some nd' /\
    n_shared nd = Some c /\ n_shared nd' = Some c.

(** ** Nodes refer to older nodes *)

Section Older.
Context {V F : Type} {H : Host V F}.

(** The nodes among the operands that [_eval_operation] evaluates. *)
Definition node_refs (l : list (operand V)) : list nat :=
  omap (fun a => match a with
                 | ONode r => Some r
                 | _ => None
                 end) l.

Definition op_refs (op : operation V F) : list nat :=
  node_refs (args_items (op_args op)) ++ node_refs (map snd (op_kwargs op)).

(** The node a producer evaluates. *)
Definition fn_refs (fn : producer F) : list nat :=
  match fn with
  | PNode q _ => [q]
  | _ => []
  end.

(** Every node was made after its previous node, after the nodes
    among its operands, and after the node it was made from. *)
Definition older (s : store V F) : Prop :=
  forall r nd, nodes s !! r = Some nd ->
    (forall p, n_prev nd = Some p -> p < r) /\
    (forall op a, n_operation nd = Some op -> a ∈ op_refs op -> a < r) /\
    (forall q, q ∈ fn_refs (n_fn nd) -> q < r).

(** From node [k] on, the cache and the dirty flag are as they were. *)
Definition untouched_from (k : nat) (s s' : store V F) : Prop :=
  forall i nd, k <= i -> nodes s !! i = Some nd ->
    exists nd', nodes s' !! i = Some nd' /\
                n_dirty nd' = n_dirty nd /\ n_current nd' = n_current nd.

(** [calm_when P k c]: run from a store of [older] nodes where [P]
    holds, [c] leaves the caches from [k] on alone. *)
Definition calm_when (P : store V F -> Prop) (k : nat) {A : Type}
    (c : M V F A) : Prop :=
  forall s, older s -> P s -> untouched_from k s (c s).2.

Definition calm (k : nat) {A : Type} (c : M V F A) : Prop :=
  calm_when (fun _ => True) k c.

End Older.

(** ** The walk of [set] *)

Section Walk.
Context {V F : Type} {H : Host V F}.

(** [walk s r path root]: following the previous nodes from [r] visits
    [path], which ends at [root], the node with no previous node. *)
Inductive walk (s : store V F) : nat -> list nat -> nat -> Prop :=
  | walk_root r nd :
      nodes s !! r = Some nd -> n_prev nd = None -> walk s r [r] r
  | walk_step r nd p path root :
      nodes s !! r = Some nd -> n_prev nd = Some p ->
      walk s p path root -> walk s r (r :: path) root.

(** [prev._dirty = True] for the nodes of a path, in order. *)
Definition mark_dirty (path : list nat) (s : store V F) : store V F :=
  foldl (fun s p => (upd_node p (set_dirty true) s).2) s path.

End Walk.

(** ** More scenarios *)

(** [root = interactive(3); chain = root * 2; root.set(4)]: the store in
    which [chain], node 2, is dirty again. *)
Definition build_reset_product : prog nat :=
  do chain <~ build_product ;>
  do _ <~ set fuel 0 (PInt 4) ;>
  ret chain.

Definition reset_product_store : store pyval pyfn :=
  Eval vm_compute in (build_reset_product empty).2.

(** [root = interactive(record1); p = root.A], building only: [p],
    node 1, has the accessor [A] pending. *)
Definition build_accessor : prog nat :=
  do root <~ interactive fuel (RConst record1) ;>
  attribute fuel root "A".

Definition accessor_store : store pyval pyfn :=
  Eval vm_compute in (build_accessor empty).2.

(** [root = interactive(record1); h = root.head], building only: [h],
    node 1, has the accessor [head] pending. *)
Definition build_head_accessor : prog nat :=
  do root <~ interactive fuel (RConst record1) ;>
  attribute fuel root "head".

Definition head_store : store pyval pyfn :=
  Eval vm_compute in (build_head_accessor empty).2.

(** ** Operands *)

(** [any(isinstance(element, tp) for tp in (list, tuple, dict))] *)
Definition is_container {V : Type} (a : operand V) : bool :=
  match a with
  | OList _ | OTuple _ | ODict _ => true
  | _ => false
  end.

(** [shows ows a o]: the widget [o] is to be seen in the operand [a]:
    [a] is the widget or one of its parameters, or a slice with it in
    a bound or in the step, or a list or a tuple with it in an element,
    or a dict with it in a key. *)
Inductive shows {V : Type} (ows : list (owner V)) : operand V -> nat -> Prop :=
  | shows_widget o : is_widget ows o = true -> shows ows (OWidget o) o
  | shows_param o x : is_widget ows o = true -> shows ows (OParam o x) o
  | shows_start a b c o : shows ows a o -> shows ows (OSlice a b c) o
  | shows_stop a b c o : shows ows b o -> shows ows (OSlice a b c) o
  | shows_step a b c o : shows ows c o -> shows ows (OSlice a b c) o
  | shows_list l a o : a ∈ l -> shows ows a o -> shows ows (OList l) o
  | shows_tuple l a o : a ∈ l -> shows ows a o -> shows ows (OTuple l) o
  | shows_dict l k v o : (k, v) ∈ l -> shows ows k o -> shows ows (ODict l) o.

(** What one element of the flattened operands adds in
    [_find_widgets]; [rec] is [_find_widgets] on the parts of a
    slice. *)
Definition found_in {V : Type} (rec : list (operand V) -> list nat)
    (ows : list (owner V)) (e : operand V) : list nat :=
  match e with
  | OWidget o | OParam o _ => if is_widget ows o then [o] else []
  | OSlice start stop step => rec [start; stop; step]
  | _ => []
  end.

(** [a = interactive(3); e = a + widgetA], building only: [e] is
    node 2, with the widget as its operand. *)
Definition build_widget_sum : prog nat :=
  do a <~ interactive fuel (RConst (PInt 3)) ;>
  __add__ fuel a (OWidget 0).

Definition two_widgets_sum : store pyval pyfn :=
  Eval vm_compute in (build_widget_sum two_widgets).2.

(** ** Parameters and watchers *)

(** The owners with their parameter values, and the watchers, are
    [ows] and [wts]. *)
Definition wired {V F : Type} (ows : list (owner V)) (wts : list watcher)
    (s : store V F) : Prop :=
  owners s = ows /\ watchers s = wts.

(** [a = interactive(3)] in the store with the two widgets. *)
Definition two_widgets_root : store pyval pyfn :=
  Eval vm_compute in (interactive fuel (RConst (PInt 3)) two_widgets).2.

(** ** Nodes among the operands of an operation that makes a node *)

(** The nodes among the operands of the operation a call gives as its
    [operation] argument. *)
Definition call_refs {V F : Type} {H : Host V F} (args : list (operand V))
    (kwargs : list (string * operand V)) : list nat :=
  match clone_arguments args kwargs with
  | Ok (Some op, _, _) => op_refs op
  | _ => []
  end.

Definition making_refs {V F : Type} {H : Host V F} (m : making V F) : list nat :=
  match m with
  | MakeRoot _ => []
  | MakeClone _ (Some op) _ _ => op_refs op
  | MakeClone _ None _ _ => []
  | MakeAttribute _ _ => []
  | MakeCall _ args kwargs =>
      node_refs args ++ node_refs (map snd kwargs) ++ call_refs args kwargs
  | MakeOperator _ _ args _ kwargs => node_refs args ++ node_refs (map snd kwargs)
  | MakeIndex _ other => node_refs [other]
  end.

(** The nodes are [older], and there are at least [B] of them. *)
Definition older_from {V F : Type} {H : Host V F} (B : nat) (s : store V F)
  : Prop :=
  older s /\ B <= length (nodes s).

(** ** Layout *)

(** [Row] or [Column]. *)
Inductive box := Row | Column.

(** The [align] of the widget box: a string, or a pair of strings. *)
Inductive align :=
  | Along (a : string)
  | Across (h v : string).

(** The [alignments] table of [layout]: the kind of box, the alignment
    of the widgets, and whether the widgets come first; [None] where the
    table has no entry. *)
Definition alignments (loc : string) : option (box * align * bool) :=
  if decide (loc = "left") then Some (Row, Across "start" "center", true)
  else if decide (loc = "right") then Some (Row, Across "end" "center", false)
  else if decide (loc = "top") then Some (Column, Across "center" "start", true)
  else if decide (loc = "bottom") then Some (Column, Across "center" "end", false)
  else if decide (loc = "top_left") then Some (Column, Along "start", true)
  else if decide (loc = "top_right") then Some (Column, Across "end" "start", true)
  else if decide (loc = "bottom_left") then Some (Column, Across "start" "end", false)
  else if decide (loc = "bottom_right") then Some (Column, Along "end", false)
  else if decide (loc = "left_top") then Some (Row, Along "start", true)
  else if decide (loc = "left_bottom") then Some (Row, Across "start" "end", true)
  else if decide (loc = "right_top") then Some (Row, Across "end" "start", false)
  else if decide (loc = "right_bottom") then Some (Row, Along "end", false)
  else None.

(** What [layout] puts in the [Row] it returns; [K] is the type of the
    [sizing_mode] keyword. *)
Inductive component (K : Type) :=
  | CWidgets (a : align)            (* widget_box, with its align set *)
  | CPanel                          (* the output *)
  | CSpacer                         (* HSpacer() *)
  | CBox (b : box) (items : list (component K)) (sizing_mode : option K).
Arguments CWidgets {K} a.
Arguments CPanel {K}.
Arguments CSpacer {K}.
Arguments CBox {K} b items sizing_mode.

(** [layout], once [widgets()] and [output()] have returned:
    [no_widgets] is [not len(widget_box)], [sizing_mode] is
    [kwargs.get('sizing_mode')]; the result is the components of the
    [Row] returned. *)
Definition arrange {K : Type} (opts : display_opts) (no_widgets : bool)
    (sizing_mode : option K) : result (list (component K)) :=
  let loc := default "left" (d_loc opts) in
  let center := default false (d_center opts) in
  match alignments loc with
  | None => Raise KeyError
  | Some (layout, align, widget_first) =>
      let widget_box := CWidgets align in
      if no_widgets then
        Ok (if center then [CSpacer; CPanel; CSpacer] else [CPanel])
      else
        let items := if widget_first then [widget_box; CPanel]
                     else [CPanel; widget_box] in
        if negb center then
          match layout with
          | Row => Ok items
          | Column => Ok [CBox Column items sizing_mode]
          end
        else
          match layout with
          | Column => Ok [CSpacer; CBox Column items sizing_mode; CSpacer]
          | Row =>
              if String.prefix "left" loc
              then Ok [widget_box; CSpacer; CPanel; CSpacer]
              else Ok [CSpacer; CPanel; CSpacer; widget_box]
          end
  end.

(** The components that are not boxes, boxes opened. *)
Fixpoint shown {K : Type} (c : component K) : list (component K) :=
  match c with
  | CBox _ items _ =>
      (fix go (l : list (component K)) : list (component K) :=
         match l with
         | [] => []
         | x :: l' => shown x ++ go l'
         end) items
  | _ => [c]
  end.

Definition is_panel {K : Type} (c : component K) : bool :=
  match c with
  | CPanel => true
  | _ => false
  end.

Definition is_widget_box {K : Type} (c : component K) : bool :=
  match c with
  | CWidgets _ => true
  | _ => false
  end.

(** ** Evaluated nodes *)

(** The node [r] is there and is not dirty. *)
Definition clean {V F : Type} (s : store V F) (r : nat) : Prop :=
  exists nd, nodes s !! r = Some nd /\ n_dirty nd = false.

(** * Lemmas *)

Section RelationFacts.
Context {V F : Type}.

#[local] Abbreviation node := (node V F).
#[local] Abbreviation store := (store V F).

Lemma same_frame_refl (nd : node) : same_frame nd nd.
Proof. by constructor. Qed.

Lemma same_frame_trans (nd1 nd2 nd3 : node) :
  same_frame nd1 nd2 -> same_frame nd2 nd3 -> same_frame nd1 nd3.
Proof. intros [] []; constructor; try congruence. eauto. Qed.

#[global] Instance stable_frame_le : Stable le (same_frame (V := V) (F := F)).
Proof.
  split; try (intros; lia); try by constructor.
  - apply same_frame_trans.
  - intros c nd Hc. constructor; try done. intros c'. rewrite Hc. done.
Qed.

#[global] Instance stable_frame_eq : Stable eq (same_frame (V := V) (F := F)).
Proof.
  split; try (intros; congruence); try by constructor.
  - apply same_frame_trans.
  - intros c nd Hc. constructor; try done. intros c'. rewrite Hc. done.
Qed.

#[global] Instance stable_memo_eq : Stable eq (same_but_memo (V := V) (F := F)).
Proof.
  split; try (intros; congruence); try (by repeat constructor).
  - intros a b c [] []. split; [by eapply same_frame_trans | congruence].
  - intros c nd Hc. split; [|done]. constructor; try done.
    intros c'. rewrite Hc. done.
Qed.

#[global] Instance stable_memo_le : Stable le (same_but_memo (V := V) (F := F)).
Proof.
  split; try (intros; lia); try (by repeat constructor).
  - intros a b c [] []. split; [by eapply same_frame_trans | congruence].
  - intros c nd Hc. split; [|done]. constructor; try done.
    intros c'. rewrite Hc. done.
Qed.

#[global] Instance growing_le : Growing le.
Proof. intros n. lia. Qed.

#[global] Instance renaming_frame : Renaming (same_frame (V := V) (F := F)).
Proof. intros m nd. by constructor. Qed.

Section Lifted.
Context (Rl : nat -> nat -> Prop) (Rn : node -> node -> Prop) `{!Stable Rl Rn}.

Lemma lifted_refl (s : store) : lifted Rl Rn s s.
Proof.
  split; [apply st_len_refl|]. intros r nd Hr. exists nd. split; [done | apply st_refl].
Qed.

Lemma lifted_trans (s1 s2 s3 : store) :
  lifted Rl Rn s1 s2 -> lifted Rl Rn s2 s3 -> lifted Rl Rn s1 s3.
Proof.
  intros [Hl12 H12] [Hl23 H23]. split; [by eapply st_len_trans|].
  intros r nd Hr.
  destruct (H12 r nd Hr) as (nd2 & Hr2 & Hf2).
  destruct (H23 r nd2 Hr2) as (nd3 & Hr3 & Hf3).
  exists nd3. split; [done | by eapply st_trans].
Qed.

Lemma lifted_same_nodes (s s' : store) : nodes s' = nodes s -> lifted Rl Rn s s'.
Proof.
  intros E. split; [rewrite E; apply st_len_refl|].
  intros r nd Hr. exists nd. rewrite E. split; [done | apply st_refl].
Qed.

Lemma lifted_alter (s s' : store) r (f : node -> node) :
  (forall nd, nodes s !! r = Some nd -> Rn nd (f nd)) ->
  nodes s' = alter f r (nodes s) -> lifted Rl Rn s s'.
Proof.
  intros Hf E. split; [rewrite E, length_alter; apply st_len_refl|].
  intros i nd Hi. rewrite E.
  destruct (decide (r = i)) as [->|Hne].
  - exists (f nd). rewrite list_lookup_alter_eq, Hi. split; [done | by apply Hf].
  - exists nd. rewrite list_lookup_alter_ne by done. split; [done | apply st_refl].
Qed.

End Lifted.

(** A weaker relation follows from a stronger one. *)
Lemma lifted_weaken (Rl Rl' : nat -> nat -> Prop) (Rn Rn' : node -> node -> Prop)
    (s s' : store) :
  (forall a b, Rl a b -> Rl' a b) -> (forall a b, Rn a b -> Rn' a b) ->
  lifted Rl Rn s s' -> lifted Rl' Rn' s s'.
Proof.
  intros Hl Hn [H1 H2]. split; [by apply Hl|].
  intros r nd Hr. destruct (H2 r nd Hr) as (nd' & ? & ?). exists nd'. eauto.
Qed.

Lemma quiet_settled (s s' : store) : quiet s s' -> settled s s'.
Proof. apply lifted_weaken; [done | by intros a b []]. Qed.

Lemma settled_ext (s s' : store) : settled s s' -> ext s s'.
Proof. apply lifted_weaken; [intros; lia | done]. Qed.

Lemma quiet_ext (s s' : store) : quiet s s' -> ext s s'.
Proof. intros. by apply settled_ext, quiet_settled. Qed.

End RelationFacts.

Section StepsBasic.
Context {V F : Type} {H : Host V F}.
Context (Rl : nat -> nat -> Prop) (Rn : node V F -> node V F -> Prop)
        `{!Stable Rl Rn}.

#[local] Abbreviation M := (M V F).
#[local] Abbreviation steps := (steps (V := V) (F := F) Rl Rn).

Lemma steps_ret {A} (a : A) : steps (ret a).
Proof. intros s. by apply lifted_refl. Qed.

Lemma steps_throw {A} e : steps (throw (A := A) e).
Proof. intros s. by apply lifted_refl. Qed.

Lemma steps_lift {A} (x : result A) : steps (lift x).
Proof. intros s. by apply lifted_refl. Qed.

Lemma steps_bind {A B} (c : M A) (k : A -> M B) :
  steps c -> (forall a, steps (k a)) -> steps (bind c k).
Proof.
  intros Hc Hk s. unfold bind. specialize (Hc s).
  destruct (c s) as [[a|e] s1]; simpl in *; [|done].
  eapply lifted_trans; [done | done | apply Hk].
Qed.

Lemma steps_get_node r : steps (get_node r).
Proof. intros s. unfold get_node. destruct (nodes s !! r); by apply lifted_refl. Qed.

Lemma steps_upd_node r (f : node V F -> node V F) :
  (forall nd, Rn nd (f nd)) -> steps (upd_node r f).
Proof. intros Hf s. eapply lifted_alter; [done | by intros | done]. Qed.

Lemma steps_set_dirty r b : steps (upd_node r (set_dirty b)).
Proof. apply steps_upd_node. apply st_dirty. Qed.

Lemma steps_set_current r v : steps (upd_node r (set_current v)).
Proof. apply steps_upd_node. apply st_current. Qed.

Lemma steps_set_method `{!Renaming Rn} r m : steps (upd_node r (set_method m)).
Proof. apply steps_upd_node. apply st_method. Qed.

Lemma steps_emit e : steps (emit e).
Proof. intros s. by apply lifted_same_nodes. Qed.

Lemma steps_param_value o x : steps (param_value o x).
Proof.
  intros s. unfold param_value.
  destruct (owners s !! o) as [ow|]; [destruct (assoc x (o_vals ow))|];
    by apply lifted_refl.
Qed.

Lemma steps_add_watcher w : steps (add_watcher w).
Proof. intros s. by apply lifted_same_nodes. Qed.

Lemma steps_alloc_owner o : steps (alloc_owner o).
Proof. intros s. by apply lifted_same_nodes. Qed.

Lemma steps_alloc_cell v : steps (alloc_cell v).
Proof. intros s. by apply lifted_same_nodes. Qed.

Lemma steps_write_param o x v : steps (write_param o x v).
Proof.
  intros s. unfold write_param. destruct (owners s !! o); [|by apply lifted_refl].
  by apply lifted_same_nodes.
Qed.

Lemma steps_alloc_node `{!Growing Rl} nd : steps (alloc_node nd).
Proof.
  intros s. split; simpl.
  - rewrite length_app. simpl. rewrite Nat.add_1_r. apply st_grow.
  - intros r x Hr. exists x. split; [by apply lookup_app_l_Some | apply st_refl].
Qed.

Lemma steps_set_obj r v : steps (set_obj r v).
Proof.
  intros s. unfold set_obj, bind, get_node.
  destruct (nodes s !! r) as [nd|] eqn:Hr; [|by apply lifted_refl].
  destruct (n_shared nd) as [c|] eqn:Hc; simpl.
  - by apply lifted_same_nodes.
  - eapply lifted_alter; [done | | done].
    intros nd' Hr'. simpl in Hr'. apply st_shared. congruence.
Qed.

Lemma steps_try_finally {A} (c : M A) (f : M unit) :
  steps c -> steps f -> steps (try_finally c f).
Proof.
  intros Hc Hf s. unfold try_finally. specialize (Hc s).
  destruct (c s) as [res s1]. specialize (Hf s1).
  destruct (f s1) as [[[]|e] s2]; simpl in *; by eapply lifted_trans.
Qed.

End StepsBasic.

Create HintDb mono discriminated.

#[global] Hint Extern 0 (Stable _ _) => exact _ : mono.
#[global] Hint Extern 0 (Growing _) => exact _ : mono.
#[global] Hint Extern 0 (Renaming _) => exact _ : mono.

Ltac mono_step :=
  lazymatch goal with
  | |- steps _ _ (bind _ _) => apply steps_bind; [exact _ | | intros ?]
  | |- steps _ _ (match ?x with _ => _ end) => destruct x
  | |- steps _ _ (let _ := _ in _) => cbv zeta
  | |- steps _ _ _ => solve [eauto with mono]
  end.

Ltac mono_tac := repeat mono_step.

#[global] Hint Resolve steps_ret steps_throw steps_lift steps_get_node
  steps_set_dirty steps_set_current steps_set_method steps_emit
  steps_param_value steps_add_watcher steps_alloc_owner steps_alloc_cell
  steps_write_param steps_alloc_node steps_set_obj : mono.

Section StepsOps.
Context {V F : Type} {H : Host V F}.
Context (Rl : nat -> nat -> Prop) (Rn : node V F -> node V F -> Prop)
        `{!Stable Rl Rn}.

#[local] Abbreviation M := (M V F).
#[local] Abbreviation steps := (steps (V := V) (F := F) Rl Rn).

Lemma steps_param_values ps : steps (param_values ps).
Proof. induction ps as [|[o x] ps IH]; simpl; mono_tac. Qed.
Hint Resolve steps_param_values : mono.

Lemma steps_touch_tail r : steps (touch_tail r).
Proof. unfold touch_tail. mono_tac. Qed.
Hint Resolve steps_touch_tail : mono.

Section WithEv.
Variable ev : nat -> M V.
Hypothesis steps_ev : forall r, steps (ev r).

Lemma steps_eval_function fn : steps (eval_function ev fn).
Proof. unfold eval_function. mono_tac. Qed.
Hint Resolve steps_eval_function : mono.

Lemma steps_get_obj r : steps (get_obj ev r).
Proof.
  unfold get_obj. mono_tac.
  intros s. destruct (cells s !! _); by apply lifted_refl.
Qed.
Hint Resolve steps_get_obj : mono.

Lemma steps_resolve_arg a : steps (resolve_arg ev a).
Proof. destruct a; simpl; mono_tac. Qed.
Hint Resolve steps_resolve_arg : mono.

Lemma steps_resolve_args l : steps (resolve_args ev l).
Proof. induction l; simpl; mono_tac. Qed.

Lemma steps_resolve_kwargs l : steps (resolve_kwargs ev l).
Proof. induction l as [|[k a] l IH]; simpl; mono_tac. Qed.

Lemma steps_apply_fn fn rev obj args kw : steps (apply_fn fn rev obj args kw).
Proof. unfold apply_fn. mono_tac. Qed.

Hint Resolve steps_resolve_args steps_resolve_kwargs steps_apply_fn : mono.

Lemma steps_eval_operation_with obj op : steps (eval_operation_with ev obj op).
Proof. unfold eval_operation_with. mono_tac. Qed.
End WithEv.
Hint Resolve steps_eval_operation_with steps_eval_function steps_get_obj : mono.

Lemma steps_eval n r : steps (eval n r).
Proof. revert r. induction n as [|n IH]; intros r; simpl; mono_tac. Qed.
Hint Resolve steps_eval : mono.

Lemma steps_touch n r : steps (touch n r).
Proof. unfold touch. mono_tac. Qed.
Hint Resolve steps_touch : mono.

Lemma steps_current n r : steps (_current n r).
Proof. unfold _current. mono_tac. Qed.
Hint Resolve steps_current : mono.

Section WithRec.
Variable rec : nat -> M (list (nat * string)).
Hypothesis steps_rec : forall r, steps (rec r).

Lemma steps_params_walk k prev ps : steps (params_walk rec k prev ps).
Proof.
  revert prev ps. induction k as [|k IH]; intros [p|] ps; simpl; mono_tac.
Qed.

Lemma steps_params_args args ps : steps (params_args rec args ps).
Proof.
  revert ps. induction args as [|a args IH]; intros ps; simpl; [mono_tac|].
  destruct a; simpl; mono_tac.
Qed.

Lemma steps_params_kwargs kw ps : steps (params_kwargs rec kw ps).
Proof.
  revert ps. induction kw as [|[k a] kw IH]; intros ps; simpl; [mono_tac|].
  destruct a; simpl; mono_tac.
Qed.
End WithRec.
Hint Resolve steps_params_walk steps_params_args steps_params_kwargs : mono.

Lemma steps_params n r : steps (_params n r).
Proof.
  revert r. induction n as [|n IH]; intros r; [simpl; mono_tac|].
  cbn [_params]. mono_tac.
Qed.
Hint Resolve steps_params : mono.

Lemma steps_watch_all n r cb gs : steps (watch_all n r cb gs).
Proof. induction gs as [|[o xs] gs IH]; simpl; mono_tac. Qed.
Hint Resolve steps_watch_all : mono.

Lemma steps_setup_invalidations n r depth : steps (_setup_invalidations n r depth).
Proof. unfold _setup_invalidations. mono_tac. Qed.
Hint Resolve steps_setup_invalidations : mono.

Lemma steps_run_callback n cb : steps (run_callback n cb).
Proof. unfold run_callback. mono_tac. Qed.
Hint Resolve steps_run_callback : mono.

Lemma steps_run_watchers n o x ws : steps (run_watchers n o x ws).
Proof. induction ws as [|w ws IH]; simpl; mono_tac. Qed.
Hint Resolve steps_run_watchers : mono.

Lemma steps_set_param n o x v : steps (set_param n o x v).
Proof. unfold set_param. mono_tac. intros s. apply steps_run_watchers. Qed.
Hint Resolve steps_set_param : mono.

Lemma steps_at_root n root new : steps (at_root n root new).
Proof. unfold at_root. mono_tac. Qed.
Hint Resolve steps_at_root : mono.

Lemma steps_set_walk n k prev new : steps (set_walk n k prev new).
Proof. revert prev. induction k as [|k IH]; intros [p|]; simpl; mono_tac. Qed.
Hint Resolve steps_set_walk : mono.

Lemma steps_set n r new : steps (set n r new).
Proof. unfold set. mono_tac. Qed.

Lemma steps_widgets_walk k prev ws : steps (widgets_walk k prev ws).
Proof.
  revert prev ws. induction k as [|k IH]; intros [p|] ws; simpl; mono_tac.
  intros s. by apply lifted_refl.
Qed.
Hint Resolve steps_widgets_walk : mono.

Lemma steps_widgets n r : steps (widgets n r).
Proof. unfold widgets. mono_tac. intros s. by apply lifted_refl. Qed.

Section Grow.
Context `{!Growing Rl}.

Lemma steps_init n nd : steps (__init__ n nd).
Proof. unfold __init__. mono_tac. Qed.
Hint Resolve steps_init : mono.

Lemma steps_clone n r op copy kw : steps (_clone n r op copy kw).
Proof. unfold _clone. mono_tac. Qed.
Hint Resolve steps_clone : mono.

Lemma steps_interactive n obj : steps (interactive n obj).
Proof. unfold interactive. mono_tac. Qed.

Context `{!Renaming Rn}.

Lemma steps_resolve_accessor n r : steps (_resolve_accessor n r).
Proof.
  unfold _resolve_accessor. mono_tac.
  apply steps_try_finally; [done | mono_tac | mono_tac].
Qed.
Hint Resolve steps_resolve_accessor : mono.

Lemma steps_getattribute n r name : steps (__getattribute__ n r name).
Proof. unfold __getattribute__. mono_tac. Qed.

Lemma steps_apply_operator n r f args rev kw :
  steps (_apply_operator n r f args rev kw).
Proof. unfold _apply_operator. mono_tac. Qed.

Lemma steps_call n r args kw : steps (__call__ n r args kw).
Proof.
  unfold __call__. mono_tac.
  apply steps_try_finally; [done | mono_tac | mono_tac].
Qed.

End Grow.

End StepsOps.

#[global] Hint Resolve steps_at_root steps_resolve_arg steps_resolve_args steps_resolve_kwargs
  steps_eval_operation_with steps_param_values steps_eval_function steps_get_obj steps_touch_tail steps_apply_fn steps_eval steps_touch steps_current steps_params steps_watch_all steps_setup_invalidations steps_run_callback steps_run_watchers steps_set_param steps_set_walk steps_set steps_widgets_walk steps_widgets steps_init steps_clone steps_interactive steps_resolve_accessor steps_getattribute steps_apply_operator steps_call
  steps_try_finally : mono.

(** ** What a construction does to the store *)

Section RunBasics.
Context {V F : Type} {H : Host V F}.

#[local] Abbreviation node := (node V F).
#[local] Abbreviation store := (store V F).

Lemma bind_run {A B} (c : M V F A) (k : A -> M V F B) s :
  bind c k s = match c s with
               | (Ok a, s') => k a s'
               | (Raise e, s') => (Raise e, s')
               end.
Proof. reflexivity. Qed.

Lemma quiet_refl (s : store) : quiet s s.
Proof. exact (lifted_refl _ _ s). Qed.

Lemma quiet_trans (s1 s2 s3 : store) : quiet s1 s2 -> quiet s2 s3 -> quiet s1 s3.
Proof. exact (lifted_trans _ _ s1 s2 s3). Qed.

Lemma quiet_lookup (s s' : store) r nd nd' :
  quiet s s' -> nodes s !! r = Some nd -> nodes s' !! r = Some nd' ->
  same_but_memo nd nd'.
Proof.
  intros [_ Hq] Hr Hr'. destruct (Hq r nd Hr) as (x & Hx & Hf). congruence.
Qed.

Lemma quiet_length (s s' : store) : quiet s s' -> length (nodes s') = length (nodes s).
Proof. by intros [-> _]. Qed.

(** [__init__] adds the node it is given, marked dirty, and then only
    fills caches. *)
Lemma init_run n (nd : node) (s : store) :
  quiet (alloc_node (set_current vnone (set_dirty true nd)) s).2
        (__init__ n nd s).2 /\
  ((__init__ n nd s).1 = Ok (length (nodes s)) \/
   exists e, (__init__ n nd s).1 = Raise e).
Proof.
  unfold __init__. rewrite bind_run.
  set (nd0 := set_current vnone (set_dirty true nd)).
  change (alloc_node nd0 s) with
    (Ok (length (nodes s)) : result nat, (alloc_node nd0 s).2).
  set (s1 := (alloc_node nd0 s).2). cbv iota.
  rewrite bind_run.
  pose proof (steps_touch eq same_but_memo n (length (nodes s)) s1) as Ht.
  destruct (touch n (length (nodes s)) s1) as [[[]|e] s2]; simpl in Ht;
    [|split; [done | right; by eexists]].
  rewrite bind_run.
  pose proof (steps_setup_invalidations eq same_but_memo n (length (nodes s))
                (n_depth nd) s2) as Hs.
  destruct (_setup_invalidations n (length (nodes s)) (n_depth nd) s2)
    as [[[]|e] s3]; simpl in Hs.
  - split; [exact (quiet_trans _ _ _ Ht Hs) | by left].
  - split; [exact (quiet_trans _ _ _ Ht Hs) | right; by eexists].
Qed.

End RunBasics.

(** Stepping through a run [H : c s = (res, s')]: a step that makes no
    node either raises, and the run stops there, or goes on from a store
    that is [quiet]-related to the one before, and so to the first. *)
Ltac hstep H :=
  rewrite bind_run in H;
  lazymatch type of H with
  | (match get_node ?r ?s with _ => _ end) = _ =>
      let nd := fresh "nd" in
      let Hr := fresh "Hr" in
      unfold get_node at 1 in H; destruct (nodes s !! r) as [nd|] eqn:Hr
  | (match ?c ?s with _ => _ end) = _ =>
      let Hs := fresh "Hs" in
      let Hq := fresh "Hq" in
      let Hstep := fresh "Hstep" in
      assert (Hs : steps eq same_but_memo c) by mono_tac;
      pose proof (Hs s : quiet s (c s).2) as Hstep; clear Hs;
      lazymatch goal with
      | Hacc : quiet ?s0 s |- _ =>
          pose proof (quiet_trans _ _ _ Hacc Hstep) as Hq
      end;
      let a := fresh "a" in
      let e := fresh "e" in
      let s' := fresh "s" in
      destruct (c s) as [[a|e] s'] eqn:?; simpl in Hq, Hstep
  end.

(** The same, without keeping track of the stores. *)
Ltac hstep_any H :=
  rewrite bind_run in H;
  lazymatch type of H with
  | (match ?c ?s with _ => _ end) = _ =>
      let a := fresh "a" in
      let e := fresh "e" in
      let s' := fresh "s" in
      destruct (c s) as [[a|e] s'] eqn:?
  end.

(** A keyword check that let the run go on. *)
Ltac key_step H :=
  lazymatch type of H with
  | (if has_key ?l ?k then _ else _) _ = _ =>
      destruct (has_key l k); [discriminate|]
  end.

(** Through a [_clone] that returns, up to its [__init__]. *)
Ltac clone_steps H :=
  unfold _clone in H; key_step H;
  do 3 (hstep_any H; [|discriminate]); cbv zeta in H;
  do 3 (hstep_any H; [|discriminate]); key_step H; cbv zeta in H;
  do 3 (hstep_any H; [|discriminate]); key_step H;
  do 2 (hstep_any H; [|discriminate]).

Ltac hraise H :=
  injection H as <- <-; left; eexists; split; [reflexivity | assumption].

Section Runs.
Context {V F : Type} {H : Host V F}.

#[local] Abbreviation node := (node V F).
#[local] Abbreviation store := (store V F).

(** After [r._obj] was read, [r] has a shared cell, and the value read
    is in it. *)
Lemma get_obj_shared ev r (s : store) v s' :
  get_obj ev r s = (Ok v, s') ->
  exists nd c, nodes s' !! r = Some nd /\ n_shared nd = Some c /\
               cells s' !! c = Some v.
Proof.
  unfold get_obj. rewrite bind_run. unfold get_node at 1.
  destruct (nodes s !! r) as [nd|] eqn:Hr; [|discriminate].
  rewrite bind_run.
  destruct (match n_shared nd with
            | Some _ => ret ()
            | None => bind (eval_function ev (n_fn nd)) (fun v => set_obj r v)
            end s) as [[[]|e] s1]; [|discriminate].
  rewrite bind_run. unfold get_node.
  destruct (nodes s1 !! r) as [nd1|] eqn:Hr1; [|discriminate].
  destruct (n_shared nd1) as [c|] eqn:Hc; [|discriminate].
  destruct (cells s1 !! c) as [x|] eqn:Hx; [|discriminate].
  intros [= -> ->]. eauto.
Qed.

Lemma clone_run n r op copy kw (s : store) res s' :
  _clone n r op copy kw s = (res, s') ->
  (exists e, res = Raise e /\ quiet s s') \/
  (exists s1 nd fn w,
      quiet s s1 /\ nodes s1 !! r = Some nd /\ is_Some (n_shared nd) /\
      (if copy then fn = n_fn nd /\ w = n_wrapper nd
       else exists o, fn = PBind o "object" /\ w = Some o) /\
      quiet (alloc_node (cloned r nd op copy kw fn w) s1).2 s' /\
      (res = Ok (length (nodes s)) \/ exists e, res = Raise e)).
Proof.
  intros Hrun. unfold _clone in Hrun.
  pose proof (quiet_refl s) as Hacc.
  destruct (has_key _ kw) in Hrun; [hraise Hrun|].
  hstep Hrun; [|hraise Hrun].
  hstep Hrun; [|hraise Hrun].
  hstep Hrun; [|hraise Hrun].
  cbv zeta in Hrun.
  hstep Hrun; [|hraise Hrun].
  hstep Hrun; [|hraise Hrun].
  hstep Hrun; [|hraise Hrun].
  destruct (has_key _ kw) in Hrun; [hraise Hrun|].
  hstep Hrun; [|hraise Hrun].
  hstep Hrun; [|hraise Hrun].
  hstep Hrun; [|hraise Hrun].
  destruct (has_key _ kw) in Hrun; [hraise Hrun|].
  hstep Hrun; [|hraise Hrun].
  hstep Hrun; [|hraise Hrun].
  pose proof (quiet_trans _ _ _ Hstep4 Hstep5) as Hs46.
  destruct (proj2 Hs46 r nd2 Hr2) as (nd5 & Hr5 & Hs45).
  destruct (get_obj_shared _ _ _ _ _ Heqp3) as (ndx & c & Hx & Hc & _).
  rewrite Hr2 in Hx. injection Hx as <-.
  pose proof (quiet_lookup _ _ _ _ _ Hq5 Hr Hr5) as [Hf0 Hm0].
  pose proof (quiet_lookup _ _ _ _ _
                (quiet_trans _ _ _ Hstep0
                   (quiet_trans _ _ _ Hstep1
                      (quiet_trans _ _ _ Hstep2
                         (quiet_trans _ _ _ Hstep3 Hs46)))) Hr0 Hr5)
    as [Hf1 Hm1].
  pose proof (quiet_lookup _ _ _ _ _
                (quiet_trans _ _ _ Hstep2 (quiet_trans _ _ _ Hstep3 Hs46))
                Hr1 Hr5) as [Hf2 Hm2].
  destruct Hs45 as [Hf4 Hm4].
  pose proof (sf_shared _ _ Hf4 c Hc) as Hc5.
  assert (a4 = if copy then n_method nd1 else clone_method kw) as ->.
  { destruct copy; [by injection Heqp4 as <- _|].
    unfold lift in Heqp4. unfold clone_method.
    injection Heqp4 as Hm _. by rewrite Hm. }
  lazymatch type of Hrun with
  | __init__ _ ?x _ = _ => destruct (init_run n x s6) as [Hinit Hres]
  end.
  rewrite Hrun in Hinit, Hres.
  simpl in Hinit, Hres.
  right. exists s6, nd5, a5.1, a5.2.
  split; [done|]. split; [done|]. split; [by eexists|]. split; [|split].
  - destruct copy.
    + injection Heqp5 as <- _. simpl.
      by rewrite (sf_fn _ _ Hf2), (sf_wrapper _ _ Hf2).
    + destruct (fn_given kw); [discriminate|].
      rewrite bind_run in Heqp5. unfold alloc_owner at 1 in Heqp5.
      cbv iota beta in Heqp5. injection Heqp5 as <- _. simpl. by eexists.
  - unfold cloned, clone_kwargs in *.
    rewrite Hc5, <- Hc, Hm2, (sf_operation _ _ Hf0), (sf_depth _ _ Hf1),
      (sf_prev _ _ Hf2), (sf_wrapper _ _ Hf2), (sf_kwargs _ _ Hf2).
    exact Hinit.
  - rewrite (quiet_length _ _ Hq5) in Hres. exact Hres.
Qed.

Lemma quiet_lookup_back (s s' : store) r nd' :
  quiet s s' -> nodes s' !! r = Some nd' ->
  exists nd, nodes s !! r = Some nd /\ same_but_memo nd nd'.
Proof.
  intros Hq Hr'.
  assert (is_Some (nodes s !! r)) as [nd Hr].
  { apply lookup_lt_is_Some. rewrite <- (quiet_length _ _ Hq).
    by eapply lookup_lt_Some. }
  exists nd. split; [done | by eapply quiet_lookup].
Qed.

(** A clone that returns: the node it made, against the node [nd] it
    was called on. *)
Lemma clone_success n r op copy kw (s : store) r' s' :
  _clone n r op copy kw s = (Ok r', s') ->
  exists nd nd' ndr c,
    nodes s !! r = Some nd /\ r' = length (nodes s) /\
    nodes s' !! r' = Some nd' /\ nodes s' !! r = Some ndr /\
    same_but_memo nd ndr /\
    n_depth nd' = n_depth nd + 1 /\
    n_prev nd' = (if copy then n_prev nd else Some r) /\
    n_operation nd' = match op with
                      | Some o => Some o
                      | None => n_operation nd
                      end /\
    n_method nd' = (if copy then n_method nd else clone_method kw) /\
    n_kwargs nd' = clone_kwargs copy nd kw /\
    n_shared nd' = Some c /\ n_shared ndr = Some c /\
    (copy = true -> n_fn nd' = n_fn nd /\ n_wrapper nd' = n_wrapper nd).
Proof.
  intros Hrun.
  apply clone_run in Hrun
    as [(e & [=] & _)|(s1 & nd1 & fn & w & Hq & Hr1 & [c Hc] & Hcopy & Hq' & Hres)].
  destruct Hres as [[= ->]|(e & [=])].
  destruct (quiet_lookup_back _ _ _ _ Hq Hr1) as (nd & Hr & [Hf Hm]).
  set (new := cloned r nd1 op copy kw fn w) in *.
  assert (nodes (alloc_node new s1).2 !! length (nodes s) = Some new) as Hnew.
  { simpl. rewrite <- (quiet_length _ _ Hq). by apply list_lookup_middle. }
  destruct (proj2 Hq' _ _ Hnew) as (nd' & Hr' & [Hf' Hm']).
  assert (nodes (alloc_node new s1).2 !! r = Some nd1) as Hr1'.
  { simpl. by apply lookup_app_l_Some. }
  destruct (proj2 Hq' _ _ Hr1') as (ndr & Hrr & [Hfr Hmr]).
  exists nd, nd', ndr, c.
  split; [done|]. split; [done|]. split; [done|]. split; [done|].
  split. { split; [by eapply same_frame_trans | congruence]. }
  rewrite (sf_depth _ _ Hf'), (sf_prev _ _ Hf'), (sf_operation _ _ Hf'), Hm',
    (sf_kwargs _ _ Hf'), (sf_fn _ _ Hf'), (sf_wrapper _ _ Hf').
  unfold new, cloned, clone_kwargs. simpl.
  rewrite (sf_depth _ _ Hf), (sf_prev _ _ Hf), (sf_operation _ _ Hf), Hm,
    (sf_kwargs _ _ Hf), (sf_wrapper _ _ Hf).
  repeat (split; [done|]).
  split. { apply (sf_shared _ _ Hf'). exact Hc. }
  split. { apply (sf_shared _ _ Hfr). exact Hc. }
  intros ->. destruct Hcopy as [-> ->].
  split; [apply (sf_fn _ _ Hf) | apply (sf_wrapper _ _ Hf)].
Qed.

(** An [__init__] that returns. *)
Lemma init_success n (nd : node) (s : store) r s' :
  __init__ n nd s = (Ok r, s') ->
  r = length (nodes s) /\
  exists nd', nodes s' !! r = Some nd' /\ same_but_memo nd nd'.
Proof.
  intros Hrun. destruct (init_run n nd s) as [Hq Hres].
  rewrite Hrun in Hq, Hres. simpl in Hq, Hres.
  destruct Hres as [[= ->]|(e & [=])]. split; [done|].
  destruct (proj2 Hq (length (nodes s)) (set_current vnone (set_dirty true nd)))
    as (nd' & Hr' & [Hf Hm]).
  { by apply list_lookup_middle. }
  exists nd'. split; [done|]. split; [|done].
  destruct Hf; by constructor.
Qed.



(** A root that returns has depth 0, and the node it is made from, if
    any, as its previous node. *)
Lemma root_success n obj (s : store) r s' :
  interactive n obj s = (Ok r, s') ->
  exists nd, nodes s' !! r = Some nd /\ n_depth nd = 0 /\
             n_prev nd = root_prev obj.
Proof.
  unfold interactive. intros Hrun.
  hstep_any Hrun; [|discriminate].
  hstep_any Hrun; [|discriminate].
  cbv zeta in Hrun.
  apply init_success in Hrun as (_ & nd' & Hr' & [Hf _]).
  exists nd'. split; [done|].
  by rewrite (sf_depth _ _ Hf), (sf_prev _ _ Hf).
Qed.

End Runs.

(** ** Depth and previous node are kept in order *)

Section Depth.
Context {V F : Type} {H : Host V F}.

#[local] Abbreviation node := (node V F).
#[local] Abbreviation store := (store V F).

Lemma keeps_bind P {A B} (c : M V F A) (k : A -> M V F B) :
  keeps P c -> (forall a, keeps P (k a)) -> keeps P (bind c k).
Proof.
  intros Hc Hk s Hs. unfold bind. specialize (Hc s Hs).
  destruct (c s) as [[a|e] s1]; simpl in *; [by apply Hk | done].
Qed.

Lemma keeps_try_finally P {A} (c : M V F A) (f : M V F unit) :
  keeps P c -> keeps P f -> keeps P (try_finally c f).
Proof.
  intros Hc Hf s Hs. unfold try_finally. specialize (Hc s Hs).
  destruct (c s) as [res s1]. specialize (Hf s1 Hc).
  by destruct (f s1) as [[[]|e] s2].
Qed.

Lemma depth_inv_settled (s s' : store) : depth_inv s -> settled s s' -> depth_inv s'.
Proof.
  intros Hinv [Hlen Hs] r nd' Hr'.
  assert (is_Some (nodes s !! r)) as [nd Hr].
  { apply lookup_lt_is_Some. rewrite Hlen. by eapply lookup_lt_Some. }
  destruct (Hs r nd Hr) as (x & Hx & Hf).
  assert (x = nd') as -> by congruence.
  specialize (Hinv r nd Hr). unfold prev_ok in *.
  rewrite (sf_prev _ _ Hf). destruct (n_prev nd) as [p|]; [|done].
  destruct Hinv as (pd & Hp & Hlt).
  destruct (Hs p pd Hp) as (pd' & Hp' & Hfp).
  exists pd'. split; [done|].
  by rewrite (sf_depth _ _ Hfp), (sf_depth _ _ Hf), (sf_fn _ _ Hf).
Qed.

Lemma depth_inv_alloc (s : store) (nd : node) :
  depth_inv s -> prev_ok s nd -> depth_inv (alloc_node nd s).2.
Proof.
  intros Hinv Hok r x Hr. simpl in *.
  assert (prev_ok s x) as Hx.
  { apply lookup_app_Some in Hr as [Hr|[_ Hr]]; [by eapply Hinv|].
    destruct (r - length (nodes s)) as [|k]; simpl in Hr; [|done].
    by injection Hr as <-. }
  unfold prev_ok in *. destruct (n_prev x) as [p|]; [|done].
  destruct Hx as (pd & Hp & Hlt). exists pd. split; [|done].
  by apply lookup_app_l_Some.
Qed.

Lemma keeps_settled {A} (c : M V F A) :
  steps eq same_frame c -> keeps depth_inv c.
Proof. intros Hc s Hs. eapply depth_inv_settled; [done | apply Hc]. Qed.

Lemma depth_inv_init n (nd : node) (s : store) :
  depth_inv s -> prev_ok s nd -> depth_inv (__init__ n nd s).2.
Proof.
  intros Hinv Hok. destruct (init_run n nd s) as [Hq _].
  eapply depth_inv_settled; [|by apply quiet_settled].
  apply depth_inv_alloc; [done|]. exact Hok.
Qed.

Lemma keeps_clone n r op copy kw : keeps depth_inv (_clone n r op copy kw).
Proof.
  intros s Hinv.
  destruct (_clone n r op copy kw s) as [res s'] eqn:Hrun. simpl.
  apply clone_run in Hrun
    as [(e & _ & Hq)|(s1 & nd & fn & w & Hq & Hr & _ & Hcopy & Hq' & _)].
  - eapply depth_inv_settled; [done | by apply quiet_settled].
  - assert (depth_inv s1) as Hinv1.
    { eapply depth_inv_settled; [done | by apply quiet_settled]. }
    eapply depth_inv_settled; [|by apply quiet_settled].
    apply depth_inv_alloc; [done|].
    unfold prev_ok, cloned. simpl. destruct copy.
    + specialize (Hinv1 r nd Hr). unfold prev_ok in Hinv1.
      destruct (n_prev nd) as [p|]; [|done].
      destruct Hinv1 as (pd & Hp & [Hlt|(deps & Hfn)]); exists pd;
        (split; [done|]); [left; lia|].
      right. exists deps. destruct Hcopy as [-> _]. done.
    + exists nd. split; [done | left; lia].
Qed.

(** [_params] that returns was read off a node that is there. *)
Lemma params_node n r (s : store) ps s' :
  _params n r s = (Ok ps, s') -> is_Some (nodes s !! r).
Proof.
  destruct n as [|n]; [discriminate|]. cbn [_params]. unfold touch at 1.
  rewrite !bind_run. unfold get_node at 1.
  destruct (nodes s !! r) as [nd|]; [by eexists | discriminate].
Qed.

End Depth.

Ltac keeps_step :=
  lazymatch goal with
  | |- keeps _ (bind _ _) => apply keeps_bind; [|intros ?]
  | |- keeps _ (try_finally _ _) => apply keeps_try_finally
  | |- keeps _ (_clone _ _ _ _ _) => apply keeps_clone
  | |- keeps _ (match ?x with _ => _ end) => destruct x
  | |- keeps _ (let _ := _ in _) => cbv zeta
  | |- keeps depth_inv _ => solve [apply keeps_settled; mono_tac]
  end.

Ltac keeps_tac := repeat keeps_step.

Section DepthOps.
Context {V F : Type} {H : Host V F}.

Lemma keeps_interactive n obj :
  keeps depth_inv (interactive (V := V) (F := F) n obj).
Proof.
  unfold interactive. destruct obj as [v|o x|o|f deps|q].
  1-4: keeps_tac; intros s Hinv; by apply depth_inv_init.
  intros s Hinv. rewrite !bind_run.
  pose proof (steps_params eq same_frame n q s) as Hst.
  destruct (_params n q s) as [[ps|e] s1] eqn:Hps; simpl in Hst.
  2:{ simpl. by eapply depth_inv_settled. }
  unfold ret at 1. cbv iota beta. unfold ret at 1. cbv iota beta zeta.
  apply depth_inv_init; [by eapply depth_inv_settled|].
  destruct (params_node _ _ _ _ _ Hps) as [nd Hq].
  destruct (proj2 Hst q nd Hq) as (nd1 & Hq1 & _).
  unfold prev_ok. simpl. exists nd1. split; [done|]. right. by eexists.
Qed.

Lemma keeps_resolve_accessor n r :
  keeps depth_inv (_resolve_accessor (V := V) (F := F) n r).
Proof. unfold _resolve_accessor. keeps_tac. Qed.

Lemma keeps_getattribute n r name :
  keeps depth_inv (__getattribute__ (V := V) (F := F) n r name).
Proof.
  unfold __getattribute__. keeps_tac. apply keeps_resolve_accessor.
Qed.

Lemma keeps_apply_operator n r f args rev kw :
  keeps depth_inv (_apply_operator (V := V) (F := F) n r f args rev kw).
Proof.
  unfold _apply_operator. keeps_tac. apply keeps_resolve_accessor.
Qed.

Lemma keeps_call n r args kw :
  keeps depth_inv (__call__ (V := V) (F := F) n r args kw).
Proof.
  unfold __call__. keeps_tac.
Qed.

End DepthOps.

(** ** Every node made from a node holds its shared cell *)

(** Stepping through a run, keeping for every step that the store only
    grew. *)
Ltac estep H :=
  rewrite bind_run in H;
  lazymatch type of H with
  | (match get_node ?r ?s with _ => _ end) = _ =>
      let nd := fresh "nd" in
      let Hr := fresh "Hr" in
      unfold get_node at 1 in H; destruct (nodes s !! r) as [nd|] eqn:Hr
  | (match ?c ?s with _ => _ end) = _ =>
      let Hs := fresh "Hs" in
      let Hstep := fresh "Hext" in
      assert (Hs : steps le same_frame c) by mono_tac;
      pose proof (Hs s : ext s (c s).2) as Hstep; clear Hs;
      let a := fresh "a" in
      let e := fresh "e" in
      let s' := fresh "s" in
      destruct (c s) as [[a|e] s'] eqn:?; simpl in Hstep
  end.

Section Cells.
Context {V F : Type} {H : Host V F}.

#[local] Abbreviation node := (node V F).
#[local] Abbreviation store := (store V F).

Lemma ext_trans (s1 s2 s3 : store) : ext s1 s2 -> ext s2 s3 -> ext s1 s3.
Proof. exact (lifted_trans _ _ s1 s2 s3). Qed.

Lemma run_ext {A} (c : M V F A) (s : store) res s' :
  steps le same_frame c -> c s = (res, s') -> ext s s'.
Proof. intros Hc Hrun. specialize (Hc s). by rewrite Hrun in Hc. Qed.

Lemma same_cell_ext (s s' : store) r r' :
  ext s s' -> same_cell s r r' -> same_cell s' r r'.
Proof.
  intros [_ He] (nd & nd' & c & Hr & Hr' & Hc & Hc').
  destruct (He r nd Hr) as (x & Hx & Hf).
  destruct (He r' nd' Hr') as (x' & Hx' & Hf').
  exists x, x', c. repeat split; try done.
  - by apply (sf_shared _ _ Hf).
  - by apply (sf_shared _ _ Hf').
Qed.

Lemma same_cell_trans (s : store) a b c :
  same_cell s a b -> same_cell s b c -> same_cell s a c.
Proof.
  intros (na & nb & x & Ha & Hb & Hxa & Hxb) (nb' & nc & y & Hb' & Hc & Hyb & Hyc).
  exists na, nc, x. repeat split; try done. congruence.
Qed.

Lemma clone_same_cell n r op copy kw (s : store) r' s' :
  _clone n r op copy kw s = (Ok r', s') -> same_cell s' r r'.
Proof.
  intros Hrun. apply clone_success in Hrun
    as (nd & nd' & ndr & c & _ & _ & Hr' & Hr & _ & _ & _ & _ & _ & _ & Hc' & Hc & _).
  by exists ndr, nd', c.
Qed.

Lemma try_finally_run {A} (c : M V F A) (f : M V F unit) (s : store) a s' :
  try_finally c f s = (Ok a, s') ->
  exists s1, c s = (Ok a, s1) /\ f s1 = (Ok tt, s').
Proof.
  unfold try_finally. destruct (c s) as [res s1].
  destruct (f s1) as [[[]|e] s2] eqn:Hf; intros [= -> ->]. eauto.
Qed.

(** [ext a c] from a chain of steps among the hypotheses. *)
Ltac ext_solve :=
  solve [ exact (lifted_refl _ _ _)
        | eassumption
        | eapply ext_trans; [eassumption | ext_solve] ].

(** A run that is among the hypotheses only grew the store. *)
Ltac ext_of_runs :=
  repeat match goal with
         | Hx : ?c ?s = (_, ?s') |- _ =>
             lazymatch goal with
             | _ : ext s s' |- _ => fail
             | _ => assert (ext s s') by (eapply run_ext; [|exact Hx]; mono_tac)
             end
         end.

Ltac cells_of_runs :=
  repeat match goal with
         | Hx : _clone _ _ _ _ _ _ = (Ok _, _) |- _ =>
             apply clone_same_cell in Hx
         end.

Ltac cell_at_end :=
  solve [ eapply same_cell_ext; [|eassumption]; ext_solve ].

Lemma resolve_accessor_same_cell n r (s : store) r' s' :
  _resolve_accessor n r s = (Ok r', s') -> same_cell s' r r'.
Proof.
  unfold _resolve_accessor. intros Hrun.
  estep Hrun; [|discriminate].
  destruct (method_set (n_method nd)).
  - destruct (n_method nd) as [m|]; [|discriminate].
    apply try_finally_run in Hrun as (s1 & Hrun & Hfin).
    estep Hrun; [|discriminate].
    ext_of_runs. cells_of_runs. cell_at_end.
  - estep Hrun; [|discriminate]. by apply clone_same_cell in Hrun.
Qed.

Ltac cells_of_runs ::=
  repeat match goal with
         | Hx : _clone _ _ _ _ _ _ = (Ok _, _) |- _ =>
             apply clone_same_cell in Hx
         | Hx : _resolve_accessor _ _ _ = (Ok _, _) |- _ =>
             apply resolve_accessor_same_cell in Hx
         end.

Lemma apply_operator_same_cell n r f args rev kw (s : store) r' s' :
  _apply_operator n r f args rev kw s = (Ok r', s') -> same_cell s' r r'.
Proof.
  unfold _apply_operator. intros Hrun.
  estep Hrun; [|discriminate]. estep Hrun; [|discriminate].
  estep Hrun; [|discriminate]. cbv zeta in Hrun.
  estep Hrun; [|discriminate].
  ext_of_runs. cells_of_runs.
  eapply same_cell_trans; [cell_at_end | cell_at_end].
Qed.

Lemma getattribute_same_cell n r name (s : store) r' s' :
  __getattribute__ n r name s = (Ok (Intercepted r'), s') -> same_cell s' r r'.
Proof.
  unfold __getattribute__. intros Hrun.
  destruct (decide (name ∈ no_lookup)); [discriminate|].
  estep Hrun; [|discriminate]. estep Hrun; [|discriminate].
  estep Hrun; [|discriminate]. estep Hrun; [|discriminate].
  destruct (decide _); [|discriminate].
  estep Hrun; [|discriminate]. estep Hrun; [|discriminate].
  estep Hrun; [|discriminate]. injection Hrun as <- <-.
  ext_of_runs. cells_of_runs. cell_at_end.
Qed.

Lemma call_same_cell n r args kw (s : store) r' s' :
  __call__ n r args kw s = (Ok r', s') -> same_cell s' r r'.
Proof.
  unfold __call__. intros Hrun.
  destruct (has_key _ kw) in Hrun; [discriminate|].
  estep Hrun; [|discriminate].
  destruct (n_method nd) as [m|].
  - estep Hrun; [|discriminate]. estep Hrun; [|discriminate].
    apply try_finally_run in Hrun as (s2 & Hrun & Hfin).
    estep Hrun; [|discriminate].
    destruct (n_method nd0) as [m'|]; [|discriminate].
    cbv zeta in Hrun. estep Hrun; [|discriminate].
    ext_of_runs. cells_of_runs.
    eapply same_cell_trans; [cell_at_end | cell_at_end].
  - estep Hrun; [|discriminate]. estep Hrun; [|discriminate].
    destruct (decide _); [|discriminate].
    estep Hrun; [|discriminate].
    estep Hrun; [|discriminate].
    by apply clone_same_cell in Hrun.
Qed.

End Cells.

(** ** Evaluating a node leaves the later nodes alone *)

Section Calm.
Context {V F : Type} {H : Host V F}.

#[local] Abbreviation node := (node V F).
#[local] Abbreviation store := (store V F).
#[local] Abbreviation M := (M V F).

Lemma untouched_refl k (s : store) : untouched_from k s s.
Proof. intros i nd _ Hi. by exists nd. Qed.

Lemma untouched_trans k (s1 s2 s3 : store) :
  untouched_from k s1 s2 -> untouched_from k s2 s3 -> untouched_from k s1 s3.
Proof.
  intros H12 H23 i nd Hk Hi.
  destruct (H12 i nd Hk Hi) as (nd2 & Hi2 & Hd2 & Hc2).
  destruct (H23 i nd2 Hk Hi2) as (nd3 & Hi3 & Hd3 & Hc3).
  exists nd3. split; [done|]. split; congruence.
Qed.

Lemma untouched_same_nodes k (s s' : store) :
  nodes s' = nodes s -> untouched_from k s s'.
Proof. intros E i nd _ Hi. exists nd. by rewrite E. Qed.

Lemma older_settled (s s' : store) : older s -> settled s s' -> older s'.
Proof.
  intros Hold [Hlen Hs] r nd' Hr'.
  assert (is_Some (nodes s !! r)) as [nd Hr].
  { apply lookup_lt_is_Some. rewrite Hlen. by eapply lookup_lt_Some. }
  destruct (Hs r nd Hr) as (x & Hx & Hf).
  assert (x = nd') as -> by congruence.
  destruct (Hold r nd Hr) as (Hp & Ho & Hq).
  rewrite (sf_prev _ _ Hf), (sf_operation _ _ Hf), (sf_fn _ _ Hf). done.
Qed.

Lemma calm_weaken (P : store -> Prop) k {A} (c : M A) :
  calm k c -> calm_when P k c.
Proof. intros Hc s Hold _. by apply Hc. Qed.

Lemma calm_same k {A} (c : M A) :
  (forall s, nodes (c s).2 = nodes s) -> calm k c.
Proof. intros Hc s _ _. by apply untouched_same_nodes. Qed.

Lemma calm_when_bind (P : store -> Prop) k {A B} (c : M A) (f : A -> M B) :
  calm_when P k c -> steps eq same_frame c -> (forall a, calm k (f a)) ->
  calm_when P k (bind c f).
Proof.
  intros Hc Hs Hf s Hold HP. unfold bind.
  specialize (Hc s Hold HP). specialize (Hs s).
  destruct (c s) as [[a|e] s1]; simpl in *; [|done].
  eapply untouched_trans; [done|]. apply Hf; [|done].
  by eapply older_settled.
Qed.

Lemma calm_bind k {A B} (c : M A) (f : A -> M B) :
  calm k c -> steps eq same_frame c -> (forall a, calm k (f a)) ->
  calm k (bind c f).
Proof. apply calm_when_bind. Qed.

(** After [get_node r] the run knows the node. *)
Lemma calm_get_node_bind k r {B} (f : node -> M B) :
  (forall nd, calm_when (fun s => nodes s !! r = Some nd) k (f nd)) ->
  calm k (bind (get_node r) f).
Proof.
  intros Hf s Hold _. unfold bind, get_node.
  destruct (nodes s !! r) as [nd|] eqn:Hr; [|apply untouched_refl].
  by apply Hf.
Qed.

(** A fact about the store of [older] nodes the run starts from. *)
Lemma calm_when_fact (P : store -> Prop) (Q : Prop) k {A} (c : M A) :
  (forall s, older s -> P s -> Q) -> (Q -> calm_when P k c) -> calm_when P k c.
Proof. intros HQ Hc s Hold HP. apply Hc; eauto. Qed.

Lemma calm_ret k {A} (a : A) : calm k (ret a).
Proof. by apply calm_same. Qed.

Lemma calm_throw k {A} e : calm k (throw (A := A) e).
Proof. by apply calm_same. Qed.

Lemma calm_lift k {A} (x : result A) : calm k (lift x).
Proof. by apply calm_same. Qed.

Lemma calm_get_node k r : calm k (get_node r).
Proof. apply calm_same. intros s. unfold get_node. by destruct (nodes s !! r). Qed.

Lemma calm_emit k e : calm k (emit e).
Proof. by apply calm_same. Qed.

Lemma calm_param_value k o x : calm k (param_value o x).
Proof.
  apply calm_same. intros s. unfold param_value.
  destruct (owners s !! o) as [ow|]; [destruct (assoc x (o_vals ow))|]; done.
Qed.

(** Writing the cache of a node below [k]. *)
Lemma calm_upd_node k r (f : node -> node) : r < k -> calm k (upd_node r f).
Proof.
  intros Hlt s _ _ i nd Hk Hi. exists nd. simpl.
  rewrite list_lookup_alter_ne by lia. done.
Qed.

Lemma calm_set_obj k r v : calm k (set_obj r v).
Proof.
  intros s _ _. unfold set_obj, bind, get_node.
  destruct (nodes s !! r) as [nd|] eqn:Hr; [|apply untouched_refl].
  destruct (n_shared nd) as [c|]; simpl; [by apply untouched_same_nodes|].
  intros i ndi _ Hi. simpl.
  destruct (decide (r = i)) as [->|Hne].
  - eexists. rewrite list_lookup_alter_eq, Hi. done.
  - exists ndi. by rewrite list_lookup_alter_ne.
Qed.

End Calm.

Create HintDb calm discriminated.

#[global] Hint Resolve calm_ret calm_throw calm_lift calm_get_node calm_emit
  calm_param_value calm_set_obj : calm.

Ltac calm_step :=
  lazymatch goal with
  | |- calm _ (bind _ _) => apply calm_bind; [| solve [mono_tac] | intros ?]
  | |- calm _ (match ?x with _ => _ end) => destruct x
  | |- calm _ (let _ := _ in _) => cbv zeta
  | |- calm _ _ => solve [eauto with calm]
  end.

Ltac calm_tac := repeat calm_step.

Section CalmOps.
Context {V F : Type} {H : Host V F}.

#[local] Abbreviation node := (node V F).
#[local] Abbreviation store := (store V F).
#[local] Abbreviation M := (M V F).

Lemma calm_param_values k ps : calm k (param_values (V := V) (F := F) ps).
Proof. induction ps as [|[o x] ps IH]; simpl; calm_tac. Qed.
Hint Resolve calm_param_values : calm.

Lemma calm_eval_function k (ev : nat -> M V) fn :
  (forall q, q ∈ fn_refs fn -> calm k (ev q)) ->
  calm k (eval_function ev fn).
Proof.
  intros Hev. unfold eval_function. destruct fn as [o x|f deps|q deps].
  - calm_tac.
  - calm_tac.
  - apply calm_bind; [calm_tac | mono_tac |]. intros _. apply Hev.
    simpl. apply list_elem_of_here.
Qed.

Lemma calm_get_obj k (ev : nat -> M V) r :
  (forall q, steps eq same_frame (ev q)) ->
  (forall q, q < r -> calm k (ev q)) ->
  calm k (get_obj ev r).
Proof.
  intros Hs Hev. unfold get_obj. apply calm_get_node_bind. intros nd.
  apply (calm_when_fact _ (forall q, q ∈ fn_refs (n_fn nd) -> q < r)).
  { intros s Hold Hr. apply (Hold r nd Hr). }
  intros Hrefs. apply calm_weaken.
  apply calm_bind; [| mono_tac |].
  - destruct (n_shared nd); [calm_tac|].
    apply calm_bind; [| mono_tac | intros; calm_tac].
    apply calm_eval_function. intros q Hq. apply Hev. by apply Hrefs.
  - intros _. calm_tac.
    apply calm_same. intros s. by destruct (cells s !! _).
Qed.

Lemma calm_touch_tail k r : calm k (touch_tail (V := V) (F := F) r).
Proof. unfold touch_tail. calm_tac. Qed.

Lemma calm_apply_fn k fn rev obj args kw :
  calm k (apply_fn (V := V) (F := F) fn rev obj args kw).
Proof. unfold apply_fn. calm_tac. Qed.

End CalmOps.

#[global] Hint Resolve calm_param_values calm_touch_tail calm_apply_fn : calm.

#[global] Hint Resolve calm_upd_node : calm.

Section CalmEval.
Context {V F : Type} {H : Host V F}.

#[local] Abbreviation M := (M V F).

Lemma calm_resolve_args k (ev : nat -> M V) l :
  (forall r, steps eq same_frame (ev r)) ->
  (forall r, r ∈ node_refs l -> calm k (ev r)) ->
  calm k (resolve_args ev l).
Proof.
  intros Hs. induction l as [|a l IH]; intros Hev; simpl; [calm_tac|].
  apply calm_bind; [| mono_tac |].
  - destruct a; simpl; calm_tac. apply Hev. simpl. apply list_elem_of_here.
  - intros v. apply calm_bind; [| mono_tac | intros; calm_tac].
    apply IH. intros r Hr. apply Hev.
    destruct a; simpl; try done. by apply list_elem_of_further.
Qed.

Lemma calm_resolve_kwargs k (ev : nat -> M V) l :
  (forall r, steps eq same_frame (ev r)) ->
  (forall r, r ∈ node_refs (map snd l) -> calm k (ev r)) ->
  calm k (resolve_kwargs ev l).
Proof.
  intros Hs. induction l as [|[key a] l IH]; intros Hev; simpl; [calm_tac|].
  apply calm_bind; [| mono_tac |].
  - destruct a; simpl; calm_tac. apply Hev. simpl. apply list_elem_of_here.
  - intros v. apply calm_bind; [| mono_tac | intros; calm_tac].
    apply IH. intros r Hr. apply Hev.
    destruct a; simpl; try done. by apply list_elem_of_further.
Qed.

Lemma calm_eval_operation_with k (ev : nat -> M V) obj (op : operation V F) :
  (forall r, steps eq same_frame (ev r)) ->
  (forall r, r ∈ op_refs op -> calm k (ev r)) ->
  calm k (eval_operation_with ev obj op).
Proof.
  intros Hs Hev. unfold eval_operation_with.
  apply calm_bind; [| mono_tac |].
  - apply calm_resolve_args; [done|]. intros r Hr. apply Hev.
    unfold op_refs. apply elem_of_app. by left.
  - intros args. apply calm_bind; [| mono_tac | intros; calm_tac].
    apply calm_resolve_kwargs; [done|]. intros r Hr. apply Hev.
    unfold op_refs. apply elem_of_app. by right.
Qed.

(** In a store of [older] nodes, evaluating a node writes no cache from
    the next node on. *)
Lemma calm_eval n : forall r k, r < k -> calm k (eval (V := V) (F := F) n r).
Proof.
  induction n as [|n IH]; intros r k Hlt; [simpl; calm_tac|].
  cbn [eval]. apply calm_get_node_bind. intros nd.
  destruct (negb (n_dirty nd)); [apply calm_weaken; calm_tac|].
  apply (calm_when_fact _ (forall p, n_prev nd = Some p -> p < r)).
  { intros s Hold Hr. apply (Hold r nd Hr). }
  intros Hprev. apply calm_when_bind; [| mono_tac |].
  { apply calm_weaken. destruct (n_prev nd) as [p|].
    - apply IH. specialize (Hprev p eq_refl). lia.
    - apply calm_get_obj; [intros; mono_tac|]. intros q Hq. apply IH. lia. }
  intros obj. apply calm_get_node_bind. intros nd1.
  apply (calm_when_fact _ (forall op a, n_operation nd1 = Some op ->
                                        a ∈ op_refs op -> a < r)).
  { intros s Hold Hr. apply (proj1 (proj2 (Hold r nd1 Hr))). }
  intros Hrefs. apply calm_when_bind; [| mono_tac |].
  { apply calm_weaken. destruct (n_operation nd1) as [op|]; [|calm_tac].
    apply calm_eval_operation_with; [intros; mono_tac|].
    intros a Ha. apply IH. specialize (Hrefs op a eq_refl Ha). lia. }
  intros obj'. calm_tac.
Qed.

End CalmEval.

(** ** [set] along the walk *)

Section SetWalk.
Context {V F : Type} {H : Host V F}.

#[local] Abbreviation node := (node V F).
#[local] Abbreviation store := (store V F).

Lemma touch_tail_pure r (s : store) res s' :
  touch_tail r s = (res, s') -> s' = s.
Proof.
  unfold touch_tail, bind, get_node.
  destruct (nodes s !! r) as [nd|]; [|by intros [= _ <-]].
  destruct (method_set (n_method nd)) as [m|]; [|by intros [= _ <-]].
  unfold lift. destruct (py_getattr (n_current nd) m); by intros [= _ <-].
Qed.

(** An [eval] that returns leaves the node clean. *)
Lemma eval_success_clean n r (s : store) v s' :
  eval n r s = (Ok v, s') ->
  exists nd, nodes s' !! r = Some nd /\ n_dirty nd = false.
Proof.
  destruct n as [|n]; [discriminate|]. cbn [eval]. intros Hrun.
  hstep_any Hrun; [|discriminate].
  unfold get_node in Heqp. destruct (nodes s !! r) as [nd|] eqn:Hr; [|discriminate].
  injection Heqp as <- <-.
  destruct (n_dirty nd) eqn:Hd; simpl in Hrun.
  2:{ hstep_any Hrun; [|discriminate]. injection Hrun as _ <-.
      apply touch_tail_pure in Heqp as ->. eauto. }
  hstep_any Hrun; [|discriminate]. hstep_any Hrun; [|discriminate].
  hstep_any Hrun; [|discriminate]. hstep_any Hrun; [|discriminate].
  hstep_any Hrun; [|discriminate].
  unfold upd_node in Heqp2, Heqp3.
  injection Heqp2 as <- <-. injection Heqp3 as <- <-.
  hstep_any Hrun; [|discriminate].
  unfold get_node in Heqp2. simpl in Heqp2.
  destruct (alter _ r _ !! r) as [nd2|] eqn:Hr2; [|discriminate].
  injection Heqp2 as <- <-.
  hstep_any Hrun; [|discriminate]. hstep_any Hrun; [|discriminate].
  injection Hrun as <- <-.
  assert (s4 = s3) as ->.
  { destruct (is_callable a2); [by eapply touch_tail_pure|].
    by injection Heqp3 as _ <-. }
  assert (s3 = Store (alter (set_dirty false) r
                        (alter (set_current a1) r (nodes s2)))
                     (cells s2) (owners s2) (watchers s2) (log s2)) as ->.
  { destruct (method_set (n_method nd2)); [|by injection Heqp2 as _ <-].
    unfold lift in Heqp2. by injection Heqp2 as _ <-. }
  simpl. rewrite list_lookup_alter_eq in Hr2 |- *.
  destruct (alter (set_current a1) r (nodes s2) !! r) as [x|]; [|discriminate].
  simpl. eauto.
Qed.

(** A second read right after a read that went through does nothing. *)
Lemma touch_again n r (s s' : store) :
  touch n r s = (Ok tt, s') -> touch n r s' = (Ok tt, s').
Proof.
  unfold touch. intros Hrun.
  hstep_any Hrun; [|discriminate].
  unfold get_node in Heqp. destruct (nodes s !! r) as [nd|] eqn:Hr; [|discriminate].
  injection Heqp as <- <-.
  hstep_any Hrun; [|discriminate].
  pose proof (touch_tail_pure _ _ _ _ Hrun) as ->.
  assert (exists nd', nodes s0 !! r = Some nd' /\ n_dirty nd' = false)
    as (nd' & Hr' & Hd').
  { destruct (n_dirty nd) eqn:Hd.
    - rename Heqp into Hev. hstep_any Hev; [|discriminate].
      injection Hev as _ <-. by eapply eval_success_clean.
    - injection Heqp as _ <-. eauto. }
  rewrite bind_run. unfold get_node. rewrite Hr', Hd'. rewrite bind_run.
  unfold ret at 1. exact Hrun.
Qed.

Lemma walk_settled (s s' : store) r path root :
  settled s s' -> walk s r path root -> walk s' r path root.
Proof.
  intros [_ Hs] Hw. induction Hw as [r nd Hr Hp|r nd p path root Hr Hp Hw IH].
  - destruct (Hs r nd Hr) as (nd' & Hr' & Hf).
    eapply walk_root; [done|]. by rewrite (sf_prev _ _ Hf).
  - destruct (Hs r nd Hr) as (nd' & Hr' & Hf).
    eapply walk_step; [done | | done]. by rewrite (sf_prev _ _ Hf).
Qed.

Lemma mark_dirty_settled path (s : store) : settled s (mark_dirty path s).
Proof.
  revert s. induction path as [|p path IH]; intros s; simpl.
  - exact (lifted_refl _ _ s).
  - eapply (lifted_trans _ _); [|apply IH].
    exact (steps_set_dirty eq same_frame p true s).
Qed.

Lemma mark_dirty_keeps path (s : store) p nd :
  nodes s !! p = Some nd -> n_dirty nd = true ->
  exists nd', nodes (mark_dirty path s) !! p = Some nd' /\ n_dirty nd' = true.
Proof.
  revert s nd. induction path as [|q path IH]; intros s nd Hp Hd; simpl; [eauto|].
  destruct (decide (q = p)) as [->|Hne].
  - eapply IH; [simpl; by rewrite list_lookup_alter_eq, Hp | done].
  - eapply IH; [simpl; by rewrite list_lookup_alter_ne | done].
Qed.

(** After the marking, every node of the path is dirty. *)
Lemma mark_dirty_marks path (s : store) p :
  p ∈ path -> is_Some (nodes s !! p) ->
  exists nd', nodes (mark_dirty path s) !! p = Some nd' /\ n_dirty nd' = true.
Proof.
  revert s. induction path as [|q path IH]; intros s Hin [nd Hp].
  - by apply elem_of_nil in Hin.
  - simpl. destruct (decide (q = p)) as [->|Hne].
    + eapply mark_dirty_keeps; [simpl; by rewrite list_lookup_alter_eq, Hp | done].
    + apply elem_of_cons in Hin as [->|Hin]; [done|].
      apply IH; [done|]. simpl. rewrite list_lookup_alter_ne by done. eauto.
Qed.

Lemma walk_nodes (s : store) r path root p :
  walk s r path root -> p ∈ path -> is_Some (nodes s !! p).
Proof.
  induction 1 as [r nd Hr Hp|r nd q path root Hr Hp Hw IH]; intros Hin.
  - apply list_elem_of_singleton in Hin as ->. eauto.
  - apply elem_of_cons in Hin as [->|Hin]; eauto.
Qed.

(** The walk of [set]: first all the marking, then the root. *)
Lemma set_walk_run n new root : forall path r (s : store) k,
  walk s r path root -> length path <= k ->
  set_walk n k (Some r) new s =
  (do _ <~ at_root n root new ;> ret tt) (mark_dirty path s).
Proof.
  induction path as [|q path IH]; intros r s k Hw Hk; [inversion Hw|].
  destruct k as [|k]; [simpl in Hk; lia|].
  inversion Hw as [r0 nd Hr Hp|r0 nd p path0 root0 Hr Hp Hw']; subst.
  - cbn [set_walk mark_dirty foldl]. rewrite bind_run. unfold upd_node at 1 2.
    cbv iota. simpl snd.
    set (s1 := Store _ _ _ _ _).
    assert (nodes s1 !! root = Some (set_dirty true nd)) as Hr1.
    { unfold s1. simpl. by rewrite list_lookup_alter_eq, Hr. }
    rewrite bind_run. unfold get_node at 1. rewrite Hr1. simpl n_prev.
    rewrite Hp. cbv iota. rewrite !bind_run.
    destruct (at_root n root new s1) as [[[]|e] s2] eqn:Hat; [|done].
    assert (settled s1 s2) as Hs12.
    { pose proof (steps_at_root eq same_frame n root new s1) as Hx.
      by rewrite Hat in Hx. }
    destruct (proj2 Hs12 _ _ Hr1) as (nd2 & Hr2 & Hf2).
    rewrite bind_run. unfold get_node. rewrite Hr2.
    rewrite (sf_prev _ _ Hf2). simpl n_prev. rewrite Hp.
    by destruct k.
  - cbn [set_walk]. rewrite bind_run. unfold upd_node at 1. cbv iota.
    set (s1 := Store _ _ _ _ _).
    assert (nodes s1 !! q = Some (set_dirty true nd)) as Hr1.
    { unfold s1. simpl. by rewrite list_lookup_alter_eq, Hr. }
    rewrite bind_run. unfold get_node at 1. rewrite Hr1. simpl n_prev.
    rewrite Hp. cbv iota. rewrite bind_run. unfold ret at 1. cbv iota.
    rewrite bind_run. unfold get_node at 1. rewrite Hr1. simpl n_prev.
    rewrite Hp. cbv iota.
    rewrite (IH p s1 k); [done | | simpl in Hk; lia].
    eapply walk_settled; [|done].
    exact (steps_set_dirty eq same_frame q true s).
Qed.

(** At the root: once the read of [_wrapper] went through, [set] raises
    for want of a wrapper, or assigns the wrapper's [object]. *)
Lemma at_root_run n root new (s s2 : store) nd :
  touch n root s = (Ok tt, s2) -> nodes s !! root = Some nd ->
  at_root n root new s =
  match n_wrapper nd with
  | None => (Raise ValueError, s2)
  | Some w => set_param n w "object" new s2
  end.
Proof.
  intros Ht Hr. unfold at_root. rewrite bind_run, Ht.
  assert (settled s s2) as Hs.
  { pose proof (steps_touch eq same_frame n root s) as Hx. by rewrite Ht in Hx. }
  destruct (proj2 Hs _ _ Hr) as (nd2 & Hr2 & Hf2).
  rewrite bind_run. unfold get_node at 1. rewrite Hr2, (sf_wrapper _ _ Hf2).
  destruct (n_wrapper nd) as [w|] eqn:Hw; [|done].
  rewrite bind_run, (touch_again _ _ _ _ Ht). cbv iota. rewrite bind_run.
  unfold get_node. by rewrite Hr2, (sf_wrapper _ _ Hf2), Hw.
Qed.

(** [set] on a chain whose root has a wrapper, once the two reads went
    through: the walk is marked, and the wrapper's [object] assigned. *)
Lemma set_run n r root new (s s0 s2 : store) path ndroot w :
  touch n r s = (Ok tt, s0) ->
  walk s0 r path root -> length path <= n ->
  nodes s0 !! root = Some ndroot -> n_wrapper ndroot = Some w ->
  touch n root (mark_dirty path s0) = (Ok tt, s2) ->
  set n r new s = (do _ <~ set_param n w "object" new ;> ret r) s2.
Proof.
  intros Ht Hw Hk Hroot Hsome Ht2.
  unfold set. rewrite bind_run, Ht, bind_run.
  rewrite (set_walk_run n new root path r s0 n Hw Hk), bind_run.
  destruct (proj2 (mark_dirty_settled path s0) _ _ Hroot) as (nd1 & Hr1 & Hf1).
  rewrite (at_root_run n root new _ s2 nd1 Ht2 Hr1).
  rewrite (sf_wrapper _ _ Hf1), Hsome, bind_run.
  by destruct (set_param n w "object" new s2) as [[[]|e] s3].
Qed.

(** A root has a wrapper exactly when it was given a plain value. *)
Lemma root_wrapper n obj (s : store) r s' :
  interactive n obj s = (Ok r, s') ->
  exists nd, nodes s' !! r = Some nd /\
             (is_Some (n_wrapper nd) <-> exists v, obj = RConst v).
Proof.
  unfold interactive. intros Hrun.
  hstep_any Hrun; [|discriminate]. hstep_any Hrun; [|discriminate].
  apply init_success in Hrun as (_ & nd' & Hr' & [Hf _]).
  exists nd'. split; [done|]. rewrite (sf_wrapper _ _ Hf). simpl.
  destruct obj.
  - hstep_any Heqp; [|discriminate]. injection Heqp as <- _. simpl.
    split; eauto.
  - hstep_any Heqp; [|discriminate]. injection Heqp as <- _. simpl.
    split; [by intros [? ?] | by intros [? ?]].
  - hstep_any Heqp; [|discriminate]. injection Heqp as <- _. simpl.
    split; [by intros [? ?] | by intros [? ?]].
  - injection Heqp as <- _. simpl.
    split; [by intros [? ?] | by intros [? ?]].
  - hstep_any Heqp; [|discriminate]. injection Heqp as <- _. simpl.
    split; [by intros [? ?] | by intros [? ?]].
Qed.

End SetWalk.

(** ** Calling a node *)

Section Call.
Context {V F : Type} {H : Host V F}.

#[local] Abbreviation node := (node V F).
#[local] Abbreviation store := (store V F).

(** Without a pending accessor, once the read of [_depth] went
    through: below depth 0 the call raises, at depth 0 it is the
    clone, with the arguments as [_clone] binds them. *)
Lemma call_run n r args kwargs (s s0 : store) nd :
  nodes s !! r = Some nd -> n_method nd = None ->
  has_key ["self"] kwargs = false ->
  touch n r s = (Ok tt, s0) ->
  __call__ n r args kwargs s =
  if decide (n_depth nd = 0) then
    match clone_arguments args kwargs with
    | Ok a => _clone n r a.1.1 a.1.2 a.2 s0
    | Raise e => (Raise e, s0)
    end
  else (Raise AttributeError, s0).
Proof.
  intros Hr Hm Hk Ht. unfold __call__. rewrite Hk.
  rewrite bind_run. unfold get_node at 1. rewrite Hr, Hm.
  rewrite bind_run, Ht.
  assert (settled s s0) as Hs.
  { pose proof (steps_touch eq same_frame n r s) as Hx. by rewrite Ht in Hx. }
  destruct (proj2 Hs _ _ Hr) as (nd0 & Hr0 & Hf0).
  rewrite bind_run. unfold get_node at 1. rewrite Hr0, (sf_depth _ _ Hf0).
  destruct (decide (n_depth nd = 0)); [|done].
  rewrite bind_run, (touch_again _ _ _ _ Ht). rewrite bind_run. unfold lift.
  by destruct (clone_arguments args kwargs).
Qed.

(** The read of [_depth] that raises ends the call. *)
Lemma call_read_raises n r args kwargs (s s0 : store) nd e :
  nodes s !! r = Some nd -> n_method nd = None ->
  has_key ["self"] kwargs = false ->
  touch n r s = (Raise e, s0) ->
  __call__ n r args kwargs s = (Raise e, s0).
Proof.
  intros Hr Hm Hk Ht. unfold __call__. rewrite Hk.
  rewrite bind_run. unfold get_node at 1. rewrite Hr, Hm.
  by rewrite bind_run, Ht.
Qed.

End Call.

(** * The claims *)

(** C1, the code at the failing input: for the accessor [col], the
    operation that [_resolve_accessor] attaches has the bare string as
    [args], so [getitem] is applied to the record and to the characters
    ['c'], ['o'], ['l'] and raises [TypeError], where the claim has
    [getitem(value, 'col') > 1], that is [5 > 1].  With a name of one
    character the two agree. *)
Theorem accessor_name_is_split_into_characters :
  (accessor_then_operator "col" empty).1 = Raise TypeError /\
  log (accessor_then_operator "col" empty).2 =
    [EvFn getitem [record1; PStr "c"; PStr "o"; PStr "l"] []] /\
  call_fn getitem [record1; PStr "col"] [] = Ok (PInt 5) /\
  (accessor_then_operator "A" empty).1 = Ok (PBool true).
Proof. repeat split; vm_compute; reflexivity. Qed.

(** C2, the code at the failing input: with the accessor [col] still
    pending, the first [eval()] after a [set] returns the attribute,
    [9]; it has cached the record itself, and the second [eval()],
    served from the cache, returns the record. *)
Theorem second_eval_forgets_pending_accessor :
  (eval_twice_with_accessor empty).1 = Ok (PInt 9, record2).
Proof. vm_compute. reflexivity. Qed.

(** C8, the code at the failing input: building [root.head(1)], and then
    [root.head(1)['col']], without any [eval()] by the caller, already
    calls [head] on the wrapped record: once when the node of the call
    is made, once more when the operator copies that node. *)
Theorem building_a_chain_calls_head :
  (build_head empty).1 = Ok 3 /\
  log (build_head empty).2 = [EvMethod record1 "head" [PInt 1] []] /\
  (build_head_getitem empty).1 = Ok 5 /\
  log (build_head_getitem empty).2 =
    [EvMethod record1 "head" [PInt 1] [];
     EvMethod record1 "head" [PInt 1] [];
     EvFn getitem [PRecord [("col", PInt 5)]; PStr "col"] []].
Proof. repeat split; vm_compute; reflexivity. Qed.

(** C9, the code at the failing input: for the sum of a chain rooted at
    widget 0 and a chain rooted at widget 1, [widgets()] finds no widget
    at all, where the claim has both; the root itself reports widget 0,
    and the indexed chain rooted at widget 1 reports nothing. *)
Theorem widgets_of_sum_are_missed :
  (widgets_of_sum two_widgets).1 = Ok ([], [0], []).
Proof. vm_compute. reflexivity. Qed.

(** C4, the code at the failing input: [5 << expr] reaches
    [__rlshift__], which raises [AttributeError] and records nothing,
    where the claim has [5 << 3]; [5 + expr] and [5 - expr] do apply the
    operator to [5] first and the value of [expr] second. *)
Theorem reversed_shift_raises :
  (operator_with_5 __rlshift__ empty).1 = Raise AttributeError /\
  call_fn op_lshift [PInt 5; PInt 3] [] = Ok (PInt 40) /\
  (operator_with_5 __radd__ empty).1 = Ok (PInt 8) /\
  (operator_with_5 __rsub__ empty).1 = Ok (PInt 2) /\
  (operator_with_5 __sub__ empty).1 = Ok (PInt (-2)).
Proof. repeat split; vm_compute; reflexivity. Qed.



Lemma product_store_depth_inv : depth_inv product_store.
Proof.
  intros r nd Hr.
  destruct r as [|[|[|r]]]; vm_compute in Hr; [| | |discriminate];
    injection Hr as <-; unfold prev_ok; simpl; [done | done |].
  eexists. split; [vm_compute; reflexivity|]. left. simpl. lia.
Qed.


(** Running the first computation of a program on its store, keeping
    the integer operations folded. *)
Ltac crun :=
  rewrite bind_run;
  lazymatch goal with
  | |- context [match ?c ?s with _ => _ end] =>
      let t := eval cbv -[Z.mul Z.add Z.eqb] in (c s) in
      let Hx := fresh in
      assert (Hx : c s = t) by (cbv -[Z.mul Z.add Z.eqb]; reflexivity);
      rewrite Hx; clear Hx; cbv iota beta
  end.

(** [root.set(PInt c)] for the root, node 0, of a chain over [PInt a]:
    up to the comparison of the old and the new value. *)
Ltac crun_set_root a c :=
  rewrite bind_run;
  erewrite (set_run fuel 0 0 (PInt c) _ _ _ [0] _ 0);
  [ idtac
  | cbv -[Z.mul Z.add Z.eqb]; reflexivity
  | eapply walk_root; [cbv -[Z.mul Z.add Z.eqb]; reflexivity | reflexivity]
  | cbv; lia
  | cbv -[Z.mul Z.add Z.eqb]; reflexivity
  | reflexivity
  | cbv -[Z.mul Z.add Z.eqb]; reflexivity ];
  rewrite bind_run; unfold set_param at 1; crun; crun;
  change (same_value (PInt a) (PInt c)) with (Z.eqb a c).



(** C6: when a dirty node's input evaluates to [obj] and applying the
    node's operation to it raises [e], [eval()] raises that same [e],
    in the store as the operation left it; in a store where every node
    refers to older nodes only, as construction makes them, the node's
    cached value is the one it had and the node is still dirty. *)
Theorem failed_operator_keeps_node_dirty {V F : Type} {H : Host V F}
    (n r : nat) (s s1 s2 : store V F) (nd : node V F) (obj : V)
    (op : operation V F) (e : exn) :
  older s ->
  nodes s !! r = Some nd -> n_dirty nd = true -> n_operation nd = Some op ->
  match n_prev nd with
  | None => get_obj (eval n) r
  | Some p => eval n p
  end s = (Ok obj, s1) ->
  _eval_operation n obj op s1 = (Raise e, s2) ->
  eval (S n) r s = (Raise e, s2) /\
  exists nd2, nodes s2 !! r = Some nd2 /\
              n_dirty nd2 = true /\ n_current nd2 = n_current nd.
Proof.
  intros Hold Hr Hdirty Hop Hin Hfail.
  destruct (Hold r nd Hr) as (Hprev & Hrefs & _).
  assert (steps eq same_frame
            (match n_prev nd with
             | None => get_obj (eval n) r
             | Some p => eval n p
             end)) as Hsteps by mono_tac.
  pose proof (Hsteps s) as Hset. rewrite Hin in Hset. simpl in Hset.
  destruct (proj2 Hset r nd Hr) as (nd1 & Hr1 & Hf1).
  split.
  - cbn [eval]. rewrite bind_run. unfold get_node at 1. rewrite Hr, Hdirty.
    cbn [negb]. rewrite bind_run, Hin, bind_run.
    unfold get_node at 1. rewrite Hr1, bind_run, (sf_operation _ _ Hf1), Hop.
    unfold _eval_operation in Hfail. by rewrite Hfail.
  - assert (untouched_from r s s1) as Hu1.
    { assert (calm r (match n_prev nd with
                      | None => get_obj (eval n) r
                      | Some p => eval n p
                      end)) as Hcalm.
      { destruct (n_prev nd) as [p|].
        - apply calm_eval. by apply Hprev.
        - apply calm_get_obj; [intros; mono_tac|].
          intros q Hq. by apply calm_eval. }
      specialize (Hcalm s Hold I). by rewrite Hin in Hcalm. }
    assert (older s1) as Hold1 by (by eapply older_settled).
    assert (untouched_from r s1 s2) as Hu2.
    { assert (calm r (eval_operation_with (eval n) obj op)) as Hcalm.
      { apply calm_eval_operation_with; [intros; mono_tac|].
        intros a Ha. apply calm_eval. by eapply Hrefs. }
      specialize (Hcalm s1 Hold1 I). unfold _eval_operation in Hfail.
      by rewrite Hfail in Hcalm. }
    destruct (untouched_trans _ _ _ _ Hu1 Hu2 r nd (le_n r) Hr)
      as (nd2 & Hr2 & Hd2 & Hc2).
    exists nd2. split; [done|]. split; congruence.
Qed.

Lemma stale_store_older : older stale_store.
Proof.
  intros r nd Hr.
  destruct r as [|[|[|r]]]; vm_compute in Hr; [| | |discriminate];
    injection Hr as <-; (split; [|split]).
  all: try (intros p; discriminate).
  all: try (intros op a; discriminate).
  all: try (intros q Hq; vm_compute in Hq; by apply elem_of_nil in Hq).
  - intros p [= <-]. lia.
  - intros op a [= <-] Ha. vm_compute in Ha. by apply elem_of_nil in Ha.
Qed.

Lemma failed_operator_keeps_node_dirty_witness :
  older stale_store /\
  exists s2 nd2,
    eval (S fuel) 2 stale_store = (Raise TypeError, s2) /\
    nodes s2 !! 2 = Some nd2 /\ n_dirty nd2 = true /\
    n_current nd2 = PInt 5.
Proof.
  split; [exact stale_store_older|].
  edestruct (failed_operator_keeps_node_dirty fuel 2 stale_store)
    as [Hev (nd2 & Hr2 & Hd2 & Hc2)].
  - exact stale_store_older.
  - vm_compute. reflexivity.
  - reflexivity.
  - reflexivity.
  - vm_compute. reflexivity.
  - vm_compute. reflexivity.
  - eexists _, nd2. split; [exact Hev|]. split; [exact Hr2|].
    split; [exact Hd2 | exact Hc2].
Defined.







(** * Further properties of the engine *)

Section EvalFacts.
Context {V F : Type} {H : Host V F}.

#[local] Abbreviation node := (node V F).
#[local] Abbreviation store := (store V F).

(** X1: [eval], whether it returns or raises, makes no node and leaves
    every node its producer, wrapper, operation, depth, previous node,
    keywords and pending accessor, and its shared cell once it has one:
    it writes caches and dirty flags only. *)
Theorem eval_writes_caches_only (n r : nat) (s : store) :
  quiet s (eval n r s).2.
Proof. apply (steps_eval eq same_but_memo). Qed.

(** X2: [set], whether it returns or raises, makes no node and changes no
    node but for caches and dirty flags; when it returns, it returns the
    node it was called on. *)
Theorem set_returns_self (n r : nat) (new : V) (s : store) :
  quiet s (set n r new s).2 /\
  match (set n r new s).1 with
  | Ok x => x = r
  | Raise _ => True
  end.
Proof.
  split; [apply (steps_set eq same_but_memo)|].
  unfold set. rewrite !bind_run.
  destruct (touch n r s) as [[[]|e] s1]; [|done].
  rewrite bind_run.
  by destruct (set_walk n n (Some r) new s1) as [[[]|e] s2].
Qed.

(** On a node that is not dirty, [eval] changes nothing at all, and so
    calls nothing; it returns [_current_], unless reading the pending
    accessor off it raises. *)
Lemma eval_cached (m r : nat) (s : store) nd :
  nodes s !! r = Some nd -> n_dirty nd = false ->
  (eval (S m) r s).2 = s /\
  ((eval (S m) r s).1 = Ok (n_current nd) \/
   exists e, (eval (S m) r s).1 = Raise e) /\
  (method_set (n_method nd) = None ->
   (eval (S m) r s).1 = Ok (n_current nd)).
Proof.
  intros Hr Hd.
  assert (eval (S m) r s = (do _ <~ touch_tail r ;> ret (n_current nd)) s) as ->.
  { cbn [eval]. rewrite bind_run. unfold get_node at 1. rewrite Hr.
    by rewrite Hd. }
  rewrite bind_run.
  destruct (touch_tail r s) as [[[]|e] s1] eqn:Ht;
    pose proof (touch_tail_pure _ _ _ _ Ht) as ->; simpl.
  - split; [done|]. split; [by left|done].
  - split; [done|]. split; [eauto|]. intros Hm.
    unfold touch_tail in Ht. rewrite bind_run in Ht. unfold get_node in Ht.
    rewrite Hr in Ht. cbv iota in Ht. rewrite Hm in Ht. discriminate.
Qed.

(** An [eval] that returns leaves the node clean, and, with no accessor
    pending, holding the value returned. *)
Lemma eval_success_current n r (s : store) v s' :
  eval n r s = (Ok v, s') ->
  exists nd, nodes s' !! r = Some nd /\ n_dirty nd = false /\
             (method_set (n_method nd) = None -> n_current nd = v).
Proof.
  destruct n as [|n]; [discriminate|]. cbn [eval]. intros Hrun.
  hstep_any Hrun; [|discriminate].
  unfold get_node in Heqp. destruct (nodes s !! r) as [nd|] eqn:Hr; [|discriminate].
  injection Heqp as <- <-.
  destruct (n_dirty nd) eqn:Hd; simpl in Hrun.
  2:{ hstep_any Hrun; [|discriminate]. injection Hrun as <- <-.
      apply touch_tail_pure in Heqp as ->. eauto. }
  hstep_any Hrun; [|discriminate]. hstep_any Hrun; [|discriminate].
  hstep_any Hrun; [|discriminate]. hstep_any Hrun; [|discriminate].
  hstep_any Hrun; [|discriminate].
  unfold upd_node in Heqp2, Heqp3.
  injection Heqp2 as <- <-. injection Heqp3 as <- <-.
  hstep_any Hrun; [|discriminate].
  unfold get_node in Heqp2. simpl in Heqp2.
  destruct (alter _ r _ !! r) as [nd2|] eqn:Hr2; [|discriminate].
  injection Heqp2 as <- <-.
  hstep_any Hrun; [|discriminate]. hstep_any Hrun; [|discriminate].
  injection Hrun as <- <-.
  assert (s4 = s3) as ->.
  { destruct (is_callable a2); [by eapply touch_tail_pure|].
    by injection Heqp3 as _ <-. }
  assert (s3 = Store (alter (set_dirty false) r
                        (alter (set_current a1) r (nodes s2)))
                     (cells s2) (owners s2) (watchers s2) (log s2)) as ->.
  { destruct (method_set (n_method nd2)); [|by injection Heqp2 as _ <-].
    unfold lift in Heqp2. by injection Heqp2 as _ <-. }
  simpl. exists nd2. split; [done|].
  rewrite list_lookup_alter_eq in Hr2.
  destruct (alter (set_current a1) r (nodes s2) !! r) as [x|] eqn:Hx; [|discriminate].
  rewrite list_lookup_alter_eq in Hx.
  destruct (nodes s2 !! r) as [y|]; [|discriminate].
  injection Hx as <-. injection Hr2 as <-. simpl. split; [done|].
  intros Hm. simpl in Heqp2. rewrite Hm in Heqp2. by injection Heqp2 as ->.
Qed.

(** X3: after an [eval] that returned, a further [eval] of the node
    changes nothing in the store, so it calls nothing; with no accessor
    pending on the node it returns the same value again. *)
Theorem eval_again_is_cached n m r (s : store) v s' :
  eval n r s = (Ok v, s') ->
  (eval (S m) r s').2 = s' /\
  (forall nd, nodes s' !! r = Some nd -> method_set (n_method nd) = None ->
     (eval (S m) r s').1 = Ok v).
Proof.
  intros Hrun.
  destruct (eval_success_current _ _ _ _ _ Hrun) as (nd & Hr & Hd & Hv).
  destruct (eval_cached m r s' nd Hr Hd) as (Hs & _ & Hc).
  split; [done|]. intros nd' Hr' Hm. rewrite Hr in Hr'. injection Hr' as <-.
  by rewrite (Hc Hm), (Hv Hm).
Qed.

Lemma resolve_args_values (ev : nat -> M V F V) (vs : list V) (s : store) :
  resolve_args ev (map OVal vs) s = (Ok vs, s).
Proof.
  induction vs as [|v vs IH]; [done|].
  cbn [map resolve_args]. rewrite bind_run. cbn [resolve_arg]. unfold ret at 1.
  rewrite bind_run. by rewrite IH.
Qed.

Lemma resolve_kwargs_values (ev : nat -> M V F V) (kws : list (string * V))
    (s : store) :
  resolve_kwargs ev (map (fun kv => (kv.1, OVal kv.2)) kws) s = (Ok kws, s).
Proof.
  induction kws as [|[k v] kws IH]; [done|].
  cbn [map resolve_kwargs fst snd]. rewrite bind_run. cbn [resolve_arg].
  unfold ret at 1. rewrite bind_run. by rewrite IH.
Qed.

(** X4: an operation whose operands are plain values calls the operator
    once, on the value so far followed by the operands; a reversed one
    on the first operand, the value so far, then the other operands;
    a reversed one without operands raises IndexError and calls
    nothing. *)
Theorem operator_operands_in_order n (f : F) (reverse : bool) (obj : V)
    (vs : list V) (kws : list (string * V)) (s : store) :
  _eval_operation n obj
    (Operation (FnCall f) (ArgSeq (map OVal vs))
               (map (fun kv => (kv.1, OVal kv.2)) kws) reverse) s =
  match reverse, vs with
  | true, [] => (Raise IndexError, s)
  | true, a :: rest =>
      (call_fn f (a :: obj :: rest) kws,
       Store (nodes s) (cells s) (owners s) (watchers s)
             (log s ++ [EvFn f (a :: obj :: rest) kws]))
  | false, _ =>
      (call_fn f (obj :: vs) kws,
       Store (nodes s) (cells s) (owners s) (watchers s)
             (log s ++ [EvFn f (obj :: vs) kws]))
  end.
Proof.
  unfold _eval_operation, eval_operation_with. cbn [op_args op_kwargs op_fn
    op_reverse args_items].
  rewrite bind_run, resolve_args_values, bind_run, resolve_kwargs_values.
  unfold apply_fn. destruct reverse; [destruct vs as [|a rest]|]; done.
Qed.

(** X5: an operation that names a method calls that method of the value
    so far with the operands in order, whatever its [reverse] flag. *)
Theorem method_operation_ignores_reverse n (name : string) (reverse : bool)
    (obj : V) (vs : list V) (kws : list (string * V)) (s : store) :
  _eval_operation n obj
    (Operation (FnMethod name) (ArgSeq (map OVal vs))
               (map (fun kv => (kv.1, OVal kv.2)) kws) reverse) s =
  (call_method obj name vs kws,
   Store (nodes s) (cells s) (owners s) (watchers s)
         (log s ++ [EvMethod obj name vs kws])).
Proof.
  unfold _eval_operation, eval_operation_with. cbn [op_args op_kwargs op_fn
    op_reverse args_items].
  by rewrite bind_run, resolve_args_values, bind_run, resolve_kwargs_values.
Qed.

End EvalFacts.

Lemma eval_again_is_cached_witness :
  exists s',
    eval fuel 2 reset_product_store = (Ok (PInt 8), s') /\
    (eval 1 2 s').2 = s' /\
    (forall nd, nodes s' !! 2 = Some nd -> method_set (n_method nd) = None ->
       (eval 1 2 s').1 = Ok (PInt 8)).
Proof.
  eexists. split; [vm_compute; reflexivity|].
  apply (eval_again_is_cached fuel 0 2 reset_product_store).
  vm_compute; reflexivity.
Defined.

Section Accessors.
Context {V F : Type} {H : Host V F}.

#[local] Abbreviation node := (node V F).
#[local] Abbreviation store := (store V F).

Lemma get_node_run r (s : store) nd {B} (k : node -> M V F B) :
  nodes s !! r = Some nd -> (do x <~ get_node r ;> k x) s = k nd s.
Proof. intros Hr. unfold bind, get_node. by rewrite Hr. Qed.

Lemma clone_length n r op copy kw (s : store) r' s' :
  _clone n r op copy kw s = (Ok r', s') ->
  length (nodes s') = S (length (nodes s)).
Proof.
  intros Hrun.
  apply clone_run in Hrun
    as [(e & [=] & _)|(s1 & nd1 & fn & w & Hq & _ & _ & _ & Hq' & _)].
  rewrite (quiet_length _ _ Hq'). simpl. rewrite length_app. simpl.
  rewrite (quiet_length _ _ Hq). lia.
Qed.

Lemma touch_clone_grows n r op copy kw (s : store) :
  lifted le same_but_memo s
    ((do _ <~ touch n r ;> _clone n r op copy kw) s).2.
Proof.
  assert (steps le same_but_memo
            (do _ <~ touch n r ;> _clone (V := V) (F := F) n r op copy kw))
    as Hs by mono_tac.
  apply Hs.
Qed.

(** X6: when [_resolve_accessor] is called on a node with an accessor
    pending, the node has none afterwards, whether the call returns or
    raises, and is otherwise as it was but for its cache; the node
    returned chains from it, one deeper, with the operation
    [getitem] on the accessor's name and no accessor pending. *)
Theorem resolve_accessor_clears_accessor n r (s : store) nd m :
  nodes s !! r = Some nd -> method_set (n_method nd) = Some m ->
  (exists nd', nodes (_resolve_accessor n r s).2 !! r = Some nd' /\
               n_method nd' = None /\ same_frame nd nd') /\
  (forall new, (_resolve_accessor n r s).1 = Ok new ->
     exists nd', nodes (_resolve_accessor n r s).2 !! new = Some nd' /\
                 new = length (nodes s) /\
                 n_prev nd' = Some r /\ n_depth nd' = n_depth nd + 1 /\
                 n_operation nd' =
                   Some (Operation (FnCall op_getitem) (ArgStr m) [] false) /\
                 n_method nd' = None).
Proof.
  intros Hr Hm.
  assert (n_method nd = Some m) as Hm'.
  { destruct (n_method nd) as [[|]|]; simpl in Hm; congruence. }
  set (op := Operation (FnCall op_getitem) (ArgStr m) [] false).
  assert (_resolve_accessor n r s =
          try_finally (do _ <~ touch n r ;> _clone n r (Some op) false [])
            (upd_node r (set_method None)) s) as ->.
  { unfold _resolve_accessor. rewrite (get_node_run r s nd) by done.
    by rewrite Hm, Hm'. }
  unfold try_finally.
  pose proof (touch_clone_grows n r (Some op) false [] s) as Hg.
  destruct ((do _ <~ touch n r ;> _clone n r (Some op) false []) s)
    as [res s1] eqn:Hrun.
  simpl in Hg. unfold upd_node. simpl.
  destruct (proj2 Hg r nd Hr) as (nd1 & Hr1 & Hf1 & Hm1).
  split.
  - exists (set_method None nd1). rewrite list_lookup_alter_eq, Hr1.
    split; [done|]. split; [done|]. destruct Hf1; by constructor.
  - intros new ->.
    rewrite bind_run in Hrun.
    destruct (touch n r s) as [[[]|e] s0] eqn:Ht; [|discriminate].
    pose proof (steps_touch eq same_but_memo n r s) as Hq. rewrite Ht in Hq.
    simpl in Hq.
    destruct (proj2 Hq r nd Hr) as (nd0 & Hr0 & Hf0 & Hm0).
    destruct (clone_success _ _ _ _ _ _ _ _ Hrun)
      as (ndx & nd' & ndr & c & Hx & -> & Hnew & _ & _ & Hd & Hp & Ho & Hme & _).
    rewrite Hr0 in Hx. injection Hx as <-.
    assert (length (nodes s0) <> r) as Hne.
    { apply lookup_lt_Some in Hr0. lia. }
    exists nd'. rewrite list_lookup_alter_ne by lia.
    split; [done|]. split; [by rewrite (quiet_length _ _ Hq)|].
    split; [done|]. split; [by rewrite Hd, (sf_depth _ _ Hf0)|]. done.
Qed.

End Accessors.

Lemma resolve_accessor_clears_accessor_witness :
  exists nd,
    nodes accessor_store !! 1 = Some nd /\
    method_set (n_method nd) = Some "A" /\
    (exists nd', nodes (_resolve_accessor fuel 1 accessor_store).2 !! 1 = Some nd' /\
                 n_method nd' = None /\ same_frame nd nd') /\
    (forall new, (_resolve_accessor fuel 1 accessor_store).1 = Ok new ->
       exists nd', nodes (_resolve_accessor fuel 1 accessor_store).2 !! new = Some nd' /\
                   new = length (nodes accessor_store) /\
                   n_prev nd' = Some 1 /\ n_depth nd' = n_depth nd + 1 /\
                   n_operation nd' =
                     Some (Operation (FnCall op_getitem) (ArgStr "A") [] false) /\
                   n_method nd' = None).
Proof.
  eexists. split; [vm_compute; reflexivity|]. split; [vm_compute; reflexivity|].
  apply (resolve_accessor_clears_accessor fuel 1 accessor_store);
    vm_compute; reflexivity.
Defined.

Section Building.
Context {V F : Type} {H : Host V F}.

#[local] Abbreviation node := (node V F).
#[local] Abbreviation store := (store V F).

Lemma grows_of_quiet (s s' : store) :
  quiet s s' -> lifted le same_but_memo s s'.
Proof. apply lifted_weaken; [intros a b ->; lia | done]. Qed.

(** X7: [__call__], whether it returns or raises, leaves every node
    that was there its pending accessor, as well as its producer,
    wrapper, operation, depth, previous node and keywords: the accessor
    that is reset after the call is the one of the copy made for it. *)
Theorem call_leaves_accessors n r args kwargs (s : store) :
  lifted le same_but_memo s (__call__ n r args kwargs s).2.
Proof.
  unfold __call__.
  destruct (has_key ["self"] kwargs); [apply (lifted_refl le same_but_memo)|].
  destruct (nodes s !! r) as [nd|] eqn:Hr.
  2:{ unfold bind at 1, get_node at 1. rewrite Hr.
      apply (lifted_refl le same_but_memo). }
  rewrite (get_node_run r s nd) by done.
  destruct (n_method nd) as [m|].
  2:{ lazymatch goal with
      | |- lifted _ _ _ (?c s).2 =>
          assert (steps le same_but_memo c) as Hs by mono_tac; apply Hs
      end. }
  rewrite bind_run.
  pose proof (steps_touch eq same_but_memo n r s) as Ht.
  destruct (touch n r s) as [[[]|e] s0]; simpl in Ht;
    [|by apply grows_of_quiet].
  rewrite bind_run.
  pose proof (steps_clone le same_but_memo n r None true [] s0) as Hc.
  destruct (_clone n r None true [] s0) as [[new|e] s1] eqn:Hrun; simpl in Hc.
  2:{ eapply (lifted_trans le same_but_memo); [by apply grows_of_quiet | done]. }
  destruct (clone_success _ _ _ _ _ _ _ _ Hrun) as (_ & _ & _ & _ & _ & -> & _).
  unfold try_finally.
  lazymatch goal with
  | |- context [ let (_, _) := ?c s1 in _ ] =>
      assert (steps le same_but_memo c) as Hs by mono_tac;
      specialize (Hs s1); destruct (c s1) as [res s2]
  end.
  simpl in Hs |- *.
  pose proof (lifted_trans le same_but_memo _ _ _ (grows_of_quiet _ _ Ht)
                (lifted_trans le same_but_memo _ _ _ Hc Hs)) as [Hl Hn].
  split; [simpl; by rewrite length_alter|].
  intros i ndi Hi. simpl.
  destruct (Hn i ndi Hi) as (nd2 & Hi2 & Hf).
  exists nd2. split; [|done].
  rewrite list_lookup_alter_ne; [done|].
  apply lookup_lt_Some in Hi. rewrite (quiet_length _ _ Ht). lia.
Qed.

(** [_resolve_accessor] when it returns: the node it made, against the
    node [nd] it was called on. *)
Lemma resolve_accessor_success n r (s : store) new s' nd :
  nodes s !! r = Some nd -> _resolve_accessor n r s = (Ok new, s') ->
  new = length (nodes s) /\ length (nodes s') = S (length (nodes s)) /\
  same_cell s' r new /\
  exists nd', nodes s' !! new = Some nd' /\ n_depth nd' = n_depth nd + 1 /\
    match method_set (n_method nd) with
    | None => n_prev nd' = n_prev nd /\ n_operation nd' = n_operation nd /\
              n_method nd' = n_method nd
    | Some m => n_prev nd' = Some r /\
                n_operation nd' =
                  Some (Operation (FnCall op_getitem) (ArgStr m) [] false) /\
                n_method nd' = None
    end.
Proof.
  intros Hr Hrun.
  pose proof (resolve_accessor_same_cell _ _ _ _ _ Hrun) as Hcell.
  unfold _resolve_accessor in Hrun. rewrite (get_node_run r s nd) in Hrun by done.
  pose proof (steps_touch eq same_but_memo n r s) as Hq.
  destruct (method_set (n_method nd)) as [m|] eqn:Hm.
  - assert (n_method nd = Some m) as Hm'.
    { destruct (n_method nd) as [[|]|]; simpl in Hm; congruence. }
    rewrite Hm' in Hrun. unfold try_finally in Hrun.
    rewrite bind_run in Hrun.
    destruct (touch n r s) as [[[]|e] s0] eqn:Ht; [|discriminate].
    simpl in Hq. destruct (proj2 Hq r nd Hr) as (nd0 & Hr0 & Hf0 & Hm0).
    destruct (_clone n r _ false [] s0) as [[x|e] s1] eqn:Hc; [|discriminate].
    simpl in Hrun. injection Hrun as <- <-.
    pose proof (clone_length _ _ _ _ _ _ _ _ Hc) as Hlen.
    destruct (clone_success _ _ _ _ _ _ _ _ Hc)
      as (ndx & nd' & ndr & c & Hx & -> & Hnew & _ & _ & Hd & Hp & Ho & Hme & _).
    rewrite Hr0 in Hx. injection Hx as <-.
    rewrite (quiet_length _ _ Hq) in *.
    split; [done|]. split; [simpl; by rewrite length_alter|]. split; [done|].
    exists nd'. simpl. apply lookup_lt_Some in Hr.
    rewrite list_lookup_alter_ne by lia.
    split; [done|]. split; [by rewrite Hd, (sf_depth _ _ Hf0)|]. done.
  - rewrite bind_run in Hrun.
    destruct (touch n r s) as [[[]|e] s0] eqn:Ht; [|discriminate].
    simpl in Hq. destruct (proj2 Hq r nd Hr) as (nd0 & Hr0 & Hf0 & Hm0).
    pose proof (clone_length _ _ _ _ _ _ _ _ Hrun) as Hlen.
    destruct (clone_success _ _ _ _ _ _ _ _ Hrun)
      as (ndx & nd' & ndr & c & Hx & -> & Hnew & _ & _ & Hd & Hp & Ho & Hme & _).
    rewrite Hr0 in Hx. injection Hx as <-.
    rewrite (quiet_length _ _ Hq) in *.
    split; [done|]. split; [done|]. split; [done|].
    exists nd'. split; [done|].
    split; [by rewrite Hd, (sf_depth _ _ Hf0)|].
    by rewrite Hp, Ho, Hme, (sf_prev _ _ Hf0), (sf_operation _ _ Hf0), Hm0.
Qed.

(** X8: an operator application that returns has made exactly two
    nodes: the resolved copy of the node it was applied to, and, chained
    from that copy, the node it returns, which is two deeper than the
    node it was applied to, carries the operator with its operands and
    [reverse] flag as given, and has no accessor pending. *)
Theorem operator_makes_two_nodes n r (f : F) args reverse kwargs
    (s : store) new s' nd :
  nodes s !! r = Some nd ->
  _apply_operator n r f args reverse kwargs s = (Ok new, s') ->
  length (nodes s') = length (nodes s) + 2 /\
  new = length (nodes s) + 1 /\
  exists nd', nodes s' !! new = Some nd' /\
    n_operation nd' =
      Some (Operation (FnCall f) (ArgSeq args) kwargs reverse) /\
    n_prev nd' = Some (length (nodes s)) /\
    n_depth nd' = n_depth nd + 2 /\
    n_method nd' = None.
Proof.
  intros Hr Hrun. unfold _apply_operator in Hrun.
  rewrite bind_run in Hrun.
  pose proof (steps_touch eq same_but_memo n r s) as Hq1.
  destruct (touch n r s) as [[[]|e] s1]; [|discriminate]. simpl in Hq1.
  rewrite bind_run in Hrun.
  pose proof (steps_touch eq same_but_memo n r s1) as Hq2.
  destruct (touch n r s1) as [[[]|e] s2]; [|discriminate]. simpl in Hq2.
  pose proof (quiet_trans _ _ _ Hq1 Hq2) as Hq.
  destruct (proj2 Hq r nd Hr) as (nd2 & Hr2 & Hf2 & Hm2).
  rewrite bind_run in Hrun.
  destruct (_resolve_accessor n r s2) as [[x|e] s3] eqn:Hres; [|discriminate].
  destruct (resolve_accessor_success _ _ _ _ _ _ Hr2 Hres)
    as (-> & Hlen3 & _ & ndx & Hx & Hdx & _).
  cbv zeta in Hrun. rewrite bind_run in Hrun.
  pose proof (steps_touch eq same_but_memo n (length (nodes s2)) s3) as Hq3.
  destruct (touch n (length (nodes s2)) s3) as [[[]|e] s4]; [|discriminate].
  simpl in Hq3.
  destruct (proj2 Hq3 _ _ Hx) as (ndx4 & Hx4 & Hf4 & Hm4).
  pose proof (clone_length _ _ _ _ _ _ _ _ Hrun) as Hlen.
  destruct (clone_success _ _ _ _ _ _ _ _ Hrun)
    as (ndy & nd' & _ & _ & Hy & -> & Hnew & _ & _ & Hd & Hp & Ho & Hme & _).
  rewrite Hx4 in Hy. injection Hy as <-.
  rewrite Hlen, (quiet_length _ _ Hq3), Hlen3, (quiet_length _ _ Hq).
  split; [lia|]. split; [lia|]. exists nd'.
  rewrite (quiet_length _ _ Hq3), Hlen3, (quiet_length _ _ Hq) in Hnew.
  split; [by replace (length (nodes s) + 1) with (S (length (nodes s))) by lia|].
  split; [done|].
  split; [by rewrite Hp, (quiet_length _ _ Hq)|].
  split; [|done].
  rewrite Hd, (sf_depth _ _ Hf4), Hdx, (sf_depth _ _ Hf2). lia.
Qed.

(** X9: an attribute read that is intercepted returns a node made by
    the read, with the name as its pending accessor, holding the same
    cell as the node read from, one deeper.  When the node read from
    had no accessor pending the new node is a copy of it: same previous
    node, same operation.  When it had one, the new node chains from it
    and indexes by that accessor's name.  No name of [no_lookup] and
    no public name of the class itself is intercepted. *)
Theorem attribute_makes_pending_accessor n r name (s : store) new s' nd :
  nodes s !! r = Some nd ->
  __getattribute__ n r name s = (Ok (Intercepted new), s') ->
  (name ∉ no_lookup) /\ (name ∉ own_public) /\
  new = length (nodes s) /\ same_cell s' r new /\
  exists nd', nodes s' !! new = Some nd' /\
    n_method nd' = Some name /\ n_depth nd' = n_depth nd + 1 /\
    match method_set (n_method nd) with
    | None => n_prev nd' = n_prev nd /\ n_operation nd' = n_operation nd
    | Some m => n_prev nd' = Some r /\
                n_operation nd' =
                  Some (Operation (FnCall op_getitem) (ArgStr m) [] false)
    end.
Proof.
  intros Hr Hrun.
  pose proof (getattribute_same_cell _ _ _ _ _ _ Hrun) as Hcell.
  unfold __getattribute__ in Hrun.
  destruct (decide (name ∈ no_lookup)) as [|Hno]; [discriminate|].
  rewrite (get_node_run r s nd) in Hrun by done.
  rewrite bind_run in Hrun.
  assert (steps eq same_but_memo
            (if n_dirty nd then do _ <~ eval n r ;> ret tt else ret tt))
    as Hs by (destruct (n_dirty nd); mono_tac).
  specialize (Hs s).
  destruct ((if n_dirty nd then do _ <~ eval n r ;> ret tt else ret tt) s)
    as [[[]|e] s1]; [|discriminate].
  simpl in Hs. destruct (proj2 Hs r nd Hr) as (nd1 & Hr1 & Hf1 & Hm1).
  rewrite (get_node_run r s1 nd1) in Hrun by done.
  rewrite bind_run in Hrun.
  assert (exists current,
            match method_set (n_method nd1) with
            | Some m => lift (py_getattr (n_current nd1) m)
            | None => ret (n_current nd1)
            end s1 = (Ok current, s1) \/
          exists e,
            match method_set (n_method nd1) with
            | Some m => lift (py_getattr (n_current nd1) m)
            | None => ret (n_current nd1)
            end s1 = (Raise e, s1)) as Hcur.
  { destruct (method_set (n_method nd1)) as [m|]; [|by eexists; left].
    unfold lift. destruct (py_getattr (n_current nd1) m) as [c|e];
      [exists c; by left | exists (n_current nd1); right; by exists e]. }
  destruct Hcur as (current & [Hcur|(e & Hcur)]); rewrite Hcur in Hrun;
    [|discriminate].
  destruct (decide _) as [[_ Hpub]|]; [|discriminate].
  rewrite bind_run in Hrun.
  pose proof (steps_touch eq same_but_memo n r s1) as Hq2.
  destruct (touch n r s1) as [[[]|e] s2]; [|discriminate]. simpl in Hq2.
  destruct (proj2 Hq2 r nd1 Hr1) as (nd2 & Hr2 & Hf2 & Hm2).
  rewrite bind_run in Hrun.
  destruct (_resolve_accessor n r s2) as [[x|e] s3] eqn:Hres; [|discriminate].
  destruct (resolve_accessor_success _ _ _ _ _ _ Hr2 Hres)
    as (-> & Hlen3 & _ & ndx & Hx & Hdx & Hmatch).
  rewrite bind_run in Hrun. unfold upd_node at 1 in Hrun. cbv iota in Hrun.
  injection Hrun as <- <-.
  rewrite (quiet_length _ _ Hq2), (quiet_length _ _ Hs) in *.
  split; [done|]. split; [done|]. split; [done|]. split; [done|].
  exists (set_method (Some name) ndx). simpl.
  rewrite list_lookup_alter_eq, Hx. split; [done|]. split; [done|].
  split; [by rewrite Hdx, (sf_depth _ _ Hf2), (sf_depth _ _ Hf1)|].
  rewrite Hm2, Hm1 in Hmatch.
  destruct (method_set (n_method nd)) as [m|].
  - by destruct Hmatch as (-> & -> & _).
  - destruct Hmatch as (-> & -> & _).
    by rewrite (sf_prev _ _ Hf2), (sf_prev _ _ Hf1),
      (sf_operation _ _ Hf2), (sf_operation _ _ Hf1).
Qed.

(** X10: a call on a node with an accessor pending, when it returns,
    has made exactly two nodes: a copy of the called node, and, chained
    from the copy, the node it returns, two deeper than the called
    node, whose operation is the method named by the accessor with the
    arguments of the call, not reversed, and which has no accessor
    pending. *)
Theorem call_makes_method_node n r args kwargs (s : store) new s' nd m :
  nodes s !! r = Some nd -> n_method nd = Some m ->
  __call__ n r args kwargs s = (Ok new, s') ->
  length (nodes s') = length (nodes s) + 2 /\
  new = length (nodes s) + 1 /\
  exists nd', nodes s' !! new = Some nd' /\
    n_operation nd' =
      Some (Operation (FnMethod m) (ArgSeq args) kwargs false) /\
    n_prev nd' = Some (length (nodes s)) /\
    n_depth nd' = n_depth nd + 2 /\
    n_method nd' = None.
Proof.
  intros Hr Hm Hrun. unfold __call__ in Hrun.
  destruct (has_key ["self"] kwargs); [discriminate|].
  rewrite (get_node_run r s nd) in Hrun by done. rewrite Hm in Hrun.
  rewrite bind_run in Hrun.
  pose proof (steps_touch eq same_but_memo n r s) as Hq.
  destruct (touch n r s) as [[[]|e] s1]; [|discriminate]. simpl in Hq.
  destruct (proj2 Hq r nd Hr) as (nd1 & Hr1 & Hf1 & Hm1).
  rewrite bind_run in Hrun.
  destruct (_clone n r None true [] s1) as [[x|e] s2] eqn:Hc; [|discriminate].
  pose proof (clone_length _ _ _ _ _ _ _ _ Hc) as Hlen2.
  destruct (clone_success _ _ _ _ _ _ _ _ Hc)
    as (ndy & ndx & _ & _ & Hy & -> & Hx & _ & _ & Hdx & _ & _ & Hmx & _).
  rewrite Hr1 in Hy. injection Hy as <-.
  apply try_finally_run in Hrun as (s3 & Hrun & Hfin).
  rewrite (get_node_run _ s2 ndx) in Hrun by done.
  rewrite Hmx, Hm1, Hm in Hrun. cbv zeta in Hrun.
  rewrite bind_run in Hrun.
  pose proof (steps_touch eq same_but_memo n (length (nodes s1)) s2) as Hq3.
  destruct (touch n (length (nodes s1)) s2) as [[[]|e] s4]; [|discriminate].
  simpl in Hq3.
  destruct (proj2 Hq3 _ _ Hx) as (ndx4 & Hx4 & Hf4 & Hm4).
  pose proof (clone_length _ _ _ _ _ _ _ _ Hrun) as Hlen.
  destruct (clone_success _ _ _ _ _ _ _ _ Hrun)
    as (ndz & nd' & _ & _ & Hz & -> & Hnew & _ & _ & Hd & Hp & Ho & Hme & _).
  rewrite Hx4 in Hz. injection Hz as <-.
  unfold upd_node in Hfin. injection Hfin as <-. simpl.
  rewrite length_alter, Hlen, (quiet_length _ _ Hq3), Hlen2, (quiet_length _ _ Hq).
  split; [lia|]. split; [lia|]. exists nd'.
  rewrite list_lookup_alter_ne by lia.
  rewrite (quiet_length _ _ Hq3), Hlen2, (quiet_length _ _ Hq) in Hnew.
  split; [by replace (length (nodes s) + 1) with (S (length (nodes s))) by lia|].
  split; [done|].
  split; [by rewrite Hp, (quiet_length _ _ Hq)|].
  split; [|done].
  rewrite Hd, (sf_depth _ _ Hf4), Hdx, (sf_depth _ _ Hf1). lia.
Qed.

End Building.

Lemma operator_makes_two_nodes_witness :
  exists nd new s',
    nodes root_store !! 0 = Some nd /\
    _apply_operator fuel 0 op_mul [OVal (PInt 2)] false [] root_store
      = (Ok new, s') /\
    length (nodes s') = length (nodes root_store) + 2 /\
    new = length (nodes root_store) + 1 /\
    exists nd', nodes s' !! new = Some nd' /\
      n_operation nd' =
        Some (Operation (FnCall op_mul) (ArgSeq [OVal (PInt 2)]) [] false) /\
      n_prev nd' = Some (length (nodes root_store)) /\
      n_depth nd' = n_depth nd + 2 /\
      n_method nd' = None.
Proof.
  eexists _, _, _. split; [vm_compute; reflexivity|].
  split; [vm_compute; reflexivity|].
  eapply (operator_makes_two_nodes fuel 0 op_mul [OVal (PInt 2)] false []
            root_store);
    vm_compute; reflexivity.
Defined.

Lemma attribute_makes_pending_accessor_witness :
  exists nd new s',
    nodes accessor_store !! 1 = Some nd /\
    __getattribute__ fuel 1 "real" accessor_store
      = (Ok (Intercepted new), s') /\
    ("real" ∉ no_lookup) /\ ("real" ∉ own_public) /\
    new = length (nodes accessor_store) /\ same_cell s' 1 new /\
    exists nd', nodes s' !! new = Some nd' /\
      n_method nd' = Some "real" /\ n_depth nd' = n_depth nd + 1 /\
      match method_set (n_method nd) with
      | None => n_prev nd' = n_prev nd /\ n_operation nd' = n_operation nd
      | Some m => n_prev nd' = Some 1 /\
                  n_operation nd' =
                    Some (Operation (FnCall op_getitem) (ArgStr m) [] false)
      end.
Proof.
  eexists _, _, _. split; [vm_compute; reflexivity|].
  split; [vm_compute; reflexivity|].
  eapply (attribute_makes_pending_accessor fuel 1 "real" accessor_store);
    vm_compute; reflexivity.
Defined.

Lemma call_makes_method_node_witness :
  exists nd new s',
    nodes head_store !! 1 = Some nd /\
    n_method nd = Some "head" /\
    __call__ fuel 1 [OVal (PInt 1)] [] head_store = (Ok new, s') /\
    length (nodes s') = length (nodes head_store) + 2 /\
    new = length (nodes head_store) + 1 /\
    exists nd', nodes s' !! new = Some nd' /\
      n_operation nd' =
        Some (Operation (FnMethod "head") (ArgSeq [OVal (PInt 1)]) [] false) /\
      n_prev nd' = Some (length (nodes head_store)) /\
      n_depth nd' = n_depth nd + 2 /\
      n_method nd' = None.
Proof.
  eexists _, _, _. split; [vm_compute; reflexivity|].
  split; [vm_compute; reflexivity|].
  split; [vm_compute; reflexivity|].
  eapply (call_makes_method_node fuel 1 [OVal (PInt 1)] [] head_store);
    vm_compute; reflexivity.
Defined.

Section Operands.
Context {V : Type}.

Section Nested.
Context (P : operand V -> Prop).
Context (Hval : forall v, P (OVal v)) (Hnode : forall r, P (ONode r))
        (Hparam : forall o x, P (OParam o x)) (Hwidget : forall o, P (OWidget o))
        (Hslice : forall a b c, P a -> P b -> P c -> P (OSlice a b c))
        (Hlist : forall l, Forall P l -> P (OList l))
        (Htuple : forall l, Forall P l -> P (OTuple l))
        (Hdict : forall l, Forall (fun kv => P kv.1 /\ P kv.2) l -> P (ODict l)).

Lemma operand_nested_ind (a : operand V) : P a.
Proof.
  revert a. fix IH 1. intros [v|r|o x|o|a b c|l|l|l].
  - apply Hval.
  - apply Hnode.
  - apply Hparam.
  - apply Hwidget.
  - apply Hslice; apply IH.
  - apply Hlist. induction l as [|x l IHl]; constructor; [apply IH | exact IHl].
  - apply Htuple. induction l as [|x l IHl]; constructor; [apply IH | exact IHl].
  - apply Hdict. induction l as [|[k v] l IHl]; constructor;
      [split; apply IH | exact IHl].
Qed.

End Nested.

Lemma flatten_list (l : list (operand V)) :
  flatten_element (OList l) = flat_map flatten_element l.
Proof. simpl. induction l as [|x l IH]; [done|]. simpl. by rewrite IH. Qed.

Lemma flatten_tuple (l : list (operand V)) :
  flatten_element (OTuple l) = flat_map flatten_element l.
Proof. simpl. induction l as [|x l IH]; [done|]. simpl. by rewrite IH. Qed.

Lemma flatten_dict (l : list (operand V * operand V)) :
  flatten_element (ODict l) = flat_map (fun kv => flatten_element kv.1) l.
Proof. simpl. induction l as [|[k v] l IH]; [done|]. simpl. by rewrite IH. Qed.

Lemma flatten_leaf (a : operand V) :
  is_container a = false -> flatten_element a = [a].
Proof. by destruct a. Qed.

Lemma flatten_element_leaves (a : operand V) :
  Forall (fun e => is_container e = false) (flatten_element a).
Proof.
  induction a as [v|r|o x|o|a1 a2 a3 _ _ _|l IH|l IH|l IH] using operand_nested_ind;
    try (by repeat constructor).
  - rewrite flatten_list. induction IH as [|x l Hx _ IHl]; [constructor|].
    simpl. by apply Forall_app.
  - rewrite flatten_tuple. induction IH as [|x l Hx _ IHl]; [constructor|].
    simpl. by apply Forall_app.
  - rewrite flatten_dict. induction IH as [|[k v] l [Hk _] _ IHl]; [constructor|].
    simpl. by apply Forall_app.
Qed.

Lemma flatten_of_leaves (line : list (operand V)) :
  Forall (fun e => is_container e = false) line -> _flatten line = line.
Proof.
  unfold _flatten. induction 1 as [|x l Hx _ IH]; [done|].
  simpl. by rewrite (flatten_leaf x Hx), IH.
Qed.

Lemma flatten_line_leaves (line : list (operand V)) :
  Forall (fun e => is_container e = false) (_flatten line).
Proof.
  unfold _flatten. induction line as [|x l IH]; [constructor|].
  simpl. apply Forall_app. split; [apply flatten_element_leaves | done].
Qed.

(** X11: [_flatten] yields no list, tuple or dict; it leaves as it is
    a sequence that holds none, such as what is left of any sequence
    once its lists, tuples and dicts are taken out; and so it changes
    nothing when applied a second time. *)
Theorem flatten_yields_leaves (line : list (operand V)) :
  Forall (fun e => is_container e = false) (_flatten line) /\
  _flatten (filter (fun e => is_container e = false) line) =
    filter (fun e => is_container e = false) line /\
  _flatten (_flatten line) = _flatten line.
Proof.
  split; [apply flatten_line_leaves|]. split.
  - apply flatten_of_leaves. apply Forall_forall.
    by intros e [He _]%list_elem_of_filter.
  - apply flatten_of_leaves, flatten_line_leaves.
Qed.

Lemma elem_of_flat_map {A B} (f : A -> list B) (l : list A) (b : B) :
  b ∈ flat_map f l <-> exists a, a ∈ l /\ b ∈ f a.
Proof.
  induction l as [|x l IH]; simpl.
  - split; [by intros ?%elem_of_nil | by intros (a & ?%elem_of_nil & _)].
  - rewrite elem_of_app, IH. split.
    + intros [Hb|(a & Ha & Hb)]; [exists x | exists a]; split; try done;
        [left | by right].
    + intros (a & [->|Ha]%elem_of_cons & Hb); [by left | right; eauto].
Qed.

Lemma add_new_elem (ws : list nat) (w o : nat) :
  o ∈ add_new ws w <-> o ∈ ws \/ o = w.
Proof.
  unfold add_new. destruct (decide (w ∈ ws)) as [Hin|Hin].
  - split; [by left | by intros [?| ->]].
  - rewrite elem_of_app, list_elem_of_singleton. done.
Qed.

Lemma add_new_nodup (ws : list nat) (w : nat) : NoDup ws -> NoDup (add_new ws w).
Proof.
  intros Hn. unfold add_new. destruct (decide (w ∈ ws)) as [Hin|Hin]; [done|].
  apply NoDup_app. split; [done|]. split; [|apply NoDup_singleton].
  by intros x Hx ->%list_elem_of_singleton.
Qed.

Lemma foldl_add_new_elem (l ws : list nat) (o : nat) :
  o ∈ foldl add_new ws l <-> o ∈ ws \/ o ∈ l.
Proof.
  revert ws. induction l as [|w l IH]; intros ws; simpl.
  - split; [by left | by intros [?|?%elem_of_nil]].
  - rewrite IH, add_new_elem, elem_of_cons. tauto.
Qed.

Lemma foldl_add_new_nodup (l ws : list nat) :
  NoDup ws -> NoDup (foldl add_new ws l).
Proof.
  revert ws. induction l as [|w l IH]; intros ws Hn; simpl; [done|].
  by apply IH, add_new_nodup.
Qed.

(** The loop of [_find_widgets], over any way [f] to get the widgets of
    an element. *)
Lemma collect_elem {A} (f : A -> list nat) (es : list A) (ws : list nat) o :
  o ∈ foldl (fun ws e => foldl add_new ws (f e)) ws es <->
  o ∈ ws \/ exists e, e ∈ es /\ o ∈ f e.
Proof.
  revert ws. induction es as [|e es IH]; intros ws; simpl.
  - split; [by left | by intros [?|(e & ?%elem_of_nil & _)]].
  - rewrite IH, foldl_add_new_elem. split.
    + intros [[?|?]|(e' & ? & ?)]; [by left | right; exists e | right; exists e'];
        split; try done; [left | by right].
    + intros [?|(e' & [->|?]%elem_of_cons & ?)]; [by left; left | by left; right|].
      right. by exists e'.
Qed.

Lemma collect_nodup {A} (f : A -> list nat) (es : list A) (ws : list nat) :
  NoDup ws -> NoDup (foldl (fun ws e => foldl add_new ws (f e)) ws es).
Proof.
  revert ws. induction es as [|e es IH]; intros ws Hn; simpl; [done|].
  by apply IH, foldl_add_new_nodup.
Qed.

Lemma find_widgets_in_collect k (ows : list (owner V)) (args : list (operand V)) :
  find_widgets_in (S k) ows args =
  foldl (fun ws e => foldl add_new ws (found_in (find_widgets_in k ows) ows e))
        [] (_flatten args).
Proof.
  cbn [find_widgets_in]. generalize (@nil nat).
  induction (_flatten args) as [|e es IH]; intros ws; [done|].
  cbn [foldl]. rewrite IH. f_equal.
  destruct e as [| | o x|o| | | |]; simpl; try done;
    by destruct (is_widget ows o).
Qed.

Lemma size_list (l : list (operand V)) :
  operand_size (OList l) = S (list_sum (map operand_size l)).
Proof. simpl. f_equal. induction l as [|x l IH]; [done|]. simpl. by rewrite IH. Qed.

Lemma size_tuple (l : list (operand V)) :
  operand_size (OTuple l) = S (list_sum (map operand_size l)).
Proof. simpl. f_equal. induction l as [|x l IH]; [done|]. simpl. by rewrite IH. Qed.

Lemma size_dict (l : list (operand V * operand V)) :
  operand_size (ODict l) =
  S (list_sum (map (fun kv => operand_size kv.1 + operand_size kv.2) l)).
Proof.
  simpl. f_equal. induction l as [|[k v] l IH]; [done|]. simpl. by rewrite IH.
Qed.

Lemma size_elem (l : list (operand V)) e :
  e ∈ l -> operand_size e <= list_sum (map operand_size l).
Proof.
  induction 1 as [x l|x y l _ IH]; simpl; lia.
Qed.

Lemma size_flatten_element (a : operand V) :
  list_sum (map operand_size (flatten_element a)) <= operand_size a.
Proof.
  induction a as [v|r|o x|o|a1 a2 a3 _ _ _|l IH|l IH|l IH]
    using operand_nested_ind; try (simpl; lia).
  - rewrite flatten_list, size_list. apply Nat.le_le_succ_r.
    induction IH as [|x l Hx _ IHl]; [done|].
    simpl. rewrite map_app, list_sum_app. lia.
  - rewrite flatten_tuple, size_tuple. apply Nat.le_le_succ_r.
    induction IH as [|x l Hx _ IHl]; [done|].
    simpl. rewrite map_app, list_sum_app. lia.
  - rewrite flatten_dict, size_dict. apply Nat.le_le_succ_r.
    induction IH as [|[k v] l [Hk _] _ IHl]; [done|].
    simpl in *. rewrite map_app, list_sum_app. lia.
Qed.

Lemma size_flatten (line : list (operand V)) :
  list_sum (map operand_size (_flatten line)) <= list_sum (map operand_size line).
Proof.
  unfold _flatten. induction line as [|x l IH]; [done|].
  simpl. rewrite map_app, list_sum_app.
  pose proof (size_flatten_element x). lia.
Qed.

Lemma shows_flatten (ows : list (owner V)) (a : operand V) o :
  shows ows a o <-> exists e, e ∈ flatten_element a /\ shows ows e o.
Proof.
  induction a as [v|r|p x|p|a1 a2 a3 _ _ _|l IH|l IH|l IH]
    using operand_nested_ind;
    try (simpl; split;
         [intros Hs; eexists; split; [apply list_elem_of_singleton; reflexivity | done]
         |by intros (e & ->%list_elem_of_singleton & Hs)]).
  - rewrite flatten_list. rewrite Forall_forall in IH. split.
    + intros Hs. inversion Hs as [| | | | |l' a o' Ha Hsa| |]; subst.
      apply (IH a Ha) in Hsa as (e & He & Hse).
      exists e. split; [|done]. apply elem_of_flat_map. eauto.
    + intros (e & (a & Ha & He)%elem_of_flat_map & Hse).
      eapply shows_list; [exact Ha|]. apply (IH a Ha). eauto.
  - rewrite flatten_tuple. rewrite Forall_forall in IH. split.
    + intros Hs. inversion Hs as [| | | | | |l' a o' Ha Hsa|]; subst.
      apply (IH a Ha) in Hsa as (e & He & Hse).
      exists e. split; [|done]. apply elem_of_flat_map. eauto.
    + intros (e & (a & Ha & He)%elem_of_flat_map & Hse).
      eapply shows_tuple; [exact Ha|]. apply (IH a Ha). eauto.
  - rewrite flatten_dict. rewrite Forall_forall in IH. split.
    + intros Hs. inversion Hs as [| | | | | | |l' k v o' Hkv Hsk]; subst.
      apply (proj1 (IH (k, v) Hkv)) in Hsk as (e & He & Hse).
      exists e. split; [|done]. apply elem_of_flat_map. exists (k, v). eauto.
    + intros (e & ([k v] & Hkv & He)%elem_of_flat_map & Hse).
      eapply shows_dict; [exact Hkv|]. apply (proj1 (IH (k, v) Hkv)). eauto.
Qed.

Lemma shows_flatten_line (ows : list (owner V)) (args : list (operand V)) o :
  (exists a, a ∈ args /\ shows ows a o) <->
  (exists e, e ∈ _flatten args /\ shows ows e o).
Proof.
  unfold _flatten. split.
  - intros (a & Ha & (e & He & Hs)%shows_flatten).
    exists e. split; [|done]. apply elem_of_flat_map. eauto.
  - intros (e & (a & Ha & He)%elem_of_flat_map & Hs).
    exists a. split; [done|]. apply shows_flatten. eauto.
Qed.

Lemma found_in_shows rec (ows : list (owner V)) (e : operand V) o :
  is_container e = false ->
  (forall a b c, e = OSlice a b c ->
     (o ∈ rec [a; b; c] <-> exists x, x ∈ [a; b; c] /\ shows ows x o)) ->
  (o ∈ found_in rec ows e <-> shows ows e o).
Proof.
  intros Hleaf Hrec.
  destruct e as [v|r|p x|p|a b c|l|l|l]; try discriminate; simpl.
  - split; [by intros ?%elem_of_nil | intros Hs; inversion Hs].
  - split; [by intros ?%elem_of_nil | intros Hs; inversion Hs].
  - destruct (is_widget ows p) eqn:Hw.
    + split; [intros ->%list_elem_of_singleton; by constructor|].
      intros Hs. inversion Hs; subst. by apply list_elem_of_singleton.
    + split; [by intros ?%elem_of_nil|]. intros Hs. inversion Hs; congruence.
  - destruct (is_widget ows p) eqn:Hw.
    + split; [intros ->%list_elem_of_singleton; by constructor|].
      intros Hs. inversion Hs; subst. by apply list_elem_of_singleton.
    + split; [by intros ?%elem_of_nil|]. intros Hs. inversion Hs; congruence.
  - rewrite (Hrec a b c eq_refl). split.
    + intros (x & Hx & Hs). rewrite !elem_of_cons in Hx.
      destruct Hx as [->|[->|[->|?%elem_of_nil]]]; [| | |done].
      * by apply shows_start.
      * by apply shows_stop.
      * by apply shows_step.
    + intros Hs. inversion Hs; subst; eexists; (split; [|eassumption]);
        rewrite !elem_of_cons; eauto.
Qed.

Lemma find_widgets_in_shows (ows : list (owner V)) o k :
  forall args, list_sum (map operand_size args) < k ->
    (o ∈ find_widgets_in k ows args <-> exists a, a ∈ args /\ shows ows a o).
Proof.
  induction k as [|k IH]; intros args Hk; [lia|].
  rewrite find_widgets_in_collect, collect_elem, shows_flatten_line.
  pose proof (flatten_line_leaves args) as Hleaves.
  rewrite Forall_forall in Hleaves.
  pose proof (size_flatten args) as Hsize.
  split.
  - intros [?%elem_of_nil|(e & He & Ho)]; [done|].
    exists e. split; [done|].
    apply (found_in_shows (find_widgets_in k ows)); [by apply Hleaves| |done].
    intros a b c ->. apply IH.
    apply size_elem in He. simpl in He |- *. lia.
  - intros (e & He & Hs). right. exists e. split; [done|].
    apply (found_in_shows (find_widgets_in k ows)); [by apply Hleaves| |done].
    intros a b c ->. apply IH.
    apply size_elem in He. simpl in He |- *. lia.
Qed.

Lemma find_widgets_in_nodup (ows : list (owner V)) k args :
  NoDup (find_widgets_in k ows args).
Proof.
  destruct k as [|k]; [constructor|].
  rewrite find_widgets_in_collect. apply collect_nodup. constructor.
Qed.

Lemma shows_is_widget (ows : list (owner V)) a o :
  shows ows a o -> is_widget ows o = true.
Proof. induction 1; done. Qed.

End Operands.

Section FindWidgets.
Context {V F : Type} {H : Host V F}.

Lemma find_widgets_shows (ows : list (owner V)) (op : operation V F) o :
  o ∈ _find_widgets ows op <->
  exists a, a ∈ args_items (op_args op) ++ map snd (op_kwargs op) /\
            shows ows a o.
Proof. unfold _find_widgets. cbv zeta. apply find_widgets_in_shows. lia. Qed.

Lemma find_widgets_sound (ows : list (owner V)) (op : operation V F) o :
  o ∈ _find_widgets ows op -> is_widget ows o = true.
Proof. intros (a & _ & Hs)%find_widgets_shows. by eapply shows_is_widget. Qed.

Lemma find_widgets_nodup (ows : list (owner V)) (op : operation V F) :
  NoDup (_find_widgets ows op).
Proof. apply find_widgets_in_nodup. Qed.

(** X12: [_find_widgets] returns no widget twice. *)
Theorem find_widgets_has_no_duplicate (ows : list (owner V))
    (op : operation V F) :
  NoDup (_find_widgets ows op).
Proof. apply find_widgets_nodup. Qed.

(** X13: what [_find_widgets] returns: exactly the widgets to be seen
    in a positional or keyword argument of the operation, that is given
    as such or through one of their parameters, at any depth of lists,
    tuples, dict keys and slice parts; so nothing but widgets, and
    nothing from the values of a dict or from an argument that is an
    expression node. *)
Theorem find_widgets_finds_what_shows (ows : list (owner V))
    (op : operation V F) :
  (forall o, o ∈ _find_widgets ows op <->
     exists a, a ∈ args_items (op_args op) ++ map snd (op_kwargs op) /\
               shows ows a o) /\
  Forall (fun o => is_widget ows o = true) (_find_widgets ows op).
Proof.
  split; [intros o; apply find_widgets_shows|].
  apply Forall_forall. intros o. apply find_widgets_sound.
Qed.

End FindWidgets.

Section Params.
Context {V F : Type} {H : Host V F}.

#[local] Abbreviation node := (node V F).
#[local] Abbreviation store := (store V F).
#[local] Abbreviation params := (list (nat * string)).

Lemma merge_params_elem (qs ps : params) p :
  p ∈ merge_params ps qs <-> p ∈ ps \/ p ∈ qs.
Proof.
  revert ps. induction qs as [|q qs IH]; intros ps; simpl.
  - split; [by left | by intros [?|?%elem_of_nil]].
  - rewrite IH. destruct (decide (q ∈ ps)) as [Hq|Hq].
    + rewrite elem_of_cons. split; [tauto|]. intros [?|[->|?]]; tauto.
    + rewrite elem_of_app, list_elem_of_singleton, elem_of_cons. tauto.
Qed.

(** X14: the loop [for p in qs: if p not in ps: ps.append(p)] of
    [_params] keeps [ps] as it is, in order, and appends to it, in the
    order of [qs], each parameter of [qs] that [ps] has not, once. *)
Theorem merge_params_appends_new (qs ps : params) :
  exists new,
    merge_params ps qs = ps ++ new /\
    sublist new qs /\ NoDup new /\
    (forall p, p ∈ new <-> p ∈ qs /\ p ∉ ps).
Proof.
  revert ps. induction qs as [|q qs IH]; intros ps; simpl.
  - exists []. rewrite app_nil_r. split; [done|]. split; [done|].
    split; [constructor|]. intros p. split; [by intros ?%elem_of_nil|].
    by intros [?%elem_of_nil _].
  - destruct (decide (q ∈ ps)) as [Hq|Hq].
    + destruct (IH ps) as (new & -> & Hsub & Hnd & Hnew).
      exists new. split; [done|]. split; [by apply sublist_cons|].
      split; [done|]. intros p. rewrite Hnew, elem_of_cons.
      split; [tauto|]. intros [[->|?] ?]; tauto.
    + destruct (IH (ps ++ [q])) as (new & -> & Hsub & Hnd & Hnew).
      exists (q :: new). rewrite <- app_assoc. split; [done|].
      split; [by apply sublist_skip|].
      split.
      { constructor; [|done]. rewrite Hnew, elem_of_app, list_elem_of_singleton.
        tauto. }
      intros p. rewrite !elem_of_cons, Hnew, elem_of_app, list_elem_of_singleton.
      destruct (decide (p = q)) as [->|Hne]; tauto.
Qed.

Lemma params_walk_incl (rec : nat -> M V F params) k :
  forall prev ps (s : store) ps' s',
    params_walk rec k prev ps s = (Ok ps', s') ->
    forall p, p ∈ ps -> p ∈ ps'.
Proof.
  induction k as [|k IH]; intros [r|] ps s ps' s' Hrun p Hp; simpl in Hrun;
    try discriminate; try (by injection Hrun as <- _).
  hstep_any Hrun; [|discriminate]. hstep_any Hrun; [|discriminate].
  eapply IH; [exact Hrun|]. apply merge_params_elem. by left.
Qed.

Lemma params_args_incl (rec : nat -> M V F params) args :
  forall ps (s : store) ps' s',
    params_args rec args ps s = (Ok ps', s') ->
    (forall p, p ∈ ps -> p ∈ ps') /\
    (forall a q, a ∈ args -> operand_param a = Some q -> q ∈ ps').
Proof.
  induction args as [|a args IH]; intros ps s ps' s' Hrun.
  - injection Hrun as <- _. split; [done|]. by intros a q ?%elem_of_nil.
  - assert (exists ps1 s1,
              params_args rec args ps1 s1 = (Ok ps', s') /\
              (forall p, p ∈ ps -> p ∈ ps1) /\
              (forall q, operand_param a = Some q -> q ∈ ps1))
      as (ps1 & s1 & Hrun1 & Hps & Ha).
    { destruct a; simpl in Hrun;
        try (exists ps, s; by repeat split).
      - hstep_any Hrun; [|discriminate]. eexists _, _. split; [exact Hrun|].
        split; [|done]. intros p Hp. apply merge_params_elem. by left.
      - eexists _, _. split; [exact Hrun|]. split.
        + intros p Hp. destruct (decide _); [done|]. apply elem_of_app. by left.
        + intros q [= <-]. destruct (decide _); [done|].
          apply elem_of_app. right. by apply list_elem_of_singleton.
      - eexists _, _. split; [exact Hrun|]. split.
        + intros p Hp. destruct (decide _); [done|]. apply elem_of_app. by left.
        + intros q [= <-]. destruct (decide _); [done|].
          apply elem_of_app. right. by apply list_elem_of_singleton. }
    destruct (IH _ _ _ _ Hrun1) as [Hin Hargs].
    split; [by auto|].
    intros b q [->|Hb]%elem_of_cons Hq; [by auto | by eauto].
Qed.

Lemma params_kwargs_incl (rec : nat -> M V F params) kwargs :
  forall ps (s : store) ps' s',
    params_kwargs rec kwargs ps s = (Ok ps', s') ->
    (forall p, p ∈ ps -> p ∈ ps') /\
    (forall k a q, (k, a) ∈ kwargs -> k <> "ax" ->
       operand_param a = Some q -> q ∈ ps').
Proof.
  induction kwargs as [|[k a] kwargs IH]; intros ps s ps' s' Hrun.
  - injection Hrun as <- _. split; [done|]. by intros k a q ?%elem_of_nil.
  - assert (exists ps1 s1,
              params_kwargs rec kwargs ps1 s1 = (Ok ps', s') /\
              (forall p, p ∈ ps -> p ∈ ps1) /\
              (forall q, k <> "ax" -> operand_param a = Some q -> q ∈ ps1))
      as (ps1 & s1 & Hrun1 & Hps & Ha).
    { destruct a; simpl in Hrun;
        try (exists ps, s; by repeat split).
      - hstep_any Hrun; [|discriminate]. eexists _, _. split; [exact Hrun|].
        split; [|done]. intros p Hp. apply merge_params_elem. by left.
      - destruct (decide (k = "ax")) as [->|Hk];
          (eexists _, _; split; [exact Hrun|]); split; try done.
        + intros p Hp. destruct (decide _); [done|]. apply elem_of_app. by left.
        + intros q _ [= <-]. destruct (decide _); [done|].
          apply elem_of_app. right. by apply list_elem_of_singleton.
      - destruct (decide (k = "ax")) as [->|Hk];
          (eexists _, _; split; [exact Hrun|]); split; try done.
        + intros p Hp. destruct (decide _); [done|]. apply elem_of_app. by left.
        + intros q _ [= <-]. destruct (decide _); [done|].
          apply elem_of_app. right. by apply list_elem_of_singleton. }
    destruct (IH _ _ _ _ Hrun1) as [Hin Hargs].
    split; [by auto|].
    intros k' b q [[= -> ->]|Hb]%elem_of_cons Hk Hq; [by auto | by eauto].
Qed.

Lemma params_operands n r (s : store) ps s' nd :
  nodes s !! r = Some nd -> _params n r s = (Ok ps, s') ->
  (forall p, p ∈ fn_params (n_fn nd) -> p ∈ ps) /\
  (forall op a q, n_operation nd = Some op ->
     a ∈ args_items (op_args op) -> operand_param a = Some q -> q ∈ ps) /\
  (forall op k a q, n_operation nd = Some op ->
     (k, a) ∈ op_kwargs op -> k <> "ax" -> operand_param a = Some q ->
     q ∈ ps).
Proof.
  intros Hr Hrun. destruct n as [|n]; [discriminate|]. cbn [_params] in Hrun.
  rewrite bind_run in Hrun.
  pose proof (steps_touch eq same_but_memo (S n) r s) as Hq1.
  destruct (touch (S n) r s) as [[[]|e] s1]; [|discriminate]. simpl in Hq1.
  rewrite bind_run in Hrun.
  pose proof (steps_touch eq same_but_memo (S n) r s1) as Hq2.
  destruct (touch (S n) r s1) as [[[]|e] s2]; [|discriminate]. simpl in Hq2.
  pose proof (quiet_trans _ _ _ Hq1 Hq2) as Hq.
  destruct (proj2 Hq r nd Hr) as (nd2 & Hr2 & Hf2 & _).
  rewrite (get_node_run r s2 nd2) in Hrun by done.
  rewrite bind_run in Hrun.
  pose proof (steps_params_walk eq same_but_memo (_params n)
                (steps_params eq same_but_memo n) n (n_prev nd2)
                (fn_params (n_fn nd2)) s2) as Hq3.
  destruct (params_walk (_params n) n (n_prev nd2) (fn_params (n_fn nd2)) s2)
    as [[ps1|e] s3] eqn:Hwalk; [|discriminate]. simpl in Hq3.
  destruct (proj2 Hq3 r nd2 Hr2) as (nd3 & Hr3 & Hf3 & _).
  rewrite (get_node_run r s3 nd3) in Hrun by done.
  pose proof (params_walk_incl _ _ _ _ _ _ _ Hwalk) as Hown.
  rewrite (sf_fn _ _ Hf2) in Hown.
  assert (n_operation nd3 = n_operation nd) as Hop.
  { by rewrite (sf_operation _ _ Hf3), (sf_operation _ _ Hf2). }
  rewrite Hop in Hrun.
  destruct (n_operation nd) as [op|].
  2:{ injection Hrun as <- _. split; [done|]. split; intros; discriminate. }
  rewrite bind_run in Hrun.
  destruct (params_args (_params n) (args_items (op_args op)) ps1 s3)
    as [[ps2|e] s4] eqn:Hargs; [|discriminate].
  destruct (params_args_incl _ _ _ _ _ _ Hargs) as [Hin2 Ha].
  destruct (params_kwargs_incl _ _ _ _ _ _ Hrun) as [Hin3 Hk].
  split; [by auto|]. split.
  - intros op' a q [= <-] Hin Hparam. eauto.
  - intros op' k a q [= <-] Hin Hne Hparam. eauto.
Qed.

(** X15: the parameters [_params] returns for a node include those of
    the node's own function, every parameter or widget given as such
    among the positional arguments of its operation (a widget through
    its [value]), and every one given under a keyword other than
    [ax]. *)
Theorem params_include_operands n r (s : store) ps s' nd :
  nodes s !! r = Some nd -> _params n r s = (Ok ps, s') ->
  (forall p, p ∈ fn_params (n_fn nd) -> p ∈ ps) /\
  (forall op a q, n_operation nd = Some op ->
     a ∈ args_items (op_args op) -> operand_param a = Some q -> q ∈ ps) /\
  (forall op k a q, n_operation nd = Some op ->
     (k, a) ∈ op_kwargs op -> k <> "ax" -> operand_param a = Some q ->
     q ∈ ps).
Proof. apply params_operands. Qed.

End Params.

Lemma params_include_operands_witness :
  exists nd ps s',
    nodes two_widgets_sum !! 2 = Some nd /\
    _params fuel 2 two_widgets_sum = (Ok ps, s') /\
    (forall p, p ∈ fn_params (n_fn nd) -> p ∈ ps) /\
    (forall op a q, n_operation nd = Some op ->
       a ∈ args_items (op_args op) -> operand_param a = Some q -> q ∈ ps) /\
    (forall op k a q, n_operation nd = Some op ->
       (k, a) ∈ op_kwargs op -> k <> "ax" -> operand_param a = Some q ->
       q ∈ ps).
Proof.
  eexists _, _, _. split; [vm_compute; reflexivity|].
  split; [vm_compute; reflexivity|].
  eapply (params_include_operands fuel 2 two_widgets_sum);
    vm_compute; reflexivity.
Defined.

Section Wiring.
Context {V F : Type} {H : Host V F}.

#[local] Abbreviation node := (node V F).
#[local] Abbreviation store := (store V F).

Lemma keeps_pure (P : store -> Prop) {A} (c : M V F A) :
  (forall s, (c s).2 = s) -> keeps P c.
Proof. intros Hc s Hs. by rewrite Hc. Qed.

Lemma keeps_ret (P : store -> Prop) {A} (a : A) : keeps P (ret a).
Proof. by apply keeps_pure. Qed.

Lemma keeps_throw (P : store -> Prop) {A} e : keeps P (throw (A := A) e).
Proof. by apply keeps_pure. Qed.

Lemma keeps_lift (P : store -> Prop) {A} (x : result A) : keeps P (lift x).
Proof. by apply keeps_pure. Qed.

Lemma keeps_get_node (P : store -> Prop) r : keeps P (get_node r).
Proof.
  apply keeps_pure. intros s. unfold get_node. by destruct (nodes s !! r).
Qed.

Lemma keeps_param_value (P : store -> Prop) o x : keeps P (param_value o x).
Proof.
  apply keeps_pure. intros s. unfold param_value.
  destruct (owners s !! o) as [ow|]; [|done]. by destruct (assoc x (o_vals ow)).
Qed.

Lemma wired_upd_node ows wts r (f : node -> node) :
  keeps (wired ows wts) (upd_node r f).
Proof. by intros s [? ?]. Qed.

Lemma wired_emit ows wts e : keeps (wired (V := V) (F := F) ows wts) (emit e).
Proof. by intros s [? ?]. Qed.

End Wiring.

Create HintDb wire.
#[global] Hint Resolve keeps_ret keeps_throw keeps_lift keeps_get_node
  keeps_param_value wired_upd_node wired_emit : wire.

Ltac wire_step :=
  lazymatch goal with
  | |- keeps _ (bind _ _) => apply keeps_bind; [|intros ?]
  | |- keeps _ (match ?x with _ => _ end) => destruct x
  | |- keeps _ (let _ := _ in _) => cbv zeta
  | |- keeps _ _ => solve [eauto with wire]
  end.

Ltac wire_tac := repeat wire_step.

Section WiringOps.
Context {V F : Type} {H : Host V F}.
Context (ows : list (owner V)) (wts : list watcher).

#[local] Abbreviation node := (node V F).
#[local] Abbreviation store := (store V F).
#[local] Abbreviation keeps_wired := (keeps (V := V) (F := F) (wired ows wts)).

Lemma wired_param_values ps : keeps_wired (param_values ps).
Proof. induction ps as [|[o x] ps IH]; simpl; wire_tac. Qed.
Hint Resolve wired_param_values : wire.

Lemma wired_set_obj r v : keeps_wired (set_obj r v).
Proof.
  unfold set_obj. apply keeps_bind; [eauto with wire|]. intros nd.
  destruct (n_shared nd); by intros s [? ?].
Qed.
Hint Resolve wired_set_obj : wire.

Lemma wired_touch_tail r : keeps_wired (touch_tail r).
Proof. unfold touch_tail. wire_tac. Qed.
Hint Resolve wired_touch_tail : wire.

Section WithEv.
Variable ev : nat -> M V F V.
Hypothesis wired_ev : forall r, keeps_wired (ev r).

Lemma wired_eval_function fn : keeps_wired (eval_function ev fn).
Proof. unfold eval_function. wire_tac. Qed.
Hint Resolve wired_eval_function : wire.

Lemma wired_get_obj r : keeps_wired (get_obj ev r).
Proof.
  unfold get_obj. wire_tac.
  all: apply keeps_pure; intros s; by destruct (cells s !! _).
Qed.
Hint Resolve wired_get_obj : wire.

Lemma wired_resolve_arg a : keeps_wired (resolve_arg ev a).
Proof. destruct a; simpl; wire_tac. Qed.
Hint Resolve wired_resolve_arg : wire.

Lemma wired_resolve_args l : keeps_wired (resolve_args ev l).
Proof. induction l; simpl; wire_tac. Qed.

Lemma wired_resolve_kwargs l : keeps_wired (resolve_kwargs ev l).
Proof. induction l as [|[k a] l IH]; simpl; wire_tac. Qed.

Lemma wired_apply_fn fn rev obj args kw :
  keeps_wired (apply_fn fn rev obj args kw).
Proof. unfold apply_fn. wire_tac. Qed.

Hint Resolve wired_resolve_args wired_resolve_kwargs wired_apply_fn : wire.

Lemma wired_eval_operation_with obj op :
  keeps_wired (eval_operation_with ev obj op).
Proof. unfold eval_operation_with. wire_tac. Qed.
End WithEv.
Hint Resolve wired_eval_operation_with wired_eval_function wired_get_obj : wire.

Lemma wired_eval n r : keeps_wired (eval n r).
Proof. revert r. induction n as [|n IH]; intros r; simpl; wire_tac. Qed.
Hint Resolve wired_eval : wire.

Lemma wired_touch n r : keeps_wired (touch n r).
Proof. unfold touch. wire_tac. Qed.
Hint Resolve wired_touch : wire.

Lemma wired_current n r : keeps_wired (_current n r).
Proof. unfold _current. wire_tac. Qed.

Section WithRec.
Variable rec : nat -> M V F (list (nat * string)).
Hypothesis wired_rec : forall r, keeps_wired (rec r).

Lemma wired_params_walk k prev ps : keeps_wired (params_walk rec k prev ps).
Proof.
  revert prev ps. induction k as [|k IH]; intros [p|] ps; simpl; wire_tac.
Qed.

Lemma wired_params_args args ps : keeps_wired (params_args rec args ps).
Proof.
  revert ps. induction args as [|a args IH]; intros ps; simpl; [wire_tac|].
  destruct a; simpl; wire_tac.
Qed.

Lemma wired_params_kwargs kw ps : keeps_wired (params_kwargs rec kw ps).
Proof.
  revert ps. induction kw as [|[k a] kw IH]; intros ps; simpl; [wire_tac|].
  destruct a; simpl; wire_tac.
Qed.
End WithRec.
Hint Resolve wired_params_walk wired_params_args wired_params_kwargs : wire.

Lemma wired_params n r : keeps_wired (_params n r).
Proof.
  revert r. induction n as [|n IH]; intros r; [simpl; wire_tac|].
  cbn [_params]. wire_tac.
Qed.

Lemma wired_widgets_walk k prev ws : keeps_wired (widgets_walk k prev ws).
Proof.
  revert prev ws. induction k as [|k IH]; intros [p|] ws; simpl; wire_tac.
  all: by apply keeps_pure.
Qed.

End WiringOps.

#[global] Hint Resolve wired_param_values wired_eval_function wired_set_obj
  wired_get_obj wired_touch_tail wired_eval wired_touch wired_current
  wired_params wired_widgets_walk wired_eval_operation_with : wire.

Section WiringFacts.
Context {V F : Type} {H : Host V F}.

#[local] Abbreviation node := (node V F).
#[local] Abbreviation store := (store V F).

(** X16: [eval], whether it returns or raises, sets no parameter and
    registers no watcher: the owners, with the values of their
    parameters, and the watchers are as before. *)
Theorem eval_leaves_parameters n r (s : store) :
  owners (eval n r s).2 = owners s /\ watchers (eval n r s).2 = watchers s.
Proof. by apply (wired_eval (owners s) (watchers s) n r s). Qed.

Lemma widgets_walk_run k :
  forall prev ws (s : store) ws' s',
    widgets_walk k prev ws s = (Ok ws', s') ->
    NoDup ws -> Forall (fun o => is_widget (owners s) o = true) ws ->
    NoDup ws' /\ Forall (fun o => is_widget (owners s) o = true) ws'.
Proof.
  induction k as [|k IH]; intros [p|] ws s ws' s' Hrun Hnd Hw; simpl in Hrun;
    try discriminate; try (by injection Hrun as <- _).
  rewrite bind_run in Hrun. unfold get_node at 1 in Hrun.
  destruct (nodes s !! p) as [nd|]; [|discriminate].
  rewrite bind_run in Hrun.
  destruct (n_operation nd) as [op|].
  - cbv beta iota in Hrun. eapply IH; [exact Hrun | |].
    + by apply foldl_add_new_nodup.
    + apply Forall_forall. intros o [Ho|Ho]%foldl_add_new_elem.
      * rewrite Forall_forall in Hw. by apply Hw.
      * by eapply find_widgets_sound.
  - eapply IH; [exact Hrun | done | done].
Qed.

Lemma own_widgets_run (ows : list (owner V)) (qs : list (nat * string)) :
  forall acc, NoDup acc -> Forall (fun o => is_widget ows o = true) acc ->
    NoDup (foldl (fun ws p => if is_widget ows p.1 then add_new ws p.1 else ws)
                 acc qs) /\
    Forall (fun o => is_widget ows o = true)
      (foldl (fun ws p => if is_widget ows p.1 then add_new ws p.1 else ws)
             acc qs).
Proof.
  induction qs as [|q qs IH]; intros acc Hnd Hw; [done|].
  simpl. destruct (is_widget ows q.1) eqn:Hq; [|by apply IH].
  apply IH; [by apply add_new_nodup|].
  apply Forall_forall. intros o [Ho| ->]%add_new_elem; [|done].
  rewrite Forall_forall in Hw. by apply Hw.
Qed.

(** X17: [widgets], when it returns, returns no owner twice, and
    widgets only. *)
Theorem widgets_are_distinct_widgets n r (s : store) ws s' :
  widgets n r s = (Ok ws, s') ->
  NoDup ws /\ Forall (fun o => is_widget (owners s) o = true) ws.
Proof.
  unfold widgets. intros Hrun.
  rewrite bind_run in Hrun.
  pose proof (wired_touch (owners s) (watchers s) n r s (conj eq_refl eq_refl))
    as [Ho1 Hw1].
  destruct (touch n r s) as [[[]|e] s1]; [|discriminate]. simpl in Ho1, Hw1.
  rewrite bind_run in Hrun.
  pose proof (wired_touch (owners s) (watchers s) n r s1 (conj Ho1 Hw1))
    as [Ho2 _].
  destruct (touch n r s1) as [[[]|e] s2]; [|discriminate]. simpl in Ho2.
  rewrite bind_run in Hrun. unfold get_node at 1 in Hrun.
  destruct (nodes s2 !! r) as [nd|]; [|discriminate].
  rewrite bind_run in Hrun. cbv beta iota in Hrun.
  rewrite <- Ho2.
  eapply widgets_walk_run; [exact Hrun | |];
    apply own_widgets_run; constructor.
Qed.

End WiringFacts.

Lemma widgets_are_distinct_widgets_witness :
  exists s',
    widgets fuel 2 two_widgets_sum = (Ok [0], s') /\
    NoDup [0] /\ Forall (fun o => is_widget (owners two_widgets_sum) o = true) [0].
Proof.
  eexists. split; [vm_compute; reflexivity|].
  eapply (widgets_are_distinct_widgets fuel 2 two_widgets_sum).
  vm_compute; reflexivity.
Defined.

Section Invalidation.
Context {V F : Type} {H : Host V F}.

#[local] Abbreviation node := (node V F).
#[local] Abbreviation store := (store V F).

Lemma group_add_adds o x (gs : list (nat * list string)) :
  exists xs, (o, xs) ∈ group_add o x gs /\ x ∈ xs.
Proof.
  induction gs as [|[o' xs'] gs IH]; simpl.
  - exists [x]. split; by apply list_elem_of_singleton.
  - destruct (decide (o = o')) as [->|Hne].
    + exists (xs' ++ [x]). split; [by left|].
      apply elem_of_app. right. by apply list_elem_of_singleton.
    + destruct IH as (xs & Hin & Hx). exists xs. split; [by right | done].
Qed.

Lemma group_add_keeps o x (gs : list (nat * list string)) o' x' xs' :
  (o', xs') ∈ gs -> x' ∈ xs' ->
  exists xs, (o', xs) ∈ group_add o x gs /\ x' ∈ xs.
Proof.
  induction gs as [|[o1 xs1] gs IH]; intros Hin Hx; simpl.
  - by apply elem_of_nil in Hin.
  - apply elem_of_cons in Hin as [[= <- <-]|Hin].
    + destruct (decide (o = o')) as [->|Hne].
      * exists (xs' ++ [x]). split; [by left|]. apply elem_of_app. by left.
      * exists xs'. split; [by left | done].
    + destruct (decide (o = o1)) as [->|Hne].
      * exists xs'. split; [by right | done].
      * destruct (IH Hin Hx) as (xs & Hin' & Hx').
        exists xs. split; [by right | done].
Qed.

Lemma group_by_owner_groups (ps : list (nat * string)) o x :
  (o, x) ∈ ps -> exists xs, (o, xs) ∈ group_by_owner ps /\ x ∈ xs.
Proof.
  unfold group_by_owner. generalize (@nil (nat * list string)).
  induction ps as [|[o1 x1] ps IH]; intros gs Hin; [by apply elem_of_nil in Hin|].
  simpl. apply elem_of_cons in Hin as [[= <- <-]|Hin]; [|by apply IH].
  destruct (group_add_adds o x gs) as (xs & Hxs & Hx).
  clear IH. revert Hxs. generalize (group_add o x gs). clear gs.
  revert xs Hx. induction ps as [|[o2 x2] ps IH]; intros xs Hx gs Hin; simpl.
  - eauto.
  - destruct (group_add_keeps o2 x2 gs o x xs Hin Hx) as (xs' & Hin' & Hx').
    by eapply IH.
Qed.

Lemma watch_all_registers n r cb gs :
  forall (s s' : store),
    watch_all n r cb gs s = (Ok tt, s') ->
    (forall w, w ∈ watchers s -> w ∈ watchers s') /\
    (forall o xs, (o, xs) ∈ gs -> Watcher o xs cb ∈ watchers s').
Proof.
  induction gs as [|[o xs] gs IH]; intros s s' Hrun; simpl in Hrun.
  - injection Hrun as <-. split; [done|]. by intros o xs ?%elem_of_nil.
  - rewrite bind_run in Hrun.
    pose proof (wired_touch (owners s) (watchers s) n r s (conj eq_refl eq_refl))
      as [_ Hw].
    destruct (touch n r s) as [[[]|e] s1]; [|discriminate]. simpl in Hw.
    rewrite bind_run in Hrun. unfold add_watcher at 1 in Hrun.
    destruct (IH _ _ Hrun) as [Hkeep Hreg]. simpl in Hkeep.
    assert (forall w, w ∈ watchers s ++ [Watcher o xs cb] -> w ∈ watchers s')
      as Hkeep'.
    { intros w Hin. apply Hkeep. by rewrite Hw. }
    split.
    + intros w Hin. apply Hkeep'. apply elem_of_app. by left.
    + intros o' xs' [[= -> ->]|Hin]%elem_of_cons; [|by apply Hreg].
      apply Hkeep'. apply elem_of_app. right. by apply list_elem_of_singleton.
Qed.

Lemma setup_invalidations_registers n r depth (s s' : store) nd op a q :
  nodes s !! r = Some nd -> n_operation nd = Some op ->
  a ∈ args_items (op_args op) -> operand_param a = Some q ->
  _setup_invalidations n r depth s = (Ok tt, s') ->
  exists xs, Watcher q.1 xs (CbInvalidate r) ∈ watchers s' /\ q.2 ∈ xs.
Proof.
  intros Hr Hop Ha Hq Hrun. unfold _setup_invalidations in Hrun.
  rewrite (get_node_run r s nd) in Hrun by done.
  rewrite bind_run in Hrun.
  lazymatch type of Hrun with
  | (match ?c s with _ => _ end) = _ =>
      assert (steps eq same_but_memo c) as Hs by (destruct (decide _); mono_tac);
      specialize (Hs s); destruct (c s) as [[[]|e] s1]; [|discriminate]
  end.
  simpl in Hs. destruct (proj2 Hs r nd Hr) as (nd1 & Hr1 & Hf1 & _).
  rewrite bind_run in Hrun.
  destruct (_params n r s1) as [[ps|e] s2] eqn:Hps; [|discriminate].
  destruct (params_operands _ _ _ _ _ _ Hr1 Hps) as (_ & Hargs & _).
  rewrite (sf_operation _ _ Hf1) in Hargs.
  pose proof (Hargs op a q Hop Ha Hq) as Hin.
  destruct q as [o x].
  destruct (group_by_owner_groups ps o x Hin) as (xs & Hg & Hx).
  destruct (watch_all_registers _ _ _ _ _ _ Hrun) as [_ Hreg].
  exists xs. split; [by apply Hreg | done].
Qed.

Lemma init_registers n (nd : node) (s s' : store) r op a q :
  n_operation nd = Some op ->
  a ∈ args_items (op_args op) -> operand_param a = Some q ->
  __init__ n nd s = (Ok r, s') ->
  exists xs, Watcher q.1 xs (CbInvalidate r) ∈ watchers s' /\ q.2 ∈ xs.
Proof.
  intros Hop Ha Hq Hrun. unfold __init__ in Hrun.
  rewrite bind_run in Hrun. unfold alloc_node at 1 in Hrun.
  set (nd0 := set_current vnone (set_dirty true nd)) in *.
  set (s0 := Store (nodes s ++ [nd0]) (cells s) (owners s) (watchers s) (log s))
    in *.
  assert (nodes s0 !! length (nodes s) = Some nd0) as Hr0.
  { by apply list_lookup_middle. }
  rewrite bind_run in Hrun.
  pose proof (steps_touch eq same_but_memo n (length (nodes s)) s0) as Hq1.
  destruct (touch n (length (nodes s)) s0) as [[[]|e] s1]; [|discriminate].
  simpl in Hq1. destruct (proj2 Hq1 _ _ Hr0) as (nd1 & Hr1 & Hf1 & _).
  rewrite bind_run in Hrun.
  destruct (_setup_invalidations n (length (nodes s)) (n_depth nd) s1)
    as [[[]|e] s2] eqn:Hsetup; [|discriminate].
  injection Hrun as <- <-.
  eapply setup_invalidations_registers; [exact Hr1 | | exact Ha | exact Hq | exact Hsetup].
  by rewrite (sf_operation _ _ Hf1).
Qed.

Lemma clone_registers n r0 op copy kw (s s' : store) new a q :
  a ∈ args_items (op_args op) -> operand_param a = Some q ->
  _clone n r0 (Some op) copy kw s = (Ok new, s') ->
  exists xs, Watcher q.1 xs (CbInvalidate new) ∈ watchers s' /\ q.2 ∈ xs.
Proof.
  intros Ha Hq Hrun. clone_steps Hrun.
  eapply init_registers; [| exact Ha | exact Hq | exact Hrun]. done.
Qed.

Lemma apply_operator_registers n r (f : F) args reverse kwargs
    (s : store) new s' a q :
  a ∈ args -> operand_param a = Some q ->
  _apply_operator n r f args reverse kwargs s = (Ok new, s') ->
  exists xs, Watcher q.1 xs (CbInvalidate new) ∈ watchers s' /\ q.2 ∈ xs.
Proof.
  intros Ha Hq Hrun. unfold _apply_operator in Hrun.
  do 3 (hstep_any Hrun; [|discriminate]). cbv zeta in Hrun.
  hstep_any Hrun; [|discriminate].
  eapply clone_registers; [| exact Hq | exact Hrun]. exact Ha.
Qed.

(** X18: an operator application that returns has registered, for
    every parameter or widget given as such among its operands (a widget
    through its [value]), a watcher of that parameter that invalidates
    the node returned. *)
Theorem operator_watches_its_operands n r (f : F) args reverse kwargs
    (s : store) new s' a q :
  a ∈ args -> operand_param a = Some q ->
  _apply_operator n r f args reverse kwargs s = (Ok new, s') ->
  exists xs, Watcher q.1 xs (CbInvalidate new) ∈ watchers s' /\ q.2 ∈ xs.
Proof. apply apply_operator_registers. Qed.

(** The watchers [watch_all] registers, in order, after those that
    were there. *)
Lemma watch_all_exact n r cb gs :
  forall (s s' : store),
    watch_all n r cb gs s = (Ok tt, s') ->
    watchers s' = watchers s ++ map (fun g => Watcher g.1 g.2 cb) gs.
Proof.
  induction gs as [|[o xs] gs IH]; intros s s' Hrun; simpl in Hrun.
  - injection Hrun as <-. by rewrite app_nil_r.
  - rewrite bind_run in Hrun.
    pose proof (wired_touch (owners s) (watchers s) n r s (conj eq_refl eq_refl))
      as [_ Hw].
    destruct (touch n r s) as [[[]|e] s1]; [|discriminate]. simpl in Hw.
    rewrite bind_run in Hrun. unfold add_watcher at 1 in Hrun.
    rewrite (IH _ _ Hrun). simpl. by rewrite Hw, <- app_assoc.
Qed.

(** The last watchers of the store, after [__init__] of node [r], are
    those that invalidate [r], one for each owner among its
    parameters. *)
Lemma setup_invalidations_tail n r depth (s s' : store) nd op a q :
  nodes s !! r = Some nd -> n_operation nd = Some op ->
  a ∈ args_items (op_args op) -> operand_param a = Some q ->
  _setup_invalidations n r depth s = (Ok tt, s') ->
  exists ws0 gs xs,
    watchers s' = ws0 ++ map (fun g => Watcher g.1 g.2 (CbInvalidate r)) gs /\
    (q.1, xs) ∈ gs /\ q.2 ∈ xs.
Proof.
  intros Hr Hop Ha Hq Hrun. unfold _setup_invalidations in Hrun.
  rewrite (get_node_run r s nd) in Hrun by done.
  rewrite bind_run in Hrun.
  lazymatch type of Hrun with
  | (match ?c s with _ => _ end) = _ =>
      assert (steps eq same_but_memo c) as Hs by (destruct (decide _); mono_tac);
      specialize (Hs s); destruct (c s) as [[[]|e] s1]; [|discriminate]
  end.
  simpl in Hs. destruct (proj2 Hs r nd Hr) as (nd1 & Hr1 & Hf1 & _).
  rewrite bind_run in Hrun.
  destruct (_params n r s1) as [[ps|e] s2] eqn:Hps; [|discriminate].
  destruct (params_operands _ _ _ _ _ _ Hr1 Hps) as (_ & Hargs & _).
  rewrite (sf_operation _ _ Hf1) in Hargs.
  pose proof (Hargs op a q Hop Ha Hq) as Hin.
  destruct q as [o x].
  destruct (group_by_owner_groups ps o x Hin) as (xs & Hg & Hx).
  exists (watchers s2), (group_by_owner ps), xs.
  split; [by apply watch_all_exact in Hrun | done].
Qed.

Lemma init_tail n (nd : node) (s s' : store) r op a q :
  n_operation nd = Some op ->
  a ∈ args_items (op_args op) -> operand_param a = Some q ->
  __init__ n nd s = (Ok r, s') ->
  exists ws0 gs xs,
    watchers s' = ws0 ++ map (fun g => Watcher g.1 g.2 (CbInvalidate r)) gs /\
    (q.1, xs) ∈ gs /\ q.2 ∈ xs.
Proof.
  intros Hop Ha Hq Hrun. unfold __init__ in Hrun.
  rewrite bind_run in Hrun. unfold alloc_node at 1 in Hrun.
  set (nd0 := set_current vnone (set_dirty true nd)) in *.
  set (s0 := Store (nodes s ++ [nd0]) (cells s) (owners s) (watchers s) (log s))
    in *.
  assert (nodes s0 !! length (nodes s) = Some nd0) as Hr0.
  { by apply list_lookup_middle. }
  rewrite bind_run in Hrun.
  pose proof (steps_touch eq same_but_memo n (length (nodes s)) s0) as Hq1.
  destruct (touch n (length (nodes s)) s0) as [[[]|e] s1]; [|discriminate].
  simpl in Hq1. destruct (proj2 Hq1 _ _ Hr0) as (nd1 & Hr1 & Hf1 & _).
  rewrite bind_run in Hrun.
  destruct (_setup_invalidations n (length (nodes s)) (n_depth nd) s1)
    as [[[]|e] s2] eqn:Hsetup; [|discriminate].
  injection Hrun as <- <-.
  eapply setup_invalidations_tail;
    [exact Hr1 | | exact Ha | exact Hq | exact Hsetup].
  by rewrite (sf_operation _ _ Hf1).
Qed.

Lemma clone_tail n r0 op copy kw (s s' : store) new a q :
  a ∈ args_items (op_args op) -> operand_param a = Some q ->
  _clone n r0 (Some op) copy kw s = (Ok new, s') ->
  exists ws0 gs xs,
    watchers s' = ws0 ++ map (fun g => Watcher g.1 g.2 (CbInvalidate new)) gs /\
    (q.1, xs) ∈ gs /\ q.2 ∈ xs.
Proof.
  intros Ha Hq Hrun. clone_steps Hrun.
  eapply init_tail; [| exact Ha | exact Hq | exact Hrun]. done.
Qed.

Lemma apply_operator_tail n r (f : F) args reverse kwargs
    (s : store) new s' a q :
  a ∈ args -> operand_param a = Some q ->
  _apply_operator n r f args reverse kwargs s = (Ok new, s') ->
  exists ws0 gs xs,
    watchers s' = ws0 ++ map (fun g => Watcher g.1 g.2 (CbInvalidate new)) gs /\
    (q.1, xs) ∈ gs /\ q.2 ∈ xs.
Proof.
  intros Ha Hq Hrun. unfold _apply_operator in Hrun.
  do 3 (hstep_any Hrun; [|discriminate]). cbv zeta in Hrun.
  hstep_any Hrun; [|discriminate].
  eapply clone_tail; [| exact Hq | exact Hrun]. exact Ha.
Qed.

Lemma run_watchers_app n o x ws1 ws2 (s : store) :
  run_watchers n o x (ws1 ++ ws2) s =
  (do _ <~ run_watchers n o x ws1 ;> run_watchers n o x ws2) s.
Proof.
  revert s. induction ws1 as [|w ws1 IH]; intros s; [done|].
  simpl. rewrite !bind_run.
  destruct ((if decide (w_owner w = o ∧ x ∈ w_names w)
             then run_callback n (w_cb w) else ret tt) s) as [[[]|e] s1];
    [|done].
  rewrite IH. by rewrite bind_run.
Qed.

(** Watchers that invalidate [r] leave it dirty. *)
Lemma invalidations_keep_dirty n o x r gs :
  forall (s : store) nd,
    nodes s !! r = Some nd -> n_dirty nd = true ->
    exists nd',
      nodes (run_watchers n o x
               (map (fun g => Watcher g.1 g.2 (CbInvalidate r)) gs) s).2 !! r
        = Some nd' /\ n_dirty nd' = true.
Proof.
  induction gs as [|g gs IH]; intros s nd Hr Hd; simpl; [eauto|].
  rewrite bind_run. destruct (decide _) as [Hw|Hw]; simpl.
  - eapply IH; [simpl; by rewrite list_lookup_alter_eq, Hr | done].
  - eauto.
Qed.

(** Among them, the one for the parameter that changed marks it. *)
Lemma invalidations_fire n o x xs r gs :
  forall (s : store),
    (o, xs) ∈ gs -> x ∈ xs -> is_Some (nodes s !! r) ->
    exists nd',
      nodes (run_watchers n o x
               (map (fun g => Watcher g.1 g.2 (CbInvalidate r)) gs) s).2 !! r
        = Some nd' /\ n_dirty nd' = true.
Proof.
  induction gs as [|g gs IH]; intros s Hin Hx [nd Hr];
    [by apply elem_of_nil in Hin|].
  simpl. rewrite bind_run.
  apply elem_of_cons in Hin as [<-|Hin].
  - simpl. destruct (decide _) as [_|Hn]; [|by destruct Hn]. simpl.
    eapply invalidations_keep_dirty;
      [simpl; by rewrite list_lookup_alter_eq, Hr | done].
  - destruct (decide _) as [Hw|Hw]; simpl.
    + apply IH; [done | done |]. simpl. rewrite list_lookup_alter_eq, Hr.
      by eexists.
    + apply IH; [done | done | by eexists].
Qed.

(** X19: once an operator application has returned a node, setting a
    parameter given as such among its operands (the [value] of a widget
    given as such) to a value that is a change marks that node dirty,
    when the watchers run through. *)
Theorem changed_operand_invalidates n k r (f : F) args reverse kwargs
    (s : store) new s1 a q old v s2 :
  a ∈ args -> operand_param a = Some q ->
  _apply_operator n r f args reverse kwargs s = (Ok new, s1) ->
  param_value q.1 q.2 s1 = (Ok old, s1) -> same_value old v = false ->
  set_param k q.1 q.2 v s1 = (Ok tt, s2) ->
  exists nd, nodes s2 !! new = Some nd /\ n_dirty nd = true.
Proof.
  intros Ha Hq Hrun Hold Hchg Hset.
  destruct (apply_operator_tail _ _ _ _ _ _ _ _ _ _ _ Ha Hq Hrun)
    as (ws0 & gs & xs & Hws & Hg & Hx).
  destruct (apply_operator_same_cell _ _ _ _ _ _ _ _ _ Hrun)
    as (_ & ndn & _ & _ & Hnew & _).
  unfold set_param in Hset. rewrite bind_run, Hold in Hset.
  rewrite bind_run in Hset. unfold write_param at 1 in Hset.
  destruct (owners s1 !! q.1) as [ow|]; [|discriminate].
  rewrite Hchg in Hset. cbv beta iota in Hset. simpl watchers in Hset.
  rewrite Hws, run_watchers_app, bind_run in Hset.
  lazymatch type of Hset with
  | (match run_watchers ?k ?o ?x ?ws ?s with _ => _ end) = _ =>
      pose proof (steps_run_watchers eq same_frame k o x ws s) as Hst;
      destruct (run_watchers k o x ws s) as [[[]|e] sa]; [|discriminate]
  end.
  simpl in Hst. destruct (proj2 Hst new ndn Hnew) as (nda & Hnda & _).
  destruct (invalidations_fire k q.1 q.2 xs new gs sa Hg Hx) as (nd' & Hr' & Hd');
    [by eexists|].
  rewrite Hset in Hr'. eauto.
Qed.

End Invalidation.

Lemma operator_watches_its_operands_witness :
  exists new s',
    OWidget 0 ∈ [OWidget (V := pyval) 0] /\
    operand_param (OWidget (V := pyval) 0) = Some (0, "value") /\
    _apply_operator fuel 0 op_add [OWidget 0] false [] two_widgets_root
      = (Ok new, s') /\
    exists xs, Watcher 0 xs (CbInvalidate new) ∈ watchers s' /\ "value" ∈ xs.
Proof.
  eexists _, _. split; [by apply list_elem_of_singleton|].
  split; [reflexivity|]. split; [vm_compute; reflexivity|].
  eapply (operator_watches_its_operands fuel 0 op_add [OWidget 0] false []
            two_widgets_root _ _ (OWidget 0) (0, "value"));
    [by apply list_elem_of_singleton | reflexivity | vm_compute; reflexivity].
Defined.

Lemma changed_operand_invalidates_witness :
  exists new s1 s2,
    OWidget 0 ∈ [OWidget (V := pyval) 0] /\
    operand_param (OWidget (V := pyval) 0) = Some (0, "value") /\
    _apply_operator fuel 0 op_add [OWidget 0] false [] two_widgets_root
      = (Ok new, s1) /\
    param_value 0 "value" s1 = (Ok (PInt 3), s1) /\
    same_value (PInt 3) (PInt 4) = false /\
    set_param fuel 0 "value" (PInt 4) s1 = (Ok tt, s2) /\
    exists nd, nodes s2 !! new = Some nd /\ n_dirty nd = true.
Proof.
  eexists _, _, _. split; [by apply list_elem_of_singleton|].
  split; [reflexivity|]. split; [vm_compute; reflexivity|].
  split; [vm_compute; reflexivity|]. split; [reflexivity|].
  split; [vm_compute; reflexivity|].
  eapply (changed_operand_invalidates fuel fuel 0 op_add [OWidget 0] false []
            two_widgets_root _ _ (OWidget 0) (0, "value") (PInt 3) (PInt 4));
    [by apply list_elem_of_singleton | reflexivity | vm_compute; reflexivity
    | vm_compute; reflexivity | reflexivity | vm_compute; reflexivity].
Defined.

Section OlderKept.
Context {V F : Type} {H : Host V F}.

#[local] Abbreviation node := (node V F).
#[local] Abbreviation store := (store V F).

Lemma older_alloc (s : store) (nd : node) :
  older s ->
  (forall p, n_prev nd = Some p -> p < length (nodes s)) ->
  (forall op a, n_operation nd = Some op -> a ∈ op_refs op ->
     a < length (nodes s)) ->
  (forall q, q ∈ fn_refs (n_fn nd) -> q < length (nodes s)) ->
  older (alloc_node nd s).2.
Proof.
  intros Hold Hp Ho Hn r x Hr. simpl in Hr.
  apply lookup_app_Some in Hr as [Hr|[Hge Hr]]; [by apply Hold|].
  destruct (r - length (nodes s)) as [|k] eqn:Hk; simpl in Hr; [|done].
  injection Hr as <-. assert (r = length (nodes s)) as -> by lia. done.
Qed.

Lemma older_quiet (s s' : store) : older s -> quiet s s' -> older s'.
Proof. intros Hold Hq. eapply older_settled; [done | by apply quiet_settled]. Qed.

Lemma older_from_settled B {A} (c : M V F A) :
  steps eq same_frame c -> keeps (older_from B) c.
Proof.
  intros Hc s [Hold HB]. specialize (Hc s). split.
  - by eapply older_settled.
  - destruct Hc as [<- _]. done.
Qed.

Lemma older_from_clone B n r op copy kw :
  (forall o a, op = Some o -> a ∈ op_refs o -> a < B) ->
  keeps (older_from B) (_clone n r op copy kw).
Proof.
  intros Hop s [Hold HB].
  destruct (_clone n r op copy kw s) as [res s'] eqn:Hrun. simpl.
  apply clone_run in Hrun
    as [(e & _ & Hq)|(s1 & nd & fn & w & Hq & Hr & _ & Hfn & Hq' & _)].
  { split; [by eapply older_quiet|]. by rewrite (quiet_length _ _ Hq). }
  pose proof (older_quiet _ _ Hold Hq) as Hold1.
  pose proof (quiet_length _ _ Hq) as Hlen.
  pose proof (lookup_lt_Some _ _ _ Hr) as Hlt.
  destruct (Hold1 r nd Hr) as (Hprev & Hrefs & Hnode).
  split.
  - eapply older_quiet; [|exact Hq']. apply older_alloc; [done| | |].
    + simpl. intros p. destruct copy; [intros Hp; apply Hprev in Hp; lia|].
      intros [= <-]. done.
    + simpl. intros o a. destruct op as [o'|].
      * intros [= <-] Ha. specialize (Hop _ a eq_refl Ha). lia.
      * intros Ho Ha. specialize (Hrefs o a Ho Ha). lia.
    + simpl. intros q Hq0. destruct copy.
      * destruct Hfn as [-> _]. specialize (Hnode q Hq0). lia.
      * destruct Hfn as (o & -> & _). by apply elem_of_nil in Hq0.
  - rewrite (quiet_length _ _ Hq'). simpl. rewrite length_app. lia.
Qed.

Lemma node_refs_chars m : node_refs (chars (V := V) m) = [].
Proof.
  unfold chars. induction (String.list_ascii_of_string m) as [|c l IH]; [done|].
  simpl. exact IH.
Qed.

End OlderKept.

Ltac older_step :=
  lazymatch goal with
  | |- keeps _ (bind _ _) => apply keeps_bind; [|intros ?]
  | |- keeps _ (try_finally _ _) => apply keeps_try_finally
  | |- keeps _ (_clone _ _ _ _ _) =>
      apply older_from_clone; intros ? ? [= <-]; unfold op_refs; simpl;
      rewrite ?node_refs_chars; try (by intros ?%elem_of_nil)
  | |- keeps _ (match ?x with _ => _ end) => destruct x
  | |- keeps _ (let _ := _ in _) => cbv zeta
  | |- keeps (older_from _) _ => solve [apply older_from_settled; mono_tac]
  end.

Ltac older_tac := repeat older_step.

Section OlderOps.
Context {V F : Type} {H : Host V F}.

#[local] Abbreviation node := (node V F).
#[local] Abbreviation store := (store V F).

(** What [__new__] settles on for a root refers to a node only for a
    root made from a node, and that node is there. *)
Lemma root_producer_refs n (obj : root_obj (V := V) (F := F)) (s : store)
    fow s1 :
  match obj with
  | RNode q => do ps <~ _params n q ;> ret (PNode q ps, None, None)
  | RConst v =>
      do w <~ alloc_owner (Owner false [("object", v)]) ;>
      ret (PBind w "object", Some v, Some w)
  | RParam o x => do v <~ param_value o x ;> ret (PBind o x, Some v, None)
  | RWidget o =>
      do v <~ param_value o "value" ;> ret (PBind o "value", Some v, None)
  | RFunc f deps => ret (PFunc f deps, None, None)
  end s = (Ok fow, s1) ->
  fn_refs fow.1.1 = match root_prev obj with Some q => [q] | None => [] end /\
  forall q, root_prev obj = Some q -> q < length (nodes s).
Proof.
  intros Hrun. destruct obj as [v|o x|o|f deps|q]; simpl.
  - hstep_any Hrun; [|discriminate]. by injection Hrun as <- _.
  - hstep_any Hrun; [|discriminate]. by injection Hrun as <- _.
  - hstep_any Hrun; [|discriminate]. by injection Hrun as <- _.
  - by injection Hrun as <- _.
  - hstep_any Hrun; [|discriminate]. injection Hrun as <- _.
    split; [done|]. intros q' [= <-].
    destruct (params_node _ _ _ _ _ Heqp) as [nd Hq].
    by eapply lookup_lt_Some.
Qed.

Lemma older_from_interactive B n obj :
  keeps (older_from B) (interactive (V := V) (F := F) n obj).
Proof.
  intros s [Hold HB]. unfold interactive. rewrite bind_run.
  lazymatch goal with
  | |- context [match ?c s with _ => _ end] =>
      assert (steps eq same_frame c) as Hst by mono_tac;
      specialize (Hst s);
      pose proof (root_producer_refs n obj s) as Hrefs;
      destruct (c s) as [[fow|e] s1]
  end; simpl in Hst.
  2:{ simpl. split; [by eapply older_settled|]. by destruct Hst as [<- _]. }
  destruct (Hrefs fow s1 eq_refl) as [Hfn Hprev]. clear Hrefs.
  pose proof (older_settled _ _ Hold Hst) as Hold1.
  assert (length (nodes s1) = length (nodes s)) as Hlen1
    by (by destruct Hst as [<- _]).
  rewrite bind_run.
  lazymatch goal with
  | |- context [match ?c s1 with _ => _ end] =>
      assert (steps eq same_frame c) as Hst2 by mono_tac;
      specialize (Hst2 s1);
      destruct (c s1) as [[shared|e] s2]
  end; simpl in Hst2.
  2:{ simpl. split; [by eapply older_settled|].
      destruct Hst2 as [<- _]. lia. }
  pose proof (older_settled _ _ Hold1 Hst2) as Hold2.
  assert (length (nodes s2) = length (nodes s)) as Hlen2
    by (destruct Hst2 as [<- _]; lia).
  cbv zeta.
  lazymatch goal with
  | |- older_from B (__init__ n ?nd s2).2 =>
      destruct (init_run n nd s2) as [Hq _]
  end.
  split.
  - eapply older_quiet; [|exact Hq]. apply older_alloc; [done| | |]; simpl.
    + fold (root_prev obj). intros p Hp. specialize (Hprev p Hp). lia.
    + intros; discriminate.
    + rewrite Hfn. intros q Hq0.
      destruct (root_prev obj) as [q'|] eqn:Hrp; [|by apply elem_of_nil in Hq0].
      apply list_elem_of_singleton in Hq0 as ->. specialize (Hprev q' eq_refl). lia.
  - rewrite (quiet_length _ _ Hq). simpl. rewrite length_app. lia.
Qed.

Lemma older_from_resolve_accessor B n r :
  keeps (older_from B) (_resolve_accessor (V := V) (F := F) n r).
Proof. unfold _resolve_accessor. older_tac. Qed.

Lemma older_from_getattribute B n r name :
  keeps (older_from B) (__getattribute__ (V := V) (F := F) n r name).
Proof.
  unfold __getattribute__. older_tac. apply older_from_resolve_accessor.
Qed.

Lemma older_from_apply_operator B n r (f : F) args rev kw :
  (forall a, a ∈ node_refs args ++ node_refs (map snd kw) -> a < B) ->
  keeps (older_from B) (_apply_operator (V := V) n r f args rev kw).
Proof.
  intros Hrefs. unfold _apply_operator.
  do 2 (apply keeps_bind; [older_tac|intros ?]).
  apply keeps_bind; [apply older_from_resolve_accessor|intros ?].
  cbv zeta. apply keeps_bind; [older_tac|intros ?].
  apply older_from_clone. intros o x [= <-] Hx. by apply Hrefs.
Qed.

Lemma older_from_call B n r args kw :
  (forall a, a ∈ node_refs args ++ node_refs (map snd kw) ++ call_refs args kw ->
             a < B) ->
  keeps (older_from B) (__call__ (V := V) (F := F) n r args kw).
Proof.
  intros Hrefs. unfold __call__.
  destruct (has_key ["self"] kw); [older_tac|].
  apply keeps_bind; [older_tac|intros nd].
  destruct (n_method nd) as [m|].
  - apply keeps_bind; [older_tac|intros ?].
    apply keeps_bind; [older_tac|intros new].
    apply keeps_try_finally; [|older_tac].
    apply keeps_bind; [older_tac|intros nd'].
    destruct (n_method nd') as [m'|]; [|older_tac].
    cbv zeta. apply keeps_bind; [older_tac|intros ?].
    apply older_from_clone. intros o x [= <-] Hx. apply Hrefs.
    rewrite app_assoc. apply elem_of_app. by left.
  - apply keeps_bind; [older_tac|intros ?].
    apply keeps_bind; [older_tac|intros nd1].
    destruct (decide _); [|older_tac].
    apply keeps_bind; [older_tac|intros ?].
    unfold call_refs in Hrefs.
    destruct (clone_arguments args kw) as [[[op copy] k]|e'];
      [|by intros s Hs].
    intros s Hs. unfold bind at 1, lift. cbv beta iota. simpl.
    apply older_from_clone; [|done].
    intros o x -> Hx. cbv iota beta in Hrefs. apply Hrefs.
    apply elem_of_app. right. apply elem_of_app. by right.
Qed.

(** X20: the operations that make nodes keep the nodes in order of
    making: when every node was made after its previous node and after
    the nodes among its operands, and the nodes among the operands given
    to the operation are there, the same holds afterwards, whether the
    operation returns or raises. *)
Theorem making_keeps_older n (m : making V F) (s : store) :
  older s ->
  (forall a, a ∈ making_refs m -> a < length (nodes s)) ->
  older (make n m s).
Proof.
  intros Hold Hrefs.
  assert (older_from (length (nodes s)) s) as Hs by (split; [done | lia]).
  destruct m as [obj|r op copy kw|r name|r args kw|r f args rev kw|r other];
    cbn [making_refs make] in Hrefs |- *.
  - by apply (older_from_interactive _ n obj s Hs).
  - apply (older_from_clone (length (nodes s)) n r op copy kw); [|done].
    intros o a -> Ha. by apply Hrefs.
  - by apply (older_from_getattribute _ n r name s Hs).
  - by apply (older_from_call _ n r args kw Hrefs s Hs).
  - by apply (older_from_apply_operator _ n r f args rev kw Hrefs s Hs).
  - unfold __getitem__.
    apply (older_from_apply_operator (length (nodes s)) n r op_getitem
             [other] false []); [|done].
    intros a Ha. apply Hrefs. simpl in Ha. by rewrite app_nil_r in Ha.
Qed.

End OlderOps.

Lemma product_store_older : older product_store.
Proof.
  intros r nd Hr.
  destruct r as [|[|[|r]]]; vm_compute in Hr; [| | |discriminate];
    injection Hr as <-; (split; [|split]).
  all: try (intros p; discriminate).
  all: try (intros op a; discriminate).
  all: try (intros q Hq; vm_compute in Hq; by apply elem_of_nil in Hq).
  - intros p [= <-]. lia.
  - intros op a [= <-] Ha. vm_compute in Ha. by apply elem_of_nil in Ha.
Qed.

Lemma making_keeps_older_witness :
  older product_store /\
  (forall a, a ∈ making_refs (MakeOperator 0 op_add [ONode 2] false []) ->
     a < length (nodes product_store)) /\
  older (make fuel (MakeOperator 0 op_add [ONode 2] false []) product_store).
Proof.
  assert (forall a, a ∈ making_refs (H := py_host)
                        (MakeOperator 0 op_add [ONode 2] false []) ->
            a < length (nodes product_store)) as Hrefs.
  { intros a Ha. vm_compute in Ha. apply list_elem_of_singleton in Ha as ->.
    vm_compute. lia. }
  split; [exact product_store_older|]. split; [exact Hrefs|].
  exact (making_keeps_older fuel (MakeOperator 0 op_add [ONode 2] false [])
           product_store product_store_older Hrefs).
Defined.

Section SharedCell.
Context {V F : Type} {H : Host V F}.

#[local] Abbreviation node := (node V F).
#[local] Abbreviation store := (store V F).

(** X21: a value assigned to [_obj] through one node is the value
    [_obj] reads through every node that holds the same one-slot list;
    the assignment changes no node, and the read changes nothing. *)
Theorem obj_written_is_read_through_cell (ev : nat -> M V F V) r r' (v : V)
    (s : store) :
  same_cell s r r' ->
  (forall nd c, nodes s !! r = Some nd -> n_shared nd = Some c ->
     c < length (cells s)) ->
  (set_obj r v s).1 = Ok tt /\
  nodes (set_obj r v s).2 = nodes s /\
  get_obj ev r' (set_obj r v s).2 = (Ok v, (set_obj r v s).2).
Proof.
  intros (nd & nd' & c & Hr & Hr' & Hc & Hc') Hlen.
  specialize (Hlen nd c Hr Hc).
  assert (set_obj r v s =
          (Ok tt, Store (nodes s) (<[c := v]> (cells s)) (owners s)
                        (watchers s) (log s))) as ->.
  { unfold set_obj. rewrite (get_node_run r s nd) by done. by rewrite Hc. }
  simpl. split; [done|]. split; [done|].
  unfold get_obj.
  rewrite (get_node_run r' _ nd') by done. rewrite Hc'.
  rewrite bind_run. unfold ret at 1.
  rewrite (get_node_run r' _ nd') by done. rewrite Hc'. simpl.
  by rewrite list_lookup_insert_eq.
Qed.

End SharedCell.

Lemma obj_written_is_read_through_cell_witness :
  same_cell product_store 0 2 /\
  (forall nd c, nodes product_store !! 0 = Some nd -> n_shared nd = Some c ->
     c < length (cells product_store)) /\
  (set_obj 0 (PInt 9) product_store).1 = Ok tt /\
  nodes (set_obj 0 (PInt 9) product_store).2 = nodes product_store /\
  get_obj (eval fuel) 2 (set_obj 0 (PInt 9) product_store).2
    = (Ok (PInt 9), (set_obj 0 (PInt 9) product_store).2).
Proof.
  assert (same_cell product_store 0 2) as Hcell.
  { eexists _, _, _. repeat split; vm_compute; reflexivity. }
  assert (forall nd c, nodes product_store !! 0 = Some nd ->
            n_shared nd = Some c -> c < length (cells product_store)) as Hlen.
  { intros nd c Hr Hc. vm_compute in Hr. injection Hr as <-.
    vm_compute in Hc. injection Hc as <-. vm_compute. lia. }
  split; [exact Hcell|]. split; [exact Hlen|].
  exact (obj_written_is_read_through_cell (eval fuel) 0 2 (PInt 9)
           product_store Hcell Hlen).
Defined.

Section Layout.
Context {K : Type}.

Lemma assoc_del_ne {A} (k k' : string) (l : list (string * A)) :
  k <> k' -> assoc k (assoc_del k' l) = assoc k l.
Proof.
  intros Hne. induction l as [|[k1 a] l IH]; [done|]. simpl.
  destruct (decide (k' = k1)) as [->|Hk1].
  - rewrite IH. by destruct (decide (k = k1)).
  - simpl. by rewrite IH.
Qed.

Lemma assoc_del_eq {A} (k : string) (l : list (string * A)) :
  assoc k (assoc_del k l) = None.
Proof.
  induction l as [|[k1 a] l IH]; [done|]. simpl.
  destruct (decide (k = k1)) as [->|Hk1]; [done|].
  simpl. by destruct (decide (k = k1)).
Qed.

Lemma assoc_assoc_set {A} (k k' : string) (a : A) (l : list (string * A)) :
  assoc k (assoc_set k' a l) = if decide (k = k') then Some a else assoc k l.
Proof.
  induction l as [|[k1 a1] l IH]; simpl.
  - by destruct (decide (k = k')).
  - destruct (decide (k' = k1)) as [->|Hk1]; simpl.
    + by destruct (decide (k = k1)).
    + rewrite IH. destruct (decide (k = k1)) as [->|?]; [|done].
      by destruct (decide (k1 = k')) as [->|?].
Qed.

Lemma pop_and_put_back {A} (k d : string) (l : list (string * A)) :
  assoc k (match assoc d l with
           | Some v => assoc_set d v (assoc_del d l)
           | None => l
           end) = assoc k l.
Proof.
  destruct (assoc d l) as [v|] eqn:Hd; [|done].
  rewrite assoc_assoc_set. destruct (decide (k = d)) as [->|Hne]; [done|].
  by apply assoc_del_ne.
Qed.

(** X22: whatever keywords [interactive] is given, the display options
    among them stay among the keywords that go on to the base
    [__init__], with their values, and none reaches [layout], which
    arranges as for [loc='left'] without centering: the output alone
    when there is no widget, else the widgets, aligned
    [('start', 'center')], then the output. *)
Theorem display_options_are_dropped (kwargs : list (string * K))
    (no_widgets : bool) (sizing_mode : option K) :
  (forall k, assoc k (interactive_init kwargs).1 = assoc k kwargs) /\
  arrange (interactive_init kwargs).2 no_widgets sizing_mode =
  Ok (if no_widgets then [CPanel]
      else [CWidgets (Across "start" "center"); CPanel]).
Proof.
  split; [|by destruct no_widgets].
  intros k. unfold interactive_init. cbn [fst foldl].
  by rewrite !pop_and_put_back.
Qed.

(** X23: for a location of the table, [layout] shows the output exactly
    once, and the widgets exactly once when there are some, not at all
    when there are none; for any other location it raises KeyError,
    also when there are no widgets. *)
Theorem layout_shows_each_once (opts : display_opts) (no_widgets : bool)
    (sizing_mode : option K) :
  match arrange opts no_widgets sizing_mode with
  | Ok comps =>
      is_Some (alignments (default "left" (d_loc opts))) /\
      length (filter (fun c => is_panel c = true) (flat_map shown comps)) = 1 /\
      length (filter (fun c => is_widget_box c = true) (flat_map shown comps)) =
        (if no_widgets then 0 else 1)
  | Raise e => e = KeyError /\ alignments (default "left" (d_loc opts)) = None
  end.
Proof.
  unfold arrange. cbv zeta.
  destruct (alignments (default "left" (d_loc opts))) as [[[b a] first]|];
    [|done].
  destruct no_widgets, (default false (d_center opts)), b, first;
    try destruct (String.prefix "left" (default "left" (d_loc opts)));
    (split; [by eexists|]); by vm_compute.
Qed.

End Layout.

Section CalmParams.
Context {V F : Type} {H : Host V F}.

#[local] Abbreviation node := (node V F).
#[local] Abbreviation store := (store V F).
#[local] Abbreviation params := (list (nat * string)).

Lemma calm_touch n p k : p < k -> calm k (touch (V := V) (F := F) n p).
Proof.
  intros Hlt. unfold touch. apply calm_bind; [calm_tac | mono_tac |].
  intros nd. apply calm_bind; [| mono_tac | intros; calm_tac].
  destruct (n_dirty nd); [|calm_tac].
  apply calm_bind; [by apply calm_eval | mono_tac | intros; calm_tac].
Qed.

Section WithRec.
Variable rec : nat -> M V F params.
Variable k : nat.
Hypothesis steps_rec : forall p, steps eq same_frame (rec p).
Hypothesis calm_rec : forall p, p < k -> calm k (rec p).

Lemma calm_params_walk fuel :
  forall prev ps, (forall p, prev = Some p -> p < k) ->
    calm k (params_walk rec fuel prev ps).
Proof.
  induction fuel as [|fuel IH]; intros [p|] ps Hp; simpl;
    [calm_tac | calm_tac | | calm_tac].
  specialize (Hp p eq_refl).
  apply calm_bind; [by apply calm_rec | done |]. intros qs.
  apply calm_get_node_bind. intros nd.
  apply (calm_when_fact _ (forall q, n_prev nd = Some q -> q < p)).
  { intros s Hold Hr. apply (Hold p nd Hr). }
  intros Hprev. apply calm_weaken. apply IH.
  intros q Hq. specialize (Hprev q Hq). lia.
Qed.

Lemma calm_params_args args :
  forall ps, (forall a, a ∈ node_refs args -> a < k) ->
    calm k (params_args rec args ps).
Proof.
  induction args as [|a args IH]; intros ps Hrefs; simpl; [calm_tac|].
  assert (forall b, b ∈ node_refs args -> b < k) as Hrest.
  { intros b Hb. apply Hrefs. destruct a; simpl; try done.
    by apply list_elem_of_further. }
  destruct a; simpl; try (by apply IH);
    try (destruct (decide _); by apply IH).
  apply calm_bind; [|done|intros; by apply IH].
  apply calm_rec. apply Hrefs. simpl. apply list_elem_of_here.
Qed.

Lemma calm_params_kwargs kwargs :
  forall ps, (forall a, a ∈ node_refs (map snd kwargs) -> a < k) ->
    calm k (params_kwargs rec kwargs ps).
Proof.
  induction kwargs as [|[key a] kwargs IH]; intros ps Hrefs; simpl; [calm_tac|].
  assert (forall b, b ∈ node_refs (map snd kwargs) -> b < k) as Hrest.
  { intros b Hb. apply Hrefs. destruct a; simpl; try done.
    by apply list_elem_of_further. }
  destruct a; simpl; try (by apply IH);
    try (destruct (decide (key = "ax")); [by apply IH|];
         try (destruct (decide _)); by apply IH).
  apply calm_bind; [|done|intros; by apply IH].
  apply calm_rec. apply Hrefs. simpl. apply list_elem_of_here.
Qed.

(** The part of [_params] after the reads of the node itself. *)
Lemma calm_params_body r fuel (nd : node) :
  r <= k ->
  calm_when (fun s => nodes s !! r = Some nd) k
    (do ps <~ params_walk rec fuel (n_prev nd) (fn_params (n_fn nd)) ;>
     do nd' <~ get_node r ;>
     match n_operation nd' with
     | None => ret ps
     | Some op =>
         do ps <~ params_args rec (args_items (op_args op)) ps ;>
         params_kwargs rec (op_kwargs op) ps
     end).
Proof.
  intros Hle.
  apply (calm_when_fact _ (forall p, n_prev nd = Some p -> p < r)).
  { intros s Hold Hr. apply (Hold r nd Hr). }
  intros Hprev. apply calm_when_bind.
  - apply calm_weaken. apply calm_params_walk.
    intros p Hp. specialize (Hprev p Hp). lia.
  - apply (steps_params_walk eq same_frame rec steps_rec).
  - intros ps. apply calm_get_node_bind. intros nd'.
    apply (calm_when_fact _ (forall op a, n_operation nd' = Some op ->
                                          a ∈ op_refs op -> a < r)).
    { intros s Hold Hr. apply (Hold r nd' Hr). }
    intros Hrefs. apply calm_weaken.
    destruct (n_operation nd') as [op|]; [|calm_tac].
    apply calm_bind.
    + apply calm_params_args. intros a Ha.
      assert (a < r); [|lia]. apply (Hrefs op a eq_refl).
      unfold op_refs. apply elem_of_app. by left.
    + apply (steps_params_args eq same_frame rec steps_rec).
    + intros ps'. apply calm_params_kwargs. intros a Ha.
      assert (a < r); [|lia]. apply (Hrefs op a eq_refl).
      unfold op_refs. apply elem_of_app. by right.
Qed.

End WithRec.

Lemma calm_params n : forall p k, p < k -> calm k (_params (V := V) (F := F) n p).
Proof.
  induction n as [|n IH]; intros p k Hlt; [simpl; calm_tac|].
  cbn [_params].
  apply calm_bind; [by apply calm_touch | mono_tac | intros _].
  apply calm_bind; [by apply calm_touch | mono_tac | intros _].
  apply calm_get_node_bind. intros nd.
  apply (calm_params_body (_params n) k); [apply steps_params; exact _| |lia].
  intros q Hq. by apply IH.
Qed.

End CalmParams.

Section Clean.
Context {V F : Type} {H : Host V F}.

#[local] Abbreviation node := (node V F).
#[local] Abbreviation store := (store V F).

Lemma touch_clean n r (s : store) : clean s r -> touch n r s = touch_tail r s.
Proof.
  intros (nd & Hr & Hd). unfold touch.
  rewrite (get_node_run r s nd) by done. by rewrite Hd.
Qed.

Lemma touch_clean_state n r (s : store) : clean s r -> (touch n r s).2 = s.
Proof.
  intros Hc. rewrite (touch_clean n r s Hc).
  destruct (touch_tail r s) as [res s1] eqn:Ht.
  by apply touch_tail_pure in Ht.
Qed.

Lemma untouched_clean k (s s' : store) r :
  untouched_from k s s' -> k <= r -> clean s r -> clean s' r.
Proof.
  intros Hu Hle (nd & Hr & Hd).
  destruct (Hu r nd Hle Hr) as (nd' & Hr' & Hd' & _).
  exists nd'. split; [done | congruence].
Qed.

Lemma clean_same_nodes (s s' : store) r :
  nodes s' = nodes s -> clean s r -> clean s' r.
Proof. intros E (nd & Hr & Hd). exists nd. by rewrite E. Qed.

Lemma older_same_nodes (s s' : store) : nodes s' = nodes s -> older s -> older s'.
Proof. intros E Hold r nd Hr. rewrite E in Hr. by apply Hold. Qed.

Lemma params_clean n r (s : store) :
  older s -> clean s r -> untouched_from r s (_params n r s).2.
Proof.
  intros Hold Hc. destruct n as [|n]; [apply untouched_refl|]. cbn [_params].
  pose proof (touch_clean_state (S n) r s Hc) as Ht.
  rewrite bind_run.
  destruct (touch (S n) r s) as [[[]|e] s1] eqn:Hrun; simpl in Ht; subst s1;
    [|apply untouched_refl].
  rewrite bind_run, Hrun.
  destruct Hc as (nd & Hr & Hd).
  rewrite (get_node_run r s nd) by done.
  apply (calm_params_body (_params n) r (steps_params eq same_frame n)
           (fun p Hp => calm_params n p r Hp) r n nd (le_n r) s Hold Hr).
Qed.

Lemma watch_all_clean n r cb gs :
  forall (s : store), clean s r -> nodes (watch_all n r cb gs s).2 = nodes s.
Proof.
  induction gs as [|[o xs] gs IH]; intros s Hc; simpl; [done|].
  pose proof (touch_clean_state n r s Hc) as Ht.
  rewrite bind_run.
  destruct (touch n r s) as [[[]|e] s1]; simpl in Ht; subst s1; [|done].
  rewrite bind_run. unfold add_watcher at 1.
  rewrite IH; [done|]. by eapply clean_same_nodes.
Qed.

Lemma setup_clean n r depth (s : store) :
  older s -> clean s r -> clean (_setup_invalidations n r depth s).2 r.
Proof.
  intros Hold Hc. unfold _setup_invalidations.
  pose proof Hc as (nd & Hr & Hd).
  rewrite (get_node_run r s nd) by done.
  rewrite bind_run.
  assert (nodes ((if decide (depth = 0)
                  then do _ <~ touch n r ;>
                       watch_all n r (CbUpdateObj r)
                         (group_by_owner (fn_params (n_fn nd)))
                  else ret tt) s).2 = nodes s) as Hn.
  { destruct (decide (depth = 0)) as [Hd0|Hd0]; [|done].
    pose proof (touch_clean_state n r s Hc) as Ht.
    rewrite bind_run.
    destruct (touch n r s) as [[[]|e] s1]; simpl in Ht; subst s1; [|done].
    by apply watch_all_clean. }
  destruct ((if decide (depth = 0)
             then do _ <~ touch n r ;>
                  watch_all n r (CbUpdateObj r)
                    (group_by_owner (fn_params (n_fn nd)))
             else ret tt) s) as [[[]|e] s1]; simpl in Hn;
    [|by eapply clean_same_nodes].
  pose proof (clean_same_nodes s s1 r Hn Hc) as Hc1.
  pose proof (older_same_nodes s s1 Hn Hold) as Hold1.
  pose proof (params_clean n r s1 Hold1 Hc1) as Hu.
  pose proof (untouched_clean r s1 _ r Hu (le_n r) Hc1) as Hc2.
  rewrite bind_run.
  destruct (_params n r s1) as [[ps|e'] s2]; simpl in Hc2; [|done].
  eapply clean_same_nodes; [|exact Hc2]. by apply watch_all_clean.
Qed.

Lemma init_clean n (nd : node) (s : store) r s' :
  older s ->
  (forall p, n_prev nd = Some p -> p < length (nodes s)) ->
  (forall op a, n_operation nd = Some op -> a ∈ op_refs op ->
     a < length (nodes s)) ->
  (forall q, q ∈ fn_refs (n_fn nd) -> q < length (nodes s)) ->
  __init__ n nd s = (Ok r, s') -> clean s' r.
Proof.
  intros Hold Hp Ho Hn Hrun. unfold __init__ in Hrun.
  rewrite bind_run in Hrun. unfold alloc_node at 1 in Hrun.
  set (nd0 := set_current vnone (set_dirty true nd)) in *.
  pose proof (older_alloc s nd0 Hold Hp Ho Hn) as Hold0. simpl in Hold0.
  set (s0 := Store (nodes s ++ [nd0]) (cells s) (owners s) (watchers s) (log s))
    in *.
  assert (nodes s0 !! length (nodes s) = Some nd0) as Hr0.
  { by apply list_lookup_middle. }
  rewrite bind_run in Hrun.
  pose proof (steps_touch eq same_frame n (length (nodes s)) s0) as Hst.
  destruct (touch n (length (nodes s)) s0) as [[[]|e] s1] eqn:Ht;
    [|discriminate].
  simpl in Hst.
  assert (clean s1 (length (nodes s))) as Hc1.
  { unfold touch in Ht. rewrite (get_node_run _ s0 nd0) in Ht by done.
    simpl in Ht. rewrite bind_run in Ht. rewrite bind_run in Ht.
    destruct (eval n (length (nodes s)) s0) as [[v|e] s0'] eqn:Hev;
      [|discriminate].
    unfold ret at 1 in Ht.
    pose proof (touch_tail_pure _ _ _ _ Ht) as ->.
    by apply eval_success_clean in Hev. }
  pose proof (older_settled _ _ Hold0 Hst) as Hold1.
  pose proof (setup_clean n (length (nodes s)) (n_depth nd) s1 Hold1 Hc1) as Hc2.
  rewrite bind_run in Hrun.
  destruct (_setup_invalidations n (length (nodes s)) (n_depth nd) s1)
    as [[[]|e] s2]; [|discriminate].
  injection Hrun as <- <-. exact Hc2.
Qed.

Lemma clone_init n r op copy kw (s : store) new s' :
  _clone n r op copy kw s = (Ok new, s') ->
  exists s1 nd fn w,
    quiet s s1 /\ nodes s1 !! r = Some nd /\
    (if copy then fn = n_fn nd else exists o, fn = PBind o "object") /\
    __init__ n (cloned r nd op copy kw fn w) s1 = (Ok new, s').
Proof.
  intros Hrun. unfold _clone in Hrun.
  pose proof (quiet_refl s) as Hacc.
  key_step Hrun.
  hstep Hrun; [|discriminate].
  hstep Hrun; [|discriminate].
  hstep Hrun; [|discriminate].
  cbv zeta in Hrun.
  hstep Hrun; [|discriminate].
  hstep Hrun; [|discriminate].
  hstep Hrun; [|discriminate].
  key_step Hrun.
  hstep Hrun; [|discriminate].
  hstep Hrun; [|discriminate].
  hstep Hrun; [|discriminate].
  key_step Hrun.
  hstep Hrun; [|discriminate].
  hstep Hrun; [|discriminate].
  pose proof (quiet_trans _ _ _ Hstep4 Hstep5) as Hs46.
  destruct (proj2 Hs46 r nd2 Hr2) as (nd5 & Hr5 & Hs45).
  destruct (get_obj_shared _ _ _ _ _ Heqp3) as (ndx & c & Hx & Hc & _).
  rewrite Hr2 in Hx. injection Hx as <-.
  pose proof (quiet_lookup _ _ _ _ _ Hq5 Hr Hr5) as [Hf0 Hm0].
  pose proof (quiet_lookup _ _ _ _ _
                (quiet_trans _ _ _ Hstep0
                   (quiet_trans _ _ _ Hstep1
                      (quiet_trans _ _ _ Hstep2
                         (quiet_trans _ _ _ Hstep3 Hs46)))) Hr0 Hr5)
    as [Hf1 Hm1].
  pose proof (quiet_lookup _ _ _ _ _
                (quiet_trans _ _ _ Hstep2 (quiet_trans _ _ _ Hstep3 Hs46))
                Hr1 Hr5) as [Hf2 Hm2].
  destruct Hs45 as [Hf4 Hm4].
  pose proof (sf_shared _ _ Hf4 c Hc) as Hc5.
  assert (a4 = if copy then n_method nd1 else clone_method kw) as ->.
  { destruct copy; [by injection Heqp4 as <- _|].
    unfold lift in Heqp4. unfold clone_method.
    injection Heqp4 as Hm _. by rewrite Hm. }
  exists s6, nd5, a5.1, a5.2.
  split; [done|]. split; [done|]. split.
  { destruct copy.
    - injection Heqp5 as <- _. simpl. by rewrite (sf_fn _ _ Hf2).
    - destruct (fn_given kw); [discriminate|].
      rewrite bind_run in Heqp5. unfold alloc_owner at 1 in Heqp5.
      cbv iota beta in Heqp5. injection Heqp5 as <- _. simpl. by eexists. }
  unfold cloned, clone_kwargs in *.
  rewrite Hc5, <- Hc, Hm2, (sf_operation _ _ Hf0), (sf_depth _ _ Hf1),
    (sf_prev _ _ Hf2), (sf_wrapper _ _ Hf2), (sf_kwargs _ _ Hf2).
  exact Hrun.
Qed.

Lemma clone_clean n r op copy kw (s : store) new s' :
  older s ->
  (forall o a, op = Some o -> a ∈ op_refs o -> a < length (nodes s)) ->
  _clone n r op copy kw s = (Ok new, s') -> clean s' new.
Proof.
  intros Hold Hop Hrun.
  apply clone_init in Hrun as (s1 & nd & fn & w & Hq & Hr & Hfn & Hrun).
  pose proof (older_quiet _ _ Hold Hq) as Hold1.
  pose proof (quiet_length _ _ Hq) as Hlen.
  pose proof (lookup_lt_Some _ _ _ Hr) as Hlt.
  destruct (Hold1 r nd Hr) as (Hprev & Hrefs & Hnode).
  eapply init_clean; [exact Hold1 | | | | exact Hrun].
  3:{ simpl. intros q Hq0. destruct copy.
      - subst fn. specialize (Hnode q Hq0). lia.
      - destruct Hfn as (o & ->). by apply elem_of_nil in Hq0. }
  - simpl. intros p. destruct copy; [intros Hp; apply Hprev in Hp; lia|].
    intros [= <-]. done.
  - simpl. intros o a. destruct op as [o'|].
    + intros [= <-] Ha. specialize (Hop _ a eq_refl Ha). lia.
    + intros Ho Ha. specialize (Hrefs o a Ho Ha). lia.
Qed.

End Clean.

(** Stepping through a run that returned, keeping [older_from]. *)
Ltac ostep Hrun HP :=
  rewrite bind_run in Hrun;
  lazymatch type of Hrun with
  | (match ?c ?s with _ => _ end) = _ =>
      lazymatch type of HP with
      | older_from ?B s =>
          let Hk := fresh "Hk" in
          assert (Hk : keeps (older_from B) c)
            by (first [apply older_from_resolve_accessor | older_tac]);
          specialize (Hk s HP);
          destruct (c s) as [[?|?] ?] eqn:?; [|discriminate];
          simpl in Hk; clear HP; rename Hk into HP
      end
  end.

(** Case analysis on what the run branches on. *)
Ltac ocase Hrun :=
  lazymatch type of Hrun with
  | (match ?x with _ => _ end) _ = _ => destruct x
  | (match ?x with _ => _ end) = _ => destruct x
  end.

Section MadeClean.
Context {V F : Type} {H : Host V F}.

#[local] Abbreviation node := (node V F).
#[local] Abbreviation store := (store V F).

Lemma clean_set_method (s : store) r x m :
  clean s r -> clean (upd_node x (set_method m) s).2 r.
Proof.
  intros (nd & Hr & Hd). unfold clean. simpl.
  destruct (decide (x = r)) as [->|Hne].
  - exists (set_method m nd). by rewrite list_lookup_alter_eq, Hr.
  - exists nd. by rewrite list_lookup_alter_ne.
Qed.

Lemma clone_clean_from B n r op copy kw (s : store) new s' :
  older_from B s ->
  (forall o a, op = Some o -> a ∈ op_refs o -> a < B) ->
  _clone n r op copy kw s = (Ok new, s') -> clean s' new.
Proof.
  intros [Hold HB] Hop. apply clone_clean; [done|].
  intros o a Ho Ha. specialize (Hop o a Ho Ha). lia.
Qed.

Lemma interactive_clean B n obj (s : store) new s' :
  older_from B s -> interactive n obj s = (Ok new, s') -> clean s' new.
Proof.
  intros HP Hrun. unfold interactive in Hrun.
  rewrite bind_run in Hrun.
  lazymatch type of Hrun with
  | (match ?c s with _ => _ end) = _ =>
      assert (steps eq same_frame c) as Hst by mono_tac; specialize (Hst s);
      pose proof (root_producer_refs n obj s) as Hrefs;
      destruct (c s) as [[fow|e] s1]; [|discriminate]
  end.
  simpl in Hst. destruct (Hrefs fow s1 eq_refl) as [Hfn Hprev]. clear Hrefs.
  destruct HP as [Hold _]. pose proof (older_settled _ _ Hold Hst) as Hold1.
  rewrite bind_run in Hrun.
  lazymatch type of Hrun with
  | (match ?c s1 with _ => _ end) = _ =>
      assert (steps eq same_frame c) as Hst2 by mono_tac; specialize (Hst2 s1);
      destruct (c s1) as [[shared|e] s2]; [|discriminate]
  end.
  simpl in Hst2. pose proof (older_settled _ _ Hold1 Hst2) as Hold2.
  assert (length (nodes s2) = length (nodes s)) as Hlen.
  { destruct Hst as [-> _]. by destruct Hst2 as [-> _]. }
  cbv zeta in Hrun.
  eapply init_clean; [exact Hold2 | | | | exact Hrun]; simpl.
  - fold (root_prev obj). intros p Hp. rewrite Hlen. by apply Hprev.
  - intros; discriminate.
  - rewrite Hfn. intros q Hq0.
    destruct (root_prev obj) as [q'|]; [|by apply elem_of_nil in Hq0].
    apply list_elem_of_singleton in Hq0 as ->. rewrite Hlen. by apply Hprev.
Qed.

Lemma resolve_accessor_clean B n r (s : store) new s' :
  older_from B s -> _resolve_accessor n r s = (Ok new, s') -> clean s' new.
Proof.
  intros HP Hrun. unfold _resolve_accessor in Hrun.
  ostep Hrun HP.
  ocase Hrun.
  - ocase Hrun; [|discriminate].
    apply try_finally_run in Hrun as (sf & Hrun & Hfin).
    ostep Hrun HP.
    unfold upd_node in Hfin. injection Hfin as <-.
    apply (clean_set_method sf new r None).
    eapply (clone_clean_from B); [exact HP | | exact Hrun].
    intros o x [= <-]. unfold op_refs. simpl. rewrite node_refs_chars.
    by intros ?%elem_of_nil.
  - ostep Hrun HP.
    eapply (clone_clean_from B); [exact HP | | exact Hrun]. intros; discriminate.
Qed.

Lemma getattribute_clean B n r name (s : store) new s' :
  older_from B s ->
  __getattribute__ n r name s = (Ok (Intercepted new), s') -> clean s' new.
Proof.
  intros HP Hrun. unfold __getattribute__ in Hrun.
  destruct (decide (name ∈ no_lookup)); [discriminate|].
  ostep Hrun HP. ostep Hrun HP. ostep Hrun HP. ostep Hrun HP.
  ocase Hrun; [|discriminate].
  ostep Hrun HP.
  rewrite bind_run in Hrun.
  lazymatch type of Hrun with
  | (match _resolve_accessor n r ?s4 with _ => _ end) = _ =>
      destruct (_resolve_accessor n r s4) as [[x|e'] s5] eqn:Hres;
        [|discriminate]
  end.
  rewrite bind_run in Hrun. unfold upd_node at 1 in Hrun. cbv iota in Hrun.
  injection Hrun as <- <-.
  apply (clean_set_method s5 x x (Some name)).
  by eapply resolve_accessor_clean.
Qed.

Lemma apply_operator_clean B n r (f : F) args rev kw (s : store) new s' :
  older_from B s ->
  (forall a, a ∈ node_refs args ++ node_refs (map snd kw) -> a < B) ->
  _apply_operator n r f args rev kw s = (Ok new, s') -> clean s' new.
Proof.
  intros HP Hrefs Hrun. unfold _apply_operator in Hrun.
  ostep Hrun HP. ostep Hrun HP. ostep Hrun HP. cbv zeta in Hrun.
  ostep Hrun HP.
  eapply (clone_clean_from B); [exact HP | | exact Hrun].
  intros o x [= <-] Hx. by apply Hrefs.
Qed.

Lemma call_clean B n r args kw (s : store) new s' :
  older_from B s ->
  (forall a, a ∈ node_refs args ++ node_refs (map snd kw) ++ call_refs args kw ->
             a < B) ->
  __call__ n r args kw s = (Ok new, s') -> clean s' new.
Proof.
  intros HP Hrefs Hrun. unfold __call__ in Hrun.
  key_step Hrun.
  ostep Hrun HP.
  ocase Hrun.
  - ostep Hrun HP. ostep Hrun HP.
    apply try_finally_run in Hrun as (sf & Hrun & Hfin).
    ostep Hrun HP.
    ocase Hrun; [|discriminate]. cbv zeta in Hrun.
    ostep Hrun HP.
    unfold upd_node in Hfin. injection Hfin as <-.
    apply (clean_set_method sf new _ None).
    eapply (clone_clean_from B); [exact HP | | exact Hrun].
    intros o x [= <-] Hx. apply Hrefs.
    rewrite app_assoc. apply elem_of_app. by left.
  - ostep Hrun HP. ostep Hrun HP.
    ocase Hrun; [|discriminate].
    ostep Hrun HP.
    rewrite bind_run in Hrun. unfold lift at 1 in Hrun.
    unfold call_refs in Hrefs.
    destruct (clone_arguments args kw) as [[[op copy] k]|e']; [|discriminate].
    simpl in Hrun.
    eapply (clone_clean_from B); [exact HP | | exact Hrun].
    intros o x -> Hx. cbv iota beta in Hrefs. apply Hrefs.
    apply elem_of_app. right. apply elem_of_app. by right.
Qed.

(** X24: a node that an operation has made and returned has been
    evaluated already: it is not dirty.  This holds for the root made by
    [interactive(obj)], for [_clone], for an intercepted attribute read,
    for [__call__], for an operator and for indexing, in a store where
    every node was made after its previous node and after the nodes
    among its operands, the nodes among the operands given being
    there. *)
Theorem made_node_is_evaluated n (m : making V F) (s : store) new :
  older s ->
  (forall a, a ∈ making_refs m -> a < length (nodes s)) ->
  made n m s = Some new ->
  clean (make n m s) new.
Proof.
  intros Hold Hrefs Hmade.
  assert (older_from (length (nodes s)) s) as HP by (split; [done | lia]).
  destruct m as [obj|r op copy kw|r name|r args kw|r f args rev kw|r other];
    cbn [making_refs make made] in Hrefs, Hmade |- *.
  - destruct (interactive n obj s) as [[x|e] s'] eqn:Hrun; [|discriminate].
    injection Hmade as <-. by eapply interactive_clean.
  - destruct (_clone n r op copy kw s) as [[x|e] s'] eqn:Hrun; [|discriminate].
    injection Hmade as <-. eapply clone_clean_from; [exact HP | | exact Hrun].
    intros o a -> Ha. by apply Hrefs.
  - destruct (__getattribute__ n r name s) as [[[x|]|e] s'] eqn:Hrun;
      try discriminate.
    injection Hmade as <-. by eapply getattribute_clean.
  - destruct (__call__ n r args kw s) as [[x|e] s'] eqn:Hrun; [|discriminate].
    injection Hmade as <-. by eapply call_clean.
  - destruct (_apply_operator n r f args rev kw s) as [[x|e] s'] eqn:Hrun;
      [|discriminate].
    injection Hmade as <-. by eapply apply_operator_clean.
  - unfold __getitem__ in *.
    destruct (_apply_operator n r op_getitem [other] false [] s)
      as [[x|e] s'] eqn:Hrun; [|discriminate].
    injection Hmade as <-. eapply apply_operator_clean; [exact HP | | exact Hrun].
    intros a Ha. apply Hrefs. simpl in Ha. by rewrite app_nil_r in Ha.
Qed.

End MadeClean.

Lemma made_node_is_evaluated_witness :
  older product_store /\
  (forall a, a ∈ making_refs (MakeOperator 0 op_add [ONode 2] false []) ->
     a < length (nodes product_store)) /\
  made fuel (MakeOperator 0 op_add [ONode 2] false []) product_store = Some 4 /\
  clean (make fuel (MakeOperator 0 op_add [ONode 2] false []) product_store) 4.
Proof.
  assert (forall a, a ∈ making_refs (H := py_host)
                        (MakeOperator 0 op_add [ONode 2] false []) ->
            a < length (nodes product_store)) as Hrefs.
  { intros a Ha. vm_compute in Ha. apply list_elem_of_singleton in Ha as ->.
    vm_compute. lia. }
  assert (made fuel (MakeOperator 0 op_add [ONode 2] false []) product_store
          = Some 4) as Hmade by (vm_compute; reflexivity).
  split; [exact product_store_older|]. split; [exact Hrefs|].
  split; [exact Hmade|].
  exact (made_node_is_evaluated fuel (MakeOperator 0 op_add [ONode 2] false [])
           product_store 4 product_store_older Hrefs Hmade).
Defined.

Section EvalChain.
Context {V F : Type} {H : Host V F}.

#[local] Abbreviation node := (node V F).
#[local] Abbreviation store := (store V F).

(** A read that went through leaves the node clean. *)
Lemma touch_success_clean n r (s s' : store) :
  touch n r s = (Ok tt, s') -> clean s' r.
Proof.
  unfold touch. intros Hrun.
  hstep_any Hrun; [|discriminate].
  unfold get_node in Heqp. destruct (nodes s !! r) as [nd|] eqn:Hr; [|discriminate].
  injection Heqp as <- <-.
  hstep_any Hrun; [|discriminate].
  pose proof (touch_tail_pure _ _ _ _ Hrun) as ->.
  destruct (n_dirty nd) eqn:Hd.
  - rename Heqp into Hev. hstep_any Hev; [|discriminate].
    injection Hev as _ <-. by eapply eval_success_clean.
  - injection Heqp as _ <-. by exists nd.
Qed.

(** X25: reading [_current], when it returns, returns the cached value
    [_current_] of the node, which is then not dirty. *)
Theorem current_returns_the_cache n r (s : store) v s' :
  _current n r s = (Ok v, s') ->
  exists nd, nodes s' !! r = Some nd /\ n_dirty nd = false /\ n_current nd = v.
Proof.
  unfold _current. intros Hrun.
  hstep_any Hrun; [|discriminate]. hstep_any Hrun; [|discriminate].
  hstep_any Hrun; [|discriminate].
  rewrite bind_run in Hrun.
  lazymatch type of Hrun with
  | (match touch n r ?s2 with _ => _ end) = _ =>
      destruct (touch n r s2) as [[[]|e] s3] eqn:Ht; [|discriminate]
  end.
  destruct (touch_success_clean _ _ _ _ Ht) as (nd & Hr & Hd).
  rewrite (get_node_run r s3 nd) in Hrun by done.
  injection Hrun as <- <-. eauto.
Qed.

(** X26: how [eval] composes along a chain.  On a dirty node with a
    previous node and an operation, and no accessor pending: when the
    previous node evaluates to [vp] and the operation applied to [vp]
    returns [v], [eval] returns [v], and leaves the store the operation
    left but for the node itself, which holds [v] as its cache and is
    no longer dirty. *)
Theorem eval_applies_operation_to_previous n r p (s s1 s2 : store) nd op vp v :
  nodes s !! r = Some nd -> n_dirty nd = true ->
  n_prev nd = Some p -> n_operation nd = Some op ->
  method_set (n_method nd) = None ->
  eval n p s = (Ok vp, s1) ->
  _eval_operation n vp op s1 = (Ok v, s2) ->
  eval (S n) r s =
  (Ok v, Store (alter (set_dirty false) r (alter (set_current v) r (nodes s2)))
               (cells s2) (owners s2) (watchers s2) (log s2)).
Proof.
  intros Hr Hd Hp Ho Hm Hev Hop.
  pose proof (steps_eval eq same_but_memo n p s) as Hq1.
  rewrite Hev in Hq1. simpl in Hq1.
  destruct (proj2 Hq1 r nd Hr) as (nd1 & Hr1 & Hf1 & Hm1).
  pose proof (steps_eval_operation_with eq same_but_memo (eval n)
                (steps_eval eq same_but_memo n) vp op s1) as Hq2.
  unfold _eval_operation in Hop. rewrite Hop in Hq2. simpl in Hq2.
  destruct (proj2 Hq2 r nd1 Hr1) as (nd2 & Hr2 & Hf2 & Hm2).
  cbn [eval]. rewrite (get_node_run r s nd) by done. rewrite Hd. cbn [negb].
  rewrite Hp. rewrite bind_run, Hev.
  rewrite (get_node_run r s1 nd1) by done.
  rewrite (sf_operation _ _ Hf1), Ho. rewrite bind_run, Hop.
  rewrite bind_run. unfold upd_node at 1. cbv iota.
  rewrite bind_run. unfold upd_node at 1. cbv iota.
  set (s3 := Store (alter (set_dirty false) r (alter (set_current v) r (nodes s2)))
                   (cells s2) (owners s2) (watchers s2) (log s2)).
  assert (nodes s3 !! r = Some (set_dirty false (set_current v nd2))) as Hr3.
  { simpl. by rewrite !list_lookup_alter_eq, Hr2. }
  rewrite (get_node_run r s3 _ _ Hr3).
  assert (method_set (n_method (set_dirty false (set_current v nd2))) = None)
    as Hm3 by (simpl; by rewrite Hm2, Hm1).
  rewrite Hm3. rewrite bind_run. unfold ret at 1.
  rewrite bind_run.
  assert (touch_tail r s3 = (Ok tt, s3)) as Htail.
  { unfold touch_tail. rewrite (get_node_run r s3 _ _ Hr3). by rewrite Hm3. }
  destruct (is_callable v); [by rewrite Htail | done].
Qed.

End EvalChain.

Lemma current_returns_the_cache_witness :
  exists s',
    _current fuel 2 reset_product_store = (Ok (PInt 8), s') /\
    exists nd, nodes s' !! 2 = Some nd /\ n_dirty nd = false /\
               n_current nd = PInt 8.
Proof.
  eexists. split; [vm_compute; reflexivity|].
  eapply (current_returns_the_cache fuel 2 reset_product_store).
  vm_compute; reflexivity.
Defined.

Lemma eval_applies_operation_to_previous_witness :
  exists nd op s1 s2,
    nodes reset_product_store !! 2 = Some nd /\ n_dirty nd = true /\
    n_prev nd = Some 1 /\ n_operation nd = Some op /\
    method_set (n_method nd) = None /\
    eval fuel 1 reset_product_store = (Ok (PInt 4), s1) /\
    _eval_operation fuel (PInt 4) op s1 = (Ok (PInt 8), s2) /\
    eval (S fuel) 2 reset_product_store =
    (Ok (PInt 8),
     Store (alter (set_dirty false) 2 (alter (set_current (PInt 8)) 2 (nodes s2)))
           (cells s2) (owners s2) (watchers s2) (log s2)).
Proof.
  eexists _, _, _, _.
  split; [vm_compute; reflexivity|]. split; [reflexivity|].
  split; [reflexivity|]. split; [reflexivity|]. split; [reflexivity|].
  split; [vm_compute; reflexivity|]. split; [vm_compute; reflexivity|].
  eapply (eval_applies_operation_to_previous fuel 2 1 reset_product_store);
    first [reflexivity | vm_compute; reflexivity].
Defined.
